(** * GPU active-set selection for Gaussian-process implicit surfaces

    A shallow embedding of [src/gpu_active_set_selector.cpp] (class
    [GpuActiveSetSelector]) and the properties of its selection loops,
    solvers and prediction routines.

    Conventions of the embedding.
    - [float] and [double] values are real numbers: every arithmetic
      operation is the exact one; rounding, infinities and NaN are not
      modelled, and a division by zero yields [0].
    - [int] is [Z] with two's-complement wrap-around where the source
      computes on it, [unsigned int] is [Z] modulo [2^32].
    - A device or host array of floats is a [list R] (a [buffer]); an
      array of [unsigned char] flags is a [list Z].  Matrices are stored
      column-major with an explicit leading dimension, as cuBLAS and CULA
      take them.  Reading outside a buffer yields [0] and writing outside
      it is dropped (both are undefined in the source).
    - The cuBLAS routines are defined by their documented results.  The
      device kernels of the repository that live outside this file, and
      the CULA factorisation routines, are the fields of [DeviceKernels];
      the Boost accumulators are the fields of [Accumulators].
    - Logging and timing do not appear, nor do [ReadCsv] and the entry
      point [SelectFromGrid] that parses its input with it.  [WriteCsv] is
      the sequence of tokens it sends to the stream; the CULA solver of
      [SelectFullInversion] is the field of [InversionKernels]. *)

From Stdlib Require Import Reals ZArith List Lia Lra Bool.
Import ListNotations.

Open Scope R_scope.

(** ** Machine numbers *)

(** Value of a 32-bit [int] after wrap-around. *)
Definition int_wrap (z : Z) : Z := ((z + 2 ^ 31) mod 2 ^ 32 - 2 ^ 31)%Z.

(** Value of a 32-bit [unsigned int]; also the conversion of an [int]
    operand in a mixed comparison. *)
Definition uint_wrap (z : Z) : Z := (z mod 2 ^ 32)%Z.

(** Conversion of a floating value to [int]: truncation toward zero. *)
Definition float_to_int (x : R) : Z :=
  if Rle_dec 0 x then Int_part x else (- Int_part (- x))%Z.

Definition Rgtb (a b : R) : bool := if Rgt_dec a b then true else false.

(** ** Buffers *)

Definition buffer := list R.
Definition flags := list Z.

Definition rd (b : buffer) (i : nat) : R := nth i b 0.

Fixpoint wr (b : buffer) (i : nat) (v : R) : buffer :=
  match b, i with
  | [], _ => []
  | _ :: t, O => v :: t
  | h :: t, S i' => h :: wr t i' v
  end.

(** [write_seq b off vs] stores the values [vs] at [b[off], b[off+1], ...]. *)
Fixpoint write_seq (b : buffer) (off : nat) (vs : list R) : buffer :=
  match vs with
  | [] => b
  | v :: vs' => write_seq (wr b off v) (S off) vs'
  end.

(** [tabulate f n] is [[f 0; ...; f (n-1)]]. *)
Definition tabulate (f : nat -> R) (n : nat) : list R := map f (seq 0 n).

(** [big_sum f n] is [f 0 + ... + f (n-1)], accumulated from the left. *)
Fixpoint big_sum (f : nat -> R) (n : nat) : R :=
  match n with
  | O => 0
  | S n' => big_sum f n' + f n'
  end.

(** [cudaMalloc]: a fresh buffer of [n] floats whose contents [junk] are
    whatever the device memory held. *)
Definition cudaMalloc (junk : nat -> R) (n : Z) : buffer :=
  tabulate junk (Z.to_nat n).

(** [cudaMemset(b, 0, n * sizeof(float))]. *)
Definition cudaMemset0 (b : buffer) (n : Z) : buffer :=
  write_seq b 0 (tabulate (fun _ => 0) (Z.to_nat n)).

(** [cudaMemcpy(dst + doff, src + soff, n * sizeof(float), ...)] between
    two distinct buffers. *)
Definition cudaMemcpy (dst : buffer) (doff : nat) (src : buffer) (soff : nat)
    (n : Z) : buffer :=
  write_seq dst doff (tabulate (fun i => rd src (soff + i)) (Z.to_nat n)).

(** ** Squared-exponential covariance *)

(** The loop of [SECovariance]: [n] iterations starting at index [i]. *)
Fixpoint SECovariance_loop (x y : list R) (i n : nat) (sum : R) : R :=
  match n with
  | O => sum
  | S n' =>
      SECovariance_loop x y (S i) n'
        (sum + (nth i x 0 - nth i y 0) * (nth i x 0 - nth i y 0))
  end.

(** [float SECovariance(float* x, float* y, int dim, int sigma)].  The
    quotient is the real one for [sigma <> 0]; at [sigma = 0] the source
    divides by zero, which the properties below exclude. *)
Definition SECovariance (x y : list R) (dim sigma : Z) : R :=
  let sum := SECovariance_loop x y 0 (Z.to_nat dim) 0 in
  exp (- sum / IZR (int_wrap (2 * sigma))).

(** The squared Euclidean distance of the first [d] coordinates. *)
Definition sqdist (x y : list R) (d : nat) : R :=
  big_sum (fun i => (nth i x 0 - nth i y 0) ^ 2) d.

(** ** cuBLAS level-1, level-2 and level-3 routines

    Vectors have unit stride; [lda] and [ldb] are leading dimensions;
    a pointer [y + off] is the pair of the buffer and the offset. *)

Inductive cublasOperation_t := CUBLAS_OP_N | CUBLAS_OP_T.

(** [cublasSdot(handle, n, x, 1, y, 1, result)]. *)
Definition cublasSdot (n : Z) (x y : buffer) : R :=
  big_sum (fun i => rd x i * rd y i) (Z.to_nat n).

(** [cublasSaxpy(handle, n, alpha, x, 1, y, 1)]: [y := alpha x + y]. *)
Definition cublasSaxpy (n : Z) (alpha : R) (x y : buffer) : buffer :=
  write_seq y 0 (tabulate (fun i => alpha * rd x i + rd y i) (Z.to_nat n)).

(** [cublasSscal(handle, n, alpha, x, 1)]: [x := alpha x]. *)
Definition cublasSscal (n : Z) (alpha : R) (x : buffer) : buffer :=
  write_seq x 0 (tabulate (fun i => alpha * rd x i) (Z.to_nat n)).

(** Entry [(i, j)] of a column-major matrix. *)
Definition mat (A : buffer) (lda i j : nat) : R := rd A (i + j * lda).

(** [cublasSgemv(handle, trans, m, n, alpha, A, lda, x, 1, beta, y + yoff, 1)]:
    [y := alpha op(A) x + beta y] for the [m] by [n] matrix [A]. *)
Definition cublasSgemv (trans : cublasOperation_t) (m n : Z) (alpha : R)
    (A : buffer) (lda : Z) (x : buffer) (beta : R) (y : buffer) (yoff : nat)
    : buffer :=
  let m' := Z.to_nat m in
  let n' := Z.to_nat n in
  let lda' := Z.to_nat lda in
  match trans with
  | CUBLAS_OP_N =>
      write_seq y yoff
        (tabulate
           (fun i => alpha * big_sum (fun j => mat A lda' i j * rd x j) n'
                     + beta * rd y (yoff + i)) m')
  | CUBLAS_OP_T =>
      write_seq y yoff
        (tabulate
           (fun j => alpha * big_sum (fun i => mat A lda' i j * rd x i) m'
                     + beta * rd y (yoff + j)) n')
  end.

(** Forward substitution for [A^T x = alpha b], [A] upper triangular with
    a non-unit diagonal, on the column of [B] that starts at [boff]: rows
    [i], [i+1], ..., [cnt] of them. *)
Fixpoint trsm_upper_T_col (A : buffer) (lda : nat) (alpha : R) (B : buffer)
    (boff i cnt : nat) : buffer :=
  match cnt with
  | O => B
  | S c =>
      let temp := alpha * rd B (boff + i)
                  - big_sum (fun k => mat A lda k i * rd B (boff + k)) i in
      trsm_upper_T_col A lda alpha (wr B (boff + i) (temp / mat A lda i i))
        boff (S i) c
  end.

(** Back substitution for [A x = alpha b] on a system of [m] rows: rows
    [cnt-1], ..., [0]. *)
Fixpoint trsm_upper_N_col (A : buffer) (lda : nat) (alpha : R) (B : buffer)
    (boff m cnt : nat) : buffer :=
  match cnt with
  | O => B
  | S i =>
      let temp := alpha * rd B (boff + i)
                  - big_sum (fun d => mat A lda i (S i + d)
                                      * rd B (boff + S i + d)) (m - S i) in
      trsm_upper_N_col A lda alpha (wr B (boff + i) (temp / mat A lda i i))
        boff m i
  end.

Definition trsm_upper_col (trans : cublasOperation_t) (A : buffer) (lda : nat)
    (alpha : R) (B : buffer) (boff m : nat) : buffer :=
  match trans with
  | CUBLAS_OP_T => trsm_upper_T_col A lda alpha B boff 0 m
  | CUBLAS_OP_N => trsm_upper_N_col A lda alpha B boff m m
  end.

(** Columns [j], [j+1], ..., [cnt] of them. *)
Fixpoint trsm_upper_cols (trans : cublasOperation_t) (A : buffer) (lda : nat)
    (alpha : R) (B : buffer) (ldb m j cnt : nat) : buffer :=
  match cnt with
  | O => B
  | S c =>
      trsm_upper_cols trans A lda alpha
        (trsm_upper_col trans A lda alpha B (j * ldb) m) ldb m (S j) c
  end.

(** [cublasStrsm(handle, CUBLAS_SIDE_LEFT, CUBLAS_FILL_MODE_UPPER, trans,
    CUBLAS_DIAG_NON_UNIT, m, n, alpha, A, lda, B, ldb)]: [B] becomes the
    solution [X] of [op(A) X = alpha B]. *)
Definition cublasStrsm (trans : cublasOperation_t) (m n : Z) (alpha : R)
    (A : buffer) (lda : Z) (B : buffer) (ldb : Z) : buffer :=
  trsm_upper_cols trans A (Z.to_nat lda) alpha B (Z.to_nat ldb) (Z.to_nat m)
    0 (Z.to_nat n).

(** [cublasStrsv(handle, CUBLAS_FILL_MODE_UPPER, trans, CUBLAS_DIAG_NON_UNIT,
    n, A, lda, x, 1)]: [x] becomes the solution of [op(A) x = x]. *)
Definition cublasStrsv (trans : cublasOperation_t) (n : Z) (A : buffer)
    (lda : Z) (x : buffer) : buffer :=
  trsm_upper_col trans A (Z.to_nat lda) 1 x 0 (Z.to_nat n).

(** ** Buffer structures

    The structures are declared in headers outside this file; the fields
    are the ones the selector reads or writes. *)

Record GaussianProcessHyperparams := mkHypers {
  hyp_sigma : R;
  hyp_beta : R
}.

Record ActiveSetBuffers := mkActiveSetBuffers {
  active_inputs : buffer;
  active_targets : buffer;
  active_kernel_matrix : buffer;
  num_active : Z;
  max_active : Z;
  dim_input : Z;
  dim_target : Z
}.

Record MaxSubsetBuffers := mkMaxSubsetBuffers {
  inputs : buffer;
  targets : buffer;
  active : flags;
  scores : buffer;
  d_next_index : Z;
  num_pts : Z
}.

Record ClassificationBuffers := mkClassificationBuffers {
  upper : flags;
  lower : flags
}.

Inductive SubsetSelectionMode := LEVEL_SET.

(** The device kernels of the repository that are defined outside this
    file, the CULA routines and [rand].  A kernel returns the new contents
    of the buffers it is handed for writing. *)
Class DeviceKernels := {
  construct_active_set_buffers : Z -> Z -> Z -> ActiveSetBuffers;
  construct_max_subset_buffers :
    buffer -> buffer -> Z -> Z -> Z -> MaxSubsetBuffers;
  construct_classification_buffers : Z -> ClassificationBuffers;
  activate_max_subset_buffers : MaxSubsetBuffers -> Z -> MaxSubsetBuffers;
  update_active_set_buffers :
    ActiveSetBuffers -> MaxSubsetBuffers -> GaussianProcessHyperparams ->
    ActiveSetBuffers * MaxSubsetBuffers;
  (** arguments: subset and classification buffers, [d_mu], [d_sigma],
      [level], [beta], [accuracy], [hypers] *)
  find_best_active_set_candidate :
    MaxSubsetBuffers -> ClassificationBuffers -> buffer -> buffer ->
    R -> R -> R -> GaussianProcessHyperparams ->
    MaxSubsetBuffers * ClassificationBuffers;
  (** arguments: active set, subset, [index], the output buffer, [hypers] *)
  compute_kernel_vector :
    ActiveSetBuffers -> MaxSubsetBuffers -> Z -> buffer ->
    GaussianProcessHyperparams -> buffer;
  (** arguments: active set, subset, [index], [batchSize], the output
      buffer, [hypers] *)
  compute_kernel_vector_batch :
    ActiveSetBuffers -> MaxSubsetBuffers -> Z -> Z -> buffer ->
    GaussianProcessHyperparams -> buffer;
  (** arguments: [d_gamma], the output buffer [d_x], [size], [sigma],
      [beta], [dim] *)
  compute_sqrt_var : buffer -> buffer -> Z -> R -> R -> Z -> buffer;
  (** [culaDeviceSpotrf('U', n, A, lda)] returns the new [A] *)
  culaDeviceSpotrf : Z -> buffer -> Z -> buffer;
  (** [culaDeviceSpotrs('U', n, nrhs, A, lda, B, ldb)] returns the new [B] *)
  culaDeviceSpotrs : Z -> Z -> buffer -> Z -> buffer -> Z -> buffer;
  (** the value of the call [rand()] *)
  rand : Z
}.

(** Modelled from the spec: the kernel [norm_columns], defined outside this
    file.  [norm_columns(A, x + xoff, m, n, lda)] stores in [x[xoff + j]] the
    squared norm of column [j] of the [m] by [n] matrix [A]
    ("the reported sigma[i] is the squared norm of column i of gamma"). *)
Definition norm_columns (A : buffer) (x : buffer) (xoff : nat) (m n lda : Z)
    : buffer :=
  write_seq x xoff
    (tabulate (fun j => big_sum (fun i => mat A (Z.to_nat lda) i j
                                          * mat A (Z.to_nat lda) i j)
                          (Z.to_nat m))
       (Z.to_nat n)).

(** ** Device state of the Cholesky path *)

Record CholDevice := mkCholDevice {
  activeSetBuffers : ActiveSetBuffers;
  maxSubBuffers : MaxSubsetBuffers;
  classificationBuffers : ClassificationBuffers;
  d_kernelVector : buffer;
  d_L : buffer;
  d_alpha : buffer;
  d_gamma : buffer;
  d_scalar1 : R;
  d_scalar2 : R;
  d_mu : buffer;
  d_sigma : buffer
}.

Definition set_activeSetBuffers (v : ActiveSetBuffers) (st : CholDevice) :=
  mkCholDevice v (maxSubBuffers st) (classificationBuffers st)
    (d_kernelVector st) (d_L st) (d_alpha st) (d_gamma st) (d_scalar1 st)
    (d_scalar2 st) (d_mu st) (d_sigma st).
Definition set_maxSubBuffers (v : MaxSubsetBuffers) (st : CholDevice) :=
  mkCholDevice (activeSetBuffers st) v (classificationBuffers st)
    (d_kernelVector st) (d_L st) (d_alpha st) (d_gamma st) (d_scalar1 st)
    (d_scalar2 st) (d_mu st) (d_sigma st).
Definition set_classificationBuffers (v : ClassificationBuffers)
    (st : CholDevice) :=
  mkCholDevice (activeSetBuffers st) (maxSubBuffers st) v
    (d_kernelVector st) (d_L st) (d_alpha st) (d_gamma st) (d_scalar1 st)
    (d_scalar2 st) (d_mu st) (d_sigma st).
Definition set_d_kernelVector (v : buffer) (st : CholDevice) :=
  mkCholDevice (activeSetBuffers st) (maxSubBuffers st)
    (classificationBuffers st) v (d_L st) (d_alpha st) (d_gamma st)
    (d_scalar1 st) (d_scalar2 st) (d_mu st) (d_sigma st).
Definition set_d_L (v : buffer) (st : CholDevice) :=
  mkCholDevice (activeSetBuffers st) (maxSubBuffers st)
    (classificationBuffers st) (d_kernelVector st) v (d_alpha st) (d_gamma st)
    (d_scalar1 st) (d_scalar2 st) (d_mu st) (d_sigma st).
Definition set_d_alpha (v : buffer) (st : CholDevice) :=
  mkCholDevice (activeSetBuffers st) (maxSubBuffers st)
    (classificationBuffers st) (d_kernelVector st) (d_L st) v (d_gamma st)
    (d_scalar1 st) (d_scalar2 st) (d_mu st) (d_sigma st).
Definition set_d_gamma (v : buffer) (st : CholDevice) :=
  mkCholDevice (activeSetBuffers st) (maxSubBuffers st)
    (classificationBuffers st) (d_kernelVector st) (d_L st) (d_alpha st) v
    (d_scalar1 st) (d_scalar2 st) (d_mu st) (d_sigma st).
Definition set_d_mu (v : buffer) (st : CholDevice) :=
  mkCholDevice (activeSetBuffers st) (maxSubBuffers st)
    (classificationBuffers st) (d_kernelVector st) (d_L st) (d_alpha st)
    (d_gamma st) (d_scalar1 st) (d_scalar2 st) v (d_sigma st).
Definition set_d_sigma (v : buffer) (st : CholDevice) :=
  mkCholDevice (activeSetBuffers st) (maxSubBuffers st)
    (classificationBuffers st) (d_kernelVector st) (d_L st) (d_alpha st)
    (d_gamma st) (d_scalar1 st) (d_scalar2 st) (d_mu st) v.

Section Prediction.
Context {dk : DeviceKernels}.

(** [GpPredictChol]: prediction at the single pool point [index]. *)
Definition GpPredictChol (index : Z) (hypers : GaussianProcessHyperparams)
    (st : CholDevice) : CholDevice :=
  let numActive := num_active (activeSetBuffers st) in
  let maxActive := max_active (activeSetBuffers st) in
  (* compute the kernel vector *)
  let st := set_d_kernelVector
              (compute_kernel_vector (activeSetBuffers st) (maxSubBuffers st)
                 index (d_kernelVector st) hypers) st in
  (* solve triangular system *)
  let st := set_d_gamma
              (cudaMemcpy (d_gamma st) 0 (d_kernelVector st) 0 maxActive) st in
  let st := set_d_gamma
              (cublasStrsv CUBLAS_OP_N numActive (d_L st) maxActive
                 (d_gamma st)) st in
  (* dot product to get the resulting mean and variance reduction *)
  let st := set_d_mu
              (wr (d_mu st) (Z.to_nat index)
                 (cublasSdot numActive (d_alpha st) (d_kernelVector st))) st in
  set_d_sigma
    (wr (d_sigma st) (Z.to_nat index)
       (cublasSdot numActive (d_gamma st) (d_gamma st))) st.

(** [GpPredictCholBatch]: prediction at the pool points
    [index, ..., index + batchSize - 1]. *)
Definition GpPredictCholBatch (index batchSize : Z)
    (hypers : GaussianProcessHyperparams) (st : CholDevice) : CholDevice :=
  let numActive := num_active (activeSetBuffers st) in
  let maxActive := max_active (activeSetBuffers st) in
  (* compute the kernel vector *)
  let st := set_d_kernelVector
              (compute_kernel_vector_batch (activeSetBuffers st)
                 (maxSubBuffers st) index batchSize (d_kernelVector st) hypers)
              st in
  (* solve triangular system *)
  let st := set_d_gamma
              (cudaMemcpy (d_gamma st) 0 (d_kernelVector st) 0
                 (int_wrap (maxActive * batchSize))) st in
  let st := set_d_gamma
              (cublasStrsm CUBLAS_OP_T numActive batchSize (d_scalar1 st)
                 (d_L st) maxActive (d_gamma st) maxActive) st in
  (* dot product to get the resulting mean and variance reduction *)
  let st := set_d_mu
              (cublasSgemv CUBLAS_OP_T numActive batchSize (d_scalar1 st)
                 (d_kernelVector st) maxActive (d_alpha st) (d_scalar2 st)
                 (d_mu st) (Z.to_nat index)) st in
  (* get the variance *)
  set_d_sigma
    (norm_columns (d_gamma st) (d_sigma st) (Z.to_nat index) numActive
       batchSize maxActive) st.

(** [SolveLinearSystemChol]: full factorisation of the active kernel matrix
    and solve for [alpha]. *)
Definition SolveLinearSystemChol (st : CholDevice) : CholDevice :=
  let numActive := num_active (activeSetBuffers st) in
  let maxActive := max_active (activeSetBuffers st) in
  let target := active_targets (activeSetBuffers st) in
  let st := set_d_L
              (cudaMemcpy (d_L st) 0
                 (active_kernel_matrix (activeSetBuffers st)) 0
                 (int_wrap (maxActive * maxActive))) st in
  let st := set_d_alpha (cudaMemcpy (d_alpha st) 0 target 0 maxActive) st in
  let st := set_d_L (culaDeviceSpotrf numActive (d_L st) maxActive) st in
  set_d_alpha
    (culaDeviceSpotrs numActive 1 (d_L st) maxActive (d_alpha st) maxActive)
    st.

(** [UpdateChol]: extension of the factor by the column of the newest
    active point, then the two triangular solves for [alpha].  The scratch
    vector [d_x] of the source is [d_kernelVector]. *)
Definition UpdateChol (hypers : GaussianProcessHyperparams) (st : CholDevice)
    : CholDevice :=
  let numActive := num_active (activeSetBuffers st) in
  let maxActive := max_active (activeSetBuffers st) in
  let target := active_targets (activeSetBuffers st) in
  let st := set_d_alpha (cudaMemcpy (d_alpha st) 0 target 0 maxActive) st in
  (* copy the kernel vector for the new data point to vector variable *)
  let offset := int_wrap ((numActive - 1) * maxActive) in
  let st := set_d_gamma
              (cudaMemcpy (d_gamma st) 0
                 (active_kernel_matrix (activeSetBuffers st))
                 (Z.to_nat offset) (numActive - 1)) st in
  (* solve for vector with prev Cholesky decomp *)
  let st := set_d_gamma
              (cublasStrsm CUBLAS_OP_T (numActive - 1) 1 (d_scalar1 st)
                 (d_L st) maxActive (d_gamma st) maxActive) st in
  (* place the vector in corresponding column of Cholesky decomp *)
  let st := set_d_L
              (cudaMemcpy (d_L st) (Z.to_nat offset) (d_gamma st) 0
                 (numActive - 1)) st in
  (* square the vector norm *)
  let st := set_d_kernelVector
              (compute_sqrt_var (d_gamma st) (d_kernelVector st)
                 (numActive - 1) (hyp_sigma hypers) (hyp_beta hypers)
                 (dim_input (activeSetBuffers st))) st in
  (* put result in last element of current Chol *)
  let offset := int_wrap (offset + (numActive - 1)) in
  let st := set_d_L
              (cudaMemcpy (d_L st) (Z.to_nat offset) (d_kernelVector st) 0 1)
              st in
  (* nested Cholesky solve to recover the alpha vector *)
  let st := set_d_alpha
              (cublasStrsm CUBLAS_OP_T numActive 1 (d_scalar1 st) (d_L st)
                 maxActive (d_alpha st) maxActive) st in
  set_d_alpha
    (cublasStrsm CUBLAS_OP_N numActive 1 (d_scalar1 st) (d_L st) maxActive
       (d_alpha st) maxActive) st.

End Prediction.

(** ** Prediction-error statistics *)

Record PredictionError := mkPredictionError {
  err_mean : R;
  err_std : R;
  err_median : R;
  err_max : R;
  err_min : R
}.

(** The Boost accumulators: an [accumulator_set] is the sequence of the
    samples pushed into it, and each extractor is a function of that
    sequence. *)
Class Accumulators := {
  acc_mean : list R -> R;
  acc_moment2 : list R -> R;
  acc_median : list R -> R;
  acc_max : list R -> R;
  acc_min : list R -> R
}.

Record ErrorAccumulation := mkErrorAccumulation {
  meanAccumulator : list R;
  medianAccumulator : list R;
  maxMinAccumulator : list R;
  numTest : Z
}.

(** The loop of [EvaluateErrors]: [n] iterations starting at point [i]. *)
Fixpoint EvaluateErrors_loop (active : flags) (predictions targets : buffer)
    (i n : nat) (a : ErrorAccumulation) : ErrorAccumulation :=
  match n with
  | O => a
  | S n' =>
      EvaluateErrors_loop active predictions targets (S i) n'
        (if (nth i active 0 =? 0)%Z then
           let absError := Rabs (rd predictions i - rd targets i) in
           mkErrorAccumulation (meanAccumulator a ++ [absError])
             (medianAccumulator a ++ [absError])
             (maxMinAccumulator a ++ [absError]) (numTest a + 1)
         else a)
  end.

(** [EvaluateErrors(d_mu, d_targets, d_active, numPts, errorStruct)]; the
    result is the filled [errorStruct]. *)
Definition EvaluateErrors {acc : Accumulators} (d_mu d_targets : buffer)
    (d_active : flags) (numPts : Z) : PredictionError :=
  let a := EvaluateErrors_loop d_active d_mu d_targets 0 (Z.to_nat numPts)
             (mkErrorAccumulation [] [] [] 0) in
  if (numTest a >? 0)%Z then
    mkPredictionError (acc_mean (meanAccumulator a))
      (acc_moment2 (meanAccumulator a)) (acc_median (medianAccumulator a))
      (acc_max (maxMinAccumulator a)) (acc_min (maxMinAccumulator a))
  else mkPredictionError 0 0 0 0 0.

(** The statistics of a sequence of samples, all 0 for the empty one. *)
Definition summary {acc : Accumulators} (E : list R) : PredictionError :=
  match E with
  | [] => mkPredictionError 0 0 0 0 0
  | _ => mkPredictionError (acc_mean E) (acc_moment2 E) (acc_median E)
           (acc_max E) (acc_min E)
  end.

(** The absolute errors of the points of [0 .. n-1] selected by [keep], in
    index order, counting from point [i]. *)
Fixpoint errors_where (keep : nat -> bool) (predictions targets : buffer)
    (i n : nat) : list R :=
  match n with
  | O => []
  | S n' =>
      if keep i
      then Rabs (rd predictions i - rd targets i)
           :: errors_where keep predictions targets (S i) n'
      else errors_where keep predictions targets (S i) n'
  end.

Definition inactive (active : flags) (i : nat) : bool :=
  (nth i active 0 =? 0)%Z.

(** ** Conjugate-gradient solver *)

(** The buffers and the local variables of [SolveLinearSystemCG]. *)
Record CGSolve := mkCGSolve {
  sv_k : Z;
  sv_s : R;
  sv_t : R;
  sv_delta_0 : R;
  sv_delta_1 : R;
  sv_p : buffer;
  sv_q : buffer;
  sv_r : buffer;
  sv_alpha : buffer;
  sv_scalar1 : R;
  sv_scalar2 : R
}.

(** The statements before the loop. *)
Definition CG_init (asb : ActiveSetBuffers)
    (target d_p d_q d_r d_alpha : buffer) (d_scalar2 : R) : CGSolve :=
  let maxActive := max_active asb in
  (* set initial values *)
  let d_alpha := cudaMemset0 d_alpha maxActive in
  let d_r := cudaMemcpy d_r 0 target 0 maxActive in
  let d_p := cudaMemcpy d_p 0 d_r 0 maxActive in
  (* get initial residual *)
  let d_scalar1 := cublasSdot maxActive d_r d_r in
  let delta_0 := d_scalar1 in
  mkCGSolve 0 0 0 delta_0 delta_0 d_p d_q d_r d_alpha d_scalar1 d_scalar2.

(** The loop condition [delta_1 > tolerance && k < maxActive]. *)
Definition CG_cond (asb : ActiveSetBuffers) (tolerance : R) (c : CGSolve)
    : bool :=
  Rgtb (sv_delta_1 c) tolerance && (sv_k c <? max_active asb)%Z.

(** One iteration of the loop.  The three quotients are the real ones when
    their divisors [p^T q], the new [delta_1] and [delta_0 / delta_1] are
    not 0; the source divides by zero otherwise, which [CG_divisors_nonzero]
    below excludes. *)
Definition CG_body (asb : ActiveSetBuffers) (c : CGSolve) : CGSolve :=
  let numActive := num_active asb in
  let maxActive := max_active asb in
  let scale_1 := 1 in
  let scale_2 := 0 in
  (* q = Ap *)
  let d_scalar1 := scale_1 in
  let d_scalar2 := scale_2 in
  let d_q := cublasSgemv CUBLAS_OP_N maxActive numActive d_scalar1
               (active_kernel_matrix asb) maxActive (sv_p c) d_scalar2
               (sv_q c) 0 in
  (* s = p^T q *)
  let d_scalar1 := cublasSdot numActive (sv_p c) d_q in
  let s := d_scalar1 in
  let t := sv_delta_1 c / s in
  (* alpha = alpha + t * p *)
  let d_scalar1 := t in
  let d_alpha := cublasSaxpy numActive d_scalar1 (sv_p c) (sv_alpha c) in
  (* r = r - t * q *)
  let t := -1 * t in
  let d_scalar1 := t in
  let d_r := cublasSaxpy numActive d_scalar1 d_q (sv_r c) in
  (* delta_1 = r^T r *)
  let delta_0 := sv_delta_1 c in
  let d_scalar1 := cublasSdot numActive d_r d_r in
  let delta_1 := d_scalar1 in
  (* p = r + beta * p *)
  let s := delta_0 / delta_1 in
  let d_scalar1 := s in
  let d_p := cublasSaxpy numActive d_scalar1 d_r (sv_p c) in
  let s := 1 / s in
  let d_scalar1 := s in
  let d_p := cublasSscal numActive d_scalar1 d_p in
  (* k++; the loop condition keeps k below maxActive *)
  mkCGSolve (sv_k c + 1) s t delta_0 delta_1 d_p d_q d_r d_alpha d_scalar1
    d_scalar2.

Fixpoint CG_loop (fuel : nat) (asb : ActiveSetBuffers) (tolerance : R)
    (c : CGSolve) : CGSolve :=
  if CG_cond asb tolerance c then
    match fuel with
    | O => c
    | S fuel' => CG_loop fuel' asb tolerance (CG_body asb c)
    end
  else c.

(** [SolveLinearSystemCG(activeSetBuffers, target, d_p, d_q, d_r, d_alpha,
    d_scalar1, d_scalar2, tolerance, handle)].  The loop runs at most
    [maxActive] times, which is the fuel. *)
Definition SolveLinearSystemCG (asb : ActiveSetBuffers)
    (target d_p d_q d_r d_alpha : buffer) (d_scalar2 : R) (tolerance : R)
    : CGSolve :=
  CG_loop (Z.to_nat (max_active asb)) asb tolerance
    (CG_init asb target d_p d_q d_r d_alpha d_scalar2).

(** The divisor [s = p^T q] of the step length, as an iteration entered in
    the state [c] computes it. *)
Definition CG_step_divisor (asb : ActiveSetBuffers) (c : CGSolve) : R :=
  cublasSdot (num_active asb) (sv_p c)
    (cublasSgemv CUBLAS_OP_N (max_active asb) (num_active asb) 1
       (active_kernel_matrix asb) (max_active asb) (sv_p c) 0 (sv_q c) 0).

(** No iteration that the loop executes from [c0] divides by zero: whenever
    the loop condition holds up to the state reached after [j] iterations,
    the iteration entered there has [p^T q <> 0], and the squared residual
    norm at its entry, by which the previous iteration divided, is not 0. *)
Definition CG_divisors_nonzero (asb : ActiveSetBuffers) (tolerance : R)
    (c0 : CGSolve) : Prop :=
  forall j : nat,
    (forall i, (i <= j)%nat ->
       CG_cond asb tolerance (Nat.iter i (CG_body asb) c0) = true) ->
    CG_step_divisor asb (Nat.iter j (CG_body asb) c0) <> 0
    /\ sv_delta_1 (Nat.iter j (CG_body asb) c0) <> 0.

(** ** Device state of the conjugate-gradient path *)

Record CGDevice := mkCGDevice {
  cg_activeSetBuffers : ActiveSetBuffers;
  cg_maxSubBuffers : MaxSubsetBuffers;
  cg_classificationBuffers : ClassificationBuffers;
  cg_kernelVector : buffer;
  cg_p : buffer;
  cg_q : buffer;
  cg_r : buffer;
  cg_alpha : buffer;
  cg_gamma : buffer;
  cg_scalar1 : R;
  cg_scalar2 : R;
  cg_mu : buffer;
  cg_sigma : buffer
}.

(** [SolveLinearSystemCG] called with the active targets as right-hand side
    and [d_alpha] as solution vector. *)
Definition solve_alpha_CG (tolerance : R) (st : CGDevice) : CGDevice :=
  let c := SolveLinearSystemCG (cg_activeSetBuffers st)
             (active_targets (cg_activeSetBuffers st)) (cg_p st) (cg_q st)
             (cg_r st) (cg_alpha st) (cg_scalar2 st) tolerance in
  mkCGDevice (cg_activeSetBuffers st) (cg_maxSubBuffers st)
    (cg_classificationBuffers st) (cg_kernelVector st) (sv_p c) (sv_q c)
    (sv_r c) (sv_alpha c) (cg_gamma st) (sv_scalar1 c) (sv_scalar2 c)
    (cg_mu st) (cg_sigma st).

Section CGPrediction.
Context {dk : DeviceKernels}.

(** [GpPredictCG]: prediction at the pool point [index]. *)
Definition GpPredictCG (index : Z) (hypers : GaussianProcessHyperparams)
    (tolerance : R) (st : CGDevice) : CGDevice :=
  let asb := cg_activeSetBuffers st in
  let numActive := num_active asb in
  let kernelVector :=
    compute_kernel_vector asb (cg_maxSubBuffers st) index (cg_kernelVector st)
      hypers in
  let c := SolveLinearSystemCG asb kernelVector (cg_p st) (cg_q st) (cg_r st)
             (cg_gamma st) (cg_scalar2 st) tolerance in
  (* store the predictive mean in mu *)
  let d_mu := wr (cg_mu st) (Z.to_nat index)
                (cublasSdot numActive (cg_alpha st) kernelVector) in
  (* store the variance REDUCTION in sigma, not the actual variance *)
  let d_sigma := wr (cg_sigma st) (Z.to_nat index)
                   (cublasSdot numActive (sv_alpha c) kernelVector) in
  mkCGDevice asb (cg_maxSubBuffers st) (cg_classificationBuffers st)
    kernelVector (sv_p c) (sv_q c) (sv_r c) (cg_alpha st) (sv_alpha c)
    (sv_scalar1 c) (sv_scalar2 c) d_mu d_sigma.

End CGPrediction.

(** ** The confidence multiplier *)

(** [2 * log(numPoints * pow(M_PI,2) / (6 * tolerance))], the value set
    before a selection loop. *)
Definition beta_initial (numPoints : Z) (tolerance : R) : R :=
  2 * ln (IZR numPoints * PI ^ 2 / (6 * tolerance)).

(** [2 * log(numPoints * pow(M_PI,2) * pow((k+1),2) / (6 * tolerance))], the
    value set in iteration [k]; [k + 1] is an [unsigned int]. *)
Definition beta_update (numPoints : Z) (tolerance : R) (k : Z) : R :=
  2 * ln (IZR numPoints * PI ^ 2 * IZR (uint_wrap (k + 1)) ^ 2
          / (6 * tolerance)).

(** The closed form [2 ln (N pi^2 (k+1)^2 / (6 tolerance))]. *)
Definition beta_schedule (N : Z) (tolerance : R) (k : Z) : R :=
  2 * ln (IZR N * PI ^ 2 * (IZR k + 1) ^ 2 / (6 * tolerance)).

(** ** Selection with the Cholesky factor *)

(** The variables of [SelectChol] that its loop changes.  The last two
    fields are bookkeeping of the model: the number of calls of
    [update_active_set_buffers] so far, and the pair [(k, beta)] of every
    assignment to [beta] in the loop (the value that iteration [k] hands to
    [find_best_active_set_candidate]). *)
Record CholRun := mkCholRun {
  sel_dev : CholDevice;
  sel_k : Z;
  sel_beta : R;
  sel_score : R;
  sel_nextIndex : Z;
  sel_indices : list Z;
  sel_scores : list Z;
  sel_updates : nat;
  sel_betas : list (Z * R)
}.

Record CholResult := mkCholResult {
  res_maxSize : Z;
  res_run : CholRun;
  res_final : CholDevice;
  res_errors : PredictionError
}.

Section CholSelection.
Context {dk : DeviceKernels} {acc : Accumulators}.

(** [for (int i = 0; i < numPoints; i += batchSize) GpPredictCholBatch(...,
    i, std::min(batchSize, numPoints - i), ...)], from the value [i] on.
    [None] when the fuel runs out. *)
Fixpoint predict_pool (fuel : nat) (i numPoints batchSize : Z)
    (hypers : GaussianProcessHyperparams) (st : CholDevice)
    : option CholDevice :=
  if (i <? numPoints)%Z then
    match fuel with
    | O => None
    | S fuel' =>
        predict_pool fuel' (int_wrap (i + batchSize)) numPoints batchSize
          hypers
          (GpPredictCholBatch i (Z.min batchSize (numPoints - i)) hypers st)
    end
  else Some st.

(** The admission of the point chosen by the classification. *)
Definition extend_active_set (hypers : GaussianProcessHyperparams)
    (incremental : bool) (st : CholDevice) : CholDevice :=
  (* update matrices *)
  let '(asb, sub) := update_active_set_buffers (activeSetBuffers st)
                       (maxSubBuffers st) hypers in
  let st := set_maxSubBuffers sub (set_activeSetBuffers asb st) in
  (* compute next alpha vector *)
  if incremental then UpdateChol hypers st else SolveLinearSystemChol st.

(** The loop condition [k < maxSize && nextIndex != -1], with [maxSize]
    converted to [unsigned int]. *)
Definition SelectChol_cond (maxSize : Z) (r : CholRun) : bool :=
  (sel_k r <? uint_wrap maxSize)%Z && negb (sel_nextIndex r =? -1)%Z.

(** One iteration of the loop, followed by [k++]. *)
Definition SelectChol_body (hypers : GaussianProcessHyperparams)
    (numPoints : Z) (tolerance accuracy level : R) (batchSize : Z)
    (incremental : bool) (r : CholRun) : option CholRun :=
  let k := sel_k r in
  (* update beta according to formula in level set probing paper *)
  let beta := beta_update numPoints tolerance k in
  (* predict all active points *)
  match predict_pool (Z.to_nat numPoints) 0 numPoints batchSize hypers
          (sel_dev r) with
  | None => None
  | Some st =>
      (* compute ambiguity and max ambiguity reduction *)
      let '(sub, cls) :=
        find_best_active_set_candidate (maxSubBuffers st)
          (classificationBuffers st) (d_mu st) (d_sigma st) level beta
          accuracy hypers in
      let st := set_classificationBuffers cls (set_maxSubBuffers sub st) in
      let nextIndex := d_next_index (maxSubBuffers st) in
      let score := rd (scores (maxSubBuffers st)) 0 in
      let indices := sel_indices r ++ [nextIndex] in
      let scores := sel_scores r ++ [float_to_int score] in
      let betas := sel_betas r ++ [(k, beta)] in
      (* only update the active set if points were left *)
      if (nextIndex >=? 0)%Z then
        Some (mkCholRun (extend_active_set hypers incremental st)
                (uint_wrap (k + 1)) beta score nextIndex indices scores
                (S (sel_updates r)) betas)
      else
        Some (mkCholRun st (uint_wrap (k + 1)) beta score nextIndex indices
                scores (sel_updates r) betas)
  end.

Fixpoint SelectChol_loop (fuel : nat) (hypers : GaussianProcessHyperparams)
    (maxSize numPoints : Z) (tolerance accuracy level : R) (batchSize : Z)
    (incremental : bool) (r : CholRun) : option CholRun :=
  if SelectChol_cond maxSize r then
    match fuel with
    | O => None
    | S fuel' =>
        match SelectChol_body hypers numPoints tolerance accuracy level
                batchSize incremental r with
        | None => None
        | Some r' =>
            SelectChol_loop fuel' hypers maxSize numPoints tolerance accuracy
              level batchSize incremental r'
        end
    end
  else Some r.

(** The state in which the loop of [SelectChol] is entered: the clamped
    [maxSize] and the variables after the first point is activated.
    [junk a i] is the content of cell [i] of the allocation number [a]. *)
Definition SelectChol_seed (junk : nat -> nat -> R) (maxSize : Z)
    (inputPoints targetPoints : buffer) (hypers : GaussianProcessHyperparams)
    (inputDim targetDim numPoints : Z) (tolerance : R) (batchSize : Z)
    (startIndex : Z) : Z * CholRun :=
  (* force valid num points *)
  let maxSize := if (maxSize >? numPoints)%Z then numPoints else maxSize in
  let d_kernelVector :=
    cudaMalloc (junk 0%nat) (int_wrap (maxSize * batchSize)) in
  let d_L := cudaMalloc (junk 1%nat) (int_wrap (maxSize * maxSize)) in
  let d_alpha := cudaMalloc (junk 2%nat) maxSize in
  let d_gamma := cudaMalloc (junk 3%nat) (int_wrap (maxSize * batchSize)) in
  let d_mu := cudaMalloc (junk 4%nat) numPoints in
  let d_sigma := cudaMalloc (junk 5%nat) numPoints in
  let d_L := cudaMemset0 d_L (int_wrap (maxSize * maxSize)) in
  let scale := 1 in
  let zero := 0 in
  (* compute initial chol *)
  let d_kernelVector :=
    compute_sqrt_var d_gamma d_kernelVector 0 (hyp_sigma hypers)
      (hyp_beta hypers) inputDim in
  let d_L := cudaMemcpy d_L 0 d_kernelVector 0 1 in
  (* allocate auxiliary buffers *)
  let asb := construct_active_set_buffers inputDim targetDim maxSize in
  let sub := construct_max_subset_buffers inputPoints targetPoints inputDim
               targetDim numPoints in
  let cls := construct_classification_buffers numPoints in
  (* init random starting point and update the buffers *)
  let firstIndex :=
    if (startIndex =? -1)%Z then Z.rem rand numPoints else startIndex in
  let sub := activate_max_subset_buffers sub firstIndex in
  let '(asb, sub) := update_active_set_buffers asb sub hypers in
  (* beta is the scaling of the variance when classifying points *)
  let beta := beta_initial numPoints tolerance in
  (maxSize,
   mkCholRun
     (mkCholDevice asb sub cls d_kernelVector d_L d_alpha d_gamma scale zero
        d_mu d_sigma)
     1 beta 0 0 [firstIndex] [0%Z] 1 []).

(** [SelectChol]; [None] when a loop of the model runs out of fuel. *)
Definition SelectChol (junk : nat -> nat -> R) (maxSize : Z)
    (inputPoints targetPoints : buffer) (mode : SubsetSelectionMode)
    (hypers : GaussianProcessHyperparams) (inputDim targetDim numPoints : Z)
    (tolerance accuracy : R) (batchSize : Z) (startIndex : Z)
    (incremental : bool) : option CholResult :=
  let '(maxSize, r0) :=
    SelectChol_seed junk maxSize inputPoints targetPoints hypers inputDim
      targetDim numPoints tolerance batchSize startIndex in
  let level := 0 in
  match SelectChol_loop (Z.to_nat (uint_wrap maxSize)) hypers maxSize
          numPoints tolerance accuracy level batchSize incremental r0 with
  | None => None
  | Some r =>
      (* predict all points and compute the error *)
      match predict_pool (Z.to_nat numPoints) 0 numPoints batchSize hypers
              (sel_dev r) with
      | None => None
      | Some st =>
          Some (mkCholResult maxSize r st
                  (EvaluateErrors (d_mu st) (targets (maxSubBuffers st))
                     (active (maxSubBuffers st)) numPoints))
      end
  end.

End CholSelection.

(** ** Selection with the conjugate-gradient solver *)

(** The variables of [SelectCG] that its loop changes, with the same two
    bookkeeping fields as [CholRun]; here iteration [k] assigns [beta]
    after its call of [find_best_active_set_candidate]. *)
Record CGRun := mkCGRun {
  cgr_dev : CGDevice;
  cgr_k : Z;
  cgr_beta : R;
  cgr_numLeft : Z;
  cgr_updates : nat;
  cgr_betas : list (Z * R)
}.

Record CGResult := mkCGResult {
  cres_maxSize : Z;
  cres_run : CGRun;
  cres_final : CGDevice;
  cres_errors : PredictionError
}.

Section CGSelection.
Context {dk : DeviceKernels} {acc : Accumulators}.

(** [for (unsigned int i = 0; i < numPoints; i++) if (!h_active[i] &&
    !h_upper[i] && !h_lower[i]) { numLeft++; GpPredictCG(..., i, ...); }]:
    [n] iterations starting at point [i]. *)
Fixpoint predict_unclassified (h_active h_upper h_lower : flags)
    (hypers : GaussianProcessHyperparams) (tolerance : R) (i n : nat)
    (numLeft : Z) (st : CGDevice) : Z * CGDevice :=
  match n with
  | O => (numLeft, st)
  | S n' =>
      if ((nth i h_active 0 =? 0) && (nth i h_upper 0 =? 0)
          && (nth i h_lower 0 =? 0))%Z
      then predict_unclassified h_active h_upper h_lower hypers tolerance
             (S i) n' (numLeft + 1)
             (GpPredictCG (Z.of_nat i) hypers tolerance st)
      else predict_unclassified h_active h_upper h_lower hypers tolerance
             (S i) n' numLeft st
  end.

(** [for (unsigned int i = 0; i < numPoints; i++) GpPredictCG(..., i, ...)]. *)
Fixpoint predict_every (hypers : GaussianProcessHyperparams) (tolerance : R)
    (i n : nat) (st : CGDevice) : CGDevice :=
  match n with
  | O => st
  | S n' =>
      predict_every hypers tolerance (S i) n'
        (GpPredictCG (Z.of_nat i) hypers tolerance st)
  end.

(** The loop condition [k < maxSize && numLeft > 0]. *)
Definition SelectCG_cond (maxSize : Z) (r : CGRun) : bool :=
  (cgr_k r <? uint_wrap maxSize)%Z && (cgr_numLeft r >? 0)%Z.

(** One iteration of the loop, followed by [k++]. *)
Definition SelectCG_body (hypers : GaussianProcessHyperparams)
    (numPoints : Z) (tolerance level : R) (r : CGRun) : CGRun :=
  let k := cgr_k r in
  let st := cgr_dev r in
  (* get the current classification statuses from the GPU *)
  let h_active := active (cg_maxSubBuffers st) in
  let h_upper := upper (cg_classificationBuffers st) in
  let h_lower := lower (cg_classificationBuffers st) in
  (* predict all active points *)
  let '(numLeft, st) :=
    predict_unclassified h_active h_upper h_lower hypers tolerance 0
      (Z.to_nat (uint_wrap numPoints)) 0 st in
  if (numLeft =? 0)%Z then
    mkCGRun st (uint_wrap (k + 1)) (cgr_beta r) numLeft (cgr_updates r)
      (cgr_betas r)
  else
    (* compute ambiguity and max ambiguity reduction *)
    let '(sub, cls) :=
      find_best_active_set_candidate (cg_maxSubBuffers st)
        (cg_classificationBuffers st) (cg_mu st) (cg_sigma st) level
        (cgr_beta r) 0 hypers in
    (* update matrices *)
    let '(asb, sub) :=
      update_active_set_buffers (cg_activeSetBuffers st) sub hypers in
    let st := mkCGDevice asb sub cls (cg_kernelVector st) (cg_p st) (cg_q st)
                (cg_r st) (cg_alpha st) (cg_gamma st) (cg_scalar1 st)
                (cg_scalar2 st) (cg_mu st) (cg_sigma st) in
    (* update beta according to formula in level set probing paper *)
    let beta := beta_update numPoints tolerance k in
    (* compute next alpha vector *)
    let st := solve_alpha_CG tolerance st in
    mkCGRun st (uint_wrap (k + 1)) beta numLeft (S (cgr_updates r))
      (cgr_betas r ++ [(k, beta)]).

Fixpoint SelectCG_loop (fuel : nat) (hypers : GaussianProcessHyperparams)
    (maxSize numPoints : Z) (tolerance level : R) (r : CGRun)
    : option CGRun :=
  if SelectCG_cond maxSize r then
    match fuel with
    | O => None
    | S fuel' =>
        SelectCG_loop fuel' hypers maxSize numPoints tolerance level
          (SelectCG_body hypers numPoints tolerance level r)
    end
  else Some r.

(** The state in which the loop of [SelectCG] is entered. *)
Definition SelectCG_seed (junk : nat -> nat -> R) (maxSize : Z)
    (inputPoints targetPoints : buffer) (hypers : GaussianProcessHyperparams)
    (inputDim targetDim numPoints : Z) (tolerance : R) : Z * CGRun :=
  (* force valid num points *)
  let maxSize := if (maxSize >? numPoints)%Z then numPoints else maxSize in
  let d_kernelVector := cudaMalloc (junk 0%nat) maxSize in
  let d_p := cudaMalloc (junk 1%nat) maxSize in
  let d_q := cudaMalloc (junk 2%nat) maxSize in
  let d_r := cudaMalloc (junk 3%nat) maxSize in
  let d_alpha := cudaMalloc (junk 4%nat) maxSize in
  let d_gamma := cudaMalloc (junk 5%nat) maxSize in
  let d_mu := cudaMalloc (junk 6%nat) numPoints in
  let d_sigma := cudaMalloc (junk 7%nat) numPoints in
  let d_scalar1 := junk 8%nat 0%nat in
  let d_scalar2 := junk 9%nat 0%nat in
  (* allocate auxiliary buffers *)
  let asb := construct_active_set_buffers inputDim targetDim maxSize in
  let sub := construct_max_subset_buffers inputPoints targetPoints inputDim
               targetDim numPoints in
  let cls := construct_classification_buffers numPoints in
  (* init random starting point and update the buffers *)
  let firstIndex := Z.rem rand numPoints in
  let sub := activate_max_subset_buffers sub firstIndex in
  let '(asb, sub) := update_active_set_buffers asb sub hypers in
  (* compute initial alpha vector *)
  let st := solve_alpha_CG tolerance
              (mkCGDevice asb sub cls d_kernelVector d_p d_q d_r d_alpha
                 d_gamma d_scalar1 d_scalar2 d_mu d_sigma) in
  (* beta is the scaling of the variance when classifying points *)
  let beta := beta_initial numPoints tolerance in
  let numLeft := (numPoints - 1)%Z in
  (maxSize, mkCGRun st 1 beta numLeft 1 []).

(** [SelectCG]; [None] when the loop of the model runs out of fuel. *)
Definition SelectCG (junk : nat -> nat -> R) (maxSize : Z)
    (inputPoints targetPoints : buffer) (mode : SubsetSelectionMode)
    (hypers : GaussianProcessHyperparams) (inputDim targetDim numPoints : Z)
    (tolerance : R) : option CGResult :=
  let '(maxSize, r0) :=
    SelectCG_seed junk maxSize inputPoints targetPoints hypers inputDim
      targetDim numPoints tolerance in
  let level := 0 in
  match SelectCG_loop (Z.to_nat (uint_wrap maxSize)) hypers maxSize numPoints
          tolerance level r0 with
  | None => None
  | Some r =>
      (* predict all points and compute the error *)
      let st := predict_every hypers tolerance 0
                  (Z.to_nat (uint_wrap numPoints)) (cgr_dev r) in
      Some (mkCGResult maxSize r st
              (EvaluateErrors (cg_mu st) (targets (cg_maxSubBuffers st))
                 (active (cg_maxSubBuffers st)) numPoints))
  end.

End CGSelection.

(** ** Triangular systems *)

(** [x] solves [op(A) x = b] for the upper triangle of the leading [m] by
    [m] block of [A]. *)
Definition triangular_solution (trans : cublasOperation_t) (A : buffer)
    (lda m : nat) (x b : nat -> R) : Prop :=
  forall i, (i < m)%nat ->
    match trans with
    | CUBLAS_OP_T => big_sum (fun k => mat A lda k i * x k) (S i) = b i
    | CUBLAS_OP_N =>
        big_sum (fun d => mat A lda i (i + d) * x (i + d)%nat) (m - i) = b i
    end.

(** ** Sample kernels and states

    Concrete kernels and device states on which the model is run. *)

Definition sample_kernels : DeviceKernels := {|
  construct_active_set_buffers := fun inputDim targetDim maxSize =>
    mkActiveSetBuffers [] [] [] 0 maxSize inputDim targetDim;
  construct_max_subset_buffers := fun inputPoints targetPoints _ _ n =>
    mkMaxSubsetBuffers inputPoints targetPoints (repeat 0%Z (Z.to_nat n)) [0]
      0 n;
  construct_classification_buffers := fun n =>
    mkClassificationBuffers (repeat 0%Z (Z.to_nat n))
      (repeat 0%Z (Z.to_nat n));
  activate_max_subset_buffers := fun sub i =>
    mkMaxSubsetBuffers (inputs sub) (targets sub) (active sub) (scores sub) i
      (num_pts sub);
  update_active_set_buffers := fun asb sub _ =>
    (mkActiveSetBuffers (active_inputs asb) (active_targets asb)
       (active_kernel_matrix asb) (num_active asb + 1) (max_active asb)
       (dim_input asb) (dim_target asb), sub);
  find_best_active_set_candidate := fun sub cls _ _ _ _ _ _ =>
    (mkMaxSubsetBuffers (inputs sub) (targets sub) (active sub) (scores sub)
       (-1) (num_pts sub), cls);
  compute_kernel_vector := fun _ _ _ _ _ => [1 / 2; 1 / 2];
  compute_kernel_vector_batch := fun _ _ _ _ _ _ => [1 / 2; 1 / 2];
  compute_sqrt_var := fun _ x _ _ _ _ => x;
  culaDeviceSpotrf := fun _ A _ => A;
  culaDeviceSpotrs := fun _ _ _ _ B _ => B;
  rand := 0
|}.

Definition sample_accumulators : Accumulators := {|
  acc_mean := fun E => fold_right Rplus 0 E / INR (length E);
  acc_moment2 := fun E =>
    fold_right (fun e s => e * e + s) 0 E / INR (length E);
  acc_median := fun E => nth (length E / 2) E 0;
  acc_max := fun E => fold_right Rmax 0 E;
  acc_min := fun E => fold_right Rmin (hd 0 E) E
|}.

Definition sample_hypers : GaussianProcessHyperparams := mkHypers 1 0.

(** Two active points with kernel matrix [[1, 3/5], [3/5, 1]], whose upper
    Cholesky factor is [[1, 3/5], [0, 4/5]]; one pool point to predict. *)
Definition two_point_state : CholDevice :=
  mkCholDevice (mkActiveSetBuffers [] [0; 0] [1; 3 / 5; 3 / 5; 1] 2 2 1 1)
    (mkMaxSubsetBuffers [] [] [] [] 0 1) (mkClassificationBuffers [] [])
    [0; 0] [1; 0; 3 / 5; 4 / 5] [0; 0] [0; 0] 1 0 [0] [0].

(** One active point in buffers of capacity two; the second cell of the
    target buffer holds a value. *)
Definition one_of_two : ActiveSetBuffers :=
  mkActiveSetBuffers [] [1; 1] [1; 0; 0; 0] 1 2 1 1.

(** ** Invariants of the selection loops *)

(** The capacity after [if (maxSize > numPoints) maxSize = numPoints]. *)
Definition clamped (maxSize numPoints : Z) : Z :=
  if (maxSize >? numPoints)%Z then numPoints else maxSize.

(** What holds of the variables of [SelectChol] whenever its loop condition
    is evaluated: [results] are the values of [nextIndex] that the
    iterations so far received, in order. *)
Definition Chol_inv (N : Z) (tolerance : R) (maxSize firstIndex : Z)
    (r : CholRun) : Prop :=
  exists results : list Z,
    sel_indices r = firstIndex :: results
    /\ sel_nextIndex r = last results 0%Z
    /\ Forall (fun i => i <> (-1)%Z) (removelast results)
    /\ sel_k r = (1 + Z.of_nat (length results))%Z
    /\ (sel_k r <= Z.max 1 (uint_wrap maxSize))%Z
    /\ sel_updates r = S (length (filter (fun i => (i >=? 0)%Z) results))
    /\ sel_betas r
       = map (fun j => (Z.of_nat j, beta_schedule N tolerance (Z.of_nat j)))
           (seq 1 (length results)).

(** The same for [SelectCG]: the iterations that reached the admission
    are all of them, or all but the last one. *)
Definition CG_inv (N : Z) (tolerance : R) (maxSize : Z) (r : CGRun) : Prop :=
  let m := length (cgr_betas r) in
  cgr_betas r
  = map (fun j => (Z.of_nat j, beta_schedule N tolerance (Z.of_nat j)))
      (seq 1 m)
  /\ cgr_updates r = S m
  /\ (1 <= cgr_k r <= Z.max 1 (uint_wrap maxSize))%Z
  /\ (Z.of_nat m <= cgr_k r - 1 <= Z.of_nat m + 1)%Z
  /\ ((cgr_numLeft r > 0)%Z -> cgr_k r = (1 + Z.of_nat m)%Z).

(** A pool of four points, capacity four, batches of one point, the
    first point as seed; the sample classification finds no candidate. *)
Definition sample_SelectChol : option CholResult :=
  SelectChol (dk := sample_kernels) (acc := sample_accumulators)
    (fun _ _ => 0) 4 [] [] LEVEL_SET sample_hypers 1 1 4 (1 / 2) 0 1 0 true.

Definition sample_SelectCG : option CGResult :=
  SelectCG (dk := sample_kernels) (acc := sample_accumulators)
    (fun _ _ => 0) 4 [] [] LEVEL_SET sample_hypers 1 1 4 (1 / 2).

(** ** CSV output *)

(** What [WriteCsv] sends to the file stream, one token for each [<<]. *)
Inductive csv_token :=
| CsvValue (v : R)
| CsvDelim
| CsvNewline.

(** The inner loop of [WriteCsv] for row [j]: columns [i], [i+1], ...,
    [n] of them. *)
Fixpoint WriteCsv_cells (hostBuffer : buffer) (width lda j : Z) (i n : nat)
    : list csv_token :=
  match n with
  | O => []
  | S n' =>
      CsvValue
        (rd hostBuffer
           (Z.to_nat (int_wrap (j + int_wrap (Z.of_nat i * lda)))))
      :: (if (Z.of_nat i <? width - 1)%Z then [CsvDelim] else [])
      ++ WriteCsv_cells hostBuffer width lda j (S i) n'
  end.

(** The outer loop: rows [j], [j+1], ..., [n] of them. *)
Fixpoint WriteCsv_rows (hostBuffer : buffer) (width lda : Z) (j n : nat)
    : list csv_token :=
  match n with
  | O => []
  | S n' =>
      WriteCsv_cells hostBuffer width lda (Z.of_nat j) 0 (Z.to_nat width)
      ++ [CsvNewline]
      ++ WriteCsv_rows hostBuffer width lda (S j) n'
  end.

(** [WriteCsv(csvFilename, buffer, width, height, lda)]: the tokens written.
    [hostBuffer] receives the first [width * lda] floats of [buffer]. *)
Definition WriteCsv (buffer : buffer) (width height lda : Z)
    : list csv_token :=
  let hostBuffer :=
    tabulate (fun i => rd buffer i) (Z.to_nat (int_wrap (width * lda))) in
  WriteCsv_rows hostBuffer width lda 0 (Z.to_nat height).

(** A line of a CSV file: the values separated by delimiters, then the
    end of line. *)
Fixpoint csv_line (vs : list R) : list csv_token :=
  match vs with
  | [] => [CsvNewline]
  | [v] => [CsvValue v; CsvNewline]
  | v :: vs' => CsvValue v :: CsvDelim :: csv_line vs'
  end.

(** ** Full inversion *)

(** [culaDeviceSgesv(n, nrhs, A, lda, ipiv, B, ldb)], a CULA routine:
    the new contents of [A], [ipiv] and [B]. *)
Class InversionKernels := {
  culaDeviceSgesv :
    Z -> Z -> buffer -> Z -> list Z -> buffer -> Z ->
    buffer * list Z * buffer
}.

Definition set_d_next_index (i : Z) (sub : MaxSubsetBuffers)
    : MaxSubsetBuffers :=
  mkMaxSubsetBuffers (inputs sub) (targets sub) (active sub) (scores sub) i
    (num_pts sub).

Definition set_active_kernel_matrix (K : buffer) (asb : ActiveSetBuffers)
    : ActiveSetBuffers :=
  mkActiveSetBuffers (active_inputs asb) (active_targets asb) K
    (num_active asb) (max_active asb) (dim_input asb) (dim_target asb).

Record InversionResult := mkInversionResult {
  inv_activeSetBuffers : ActiveSetBuffers;
  inv_maxSubBuffers : MaxSubsetBuffers;
  inv_alpha : buffer;
  inv_mu : buffer;
  inv_errors : PredictionError
}.

Section FullInversion.
Context {dk : DeviceKernels} {ik : InversionKernels} {acc : Accumulators}.

(** [for (int i = 0; i < numPoints; i++) { cudaMemcpy(d_next_index, &i, ...);
    update_active_set_buffers(...); }]: [n] iterations starting at [i]. *)
Fixpoint form_kernel_matrix (hypers : GaussianProcessHyperparams) (i n : nat)
    (asb : ActiveSetBuffers) (sub : MaxSubsetBuffers)
    : ActiveSetBuffers * MaxSubsetBuffers :=
  match n with
  | O => (asb, sub)
  | S n' =>
      let '(asb, sub) :=
        update_active_set_buffers asb (set_d_next_index (Z.of_nat i) sub)
          hypers in
      form_kernel_matrix hypers (S i) n' asb sub
  end.

(** [SelectFullInversion]; [junk] as in [SelectChol_seed], [pivots] is the
    uninitialised pivot array. *)
Definition SelectFullInversion (junk : nat -> nat -> R) (pivots : list Z)
    (inputPoints targetPoints : buffer) (inputDim targetDim numPoints : Z)
    (hypers : GaussianProcessHyperparams) : InversionResult :=
  let d_mu := cudaMalloc (junk 0%nat) numPoints in
  let d_alpha := cudaMalloc (junk 2%nat) numPoints in
  let d_scalar1 := junk 3%nat 0%nat in
  let d_scalar2 := junk 4%nat 0%nat in
  (* allocate auxiliary buffers *)
  let asb := construct_active_set_buffers inputDim targetDim numPoints in
  let sub := construct_max_subset_buffers inputPoints targetPoints inputDim
               targetDim numPoints in
  (* form kernel matrix *)
  let '(asb, sub) :=
    form_kernel_matrix hypers 0 (Z.to_nat numPoints) asb sub in
  (* solve mean system *)
  let d_mu := cudaMemset0 d_mu numPoints in
  let d_alpha := cudaMemcpy d_alpha 0 (active_targets asb) 0 numPoints in
  let '(K, _, d_alpha) :=
    culaDeviceSgesv numPoints 1 (active_kernel_matrix asb) numPoints pivots
      d_alpha numPoints in
  let asb := set_active_kernel_matrix K asb in
  (* predict the mean *)
  let d_mu := cublasSgemv CUBLAS_OP_N numPoints numPoints d_scalar1
                (active_kernel_matrix asb) numPoints d_alpha d_scalar2 d_mu
                0 in
  mkInversionResult asb sub d_alpha d_mu
    (EvaluateErrors d_mu (targets sub) (active sub) numPoints).

End FullInversion.

(** ** Predicates of the further properties *)

(** [L] is an upper Cholesky factor of the leading [m] by [m] block of the
    symmetric matrix [K]: [(L^T L)(i, j) = K(i, j)] for [i <= j < m], where
    only the upper triangle of [L] is read. *)
Definition upper_factor_of (L K : buffer) (lda m : nat) : Prop :=
  forall i j, (i <= j < m)%nat ->
    big_sum (fun r => mat L lda r i * mat L lda r j) (S i) = mat K lda i j.

Definition symmetric_block (K : buffer) (lda m : nat) : Prop :=
  forall i j, (i < m)%nat -> (j < m)%nat -> mat K lda i j = mat K lda j i.

(** The pool point [j] is neither active nor classified. *)
Definition unclassified (h_active h_upper h_lower : flags) (j : nat) : bool :=
  ((nth j h_active 0 =? 0) && (nth j h_upper 0 =? 0)
   && (nth j h_lower 0 =? 0))%Z.

(** The batch number [q] of a pass over a pool of [N] points: its first
    index and its size. *)
Definition batch (N batchSize : Z) (q : nat) : Z * Z :=
  (Z.of_nat q * batchSize, Z.min batchSize (N - Z.of_nat q * batchSize))%Z.

(** The number of batches: [N / batchSize], rounded up. *)
Definition batch_count (N batchSize : Z) : nat :=
  Z.to_nat ((N + batchSize - 1) / batchSize).

(** Kernels whose [compute_sqrt_var] returns [4/5], the diagonal entry that
    completes the factor of [two_point_state]. *)
Definition sqrt_kernels : DeviceKernels := {|
  construct_active_set_buffers :=
    construct_active_set_buffers (DeviceKernels := sample_kernels);
  construct_max_subset_buffers :=
    construct_max_subset_buffers (DeviceKernels := sample_kernels);
  construct_classification_buffers :=
    construct_classification_buffers (DeviceKernels := sample_kernels);
  activate_max_subset_buffers :=
    activate_max_subset_buffers (DeviceKernels := sample_kernels);
  update_active_set_buffers :=
    update_active_set_buffers (DeviceKernels := sample_kernels);
  find_best_active_set_candidate :=
    find_best_active_set_candidate (DeviceKernels := sample_kernels);
  compute_kernel_vector :=
    compute_kernel_vector (DeviceKernels := sample_kernels);
  compute_kernel_vector_batch :=
    compute_kernel_vector_batch (DeviceKernels := sample_kernels);
  compute_sqrt_var := fun _ _ _ _ _ _ => [4 / 5];
  culaDeviceSpotrf := culaDeviceSpotrf (DeviceKernels := sample_kernels);
  culaDeviceSpotrs := culaDeviceSpotrs (DeviceKernels := sample_kernels);
  rand := 0
|}.

(** [two_point_state] before the second point enters the factor: the first
    column of [d_L] only, targets [(1, 2)]. *)
Definition growing_state : CholDevice :=
  mkCholDevice (mkActiveSetBuffers [] [1; 2] [1; 3 / 5; 3 / 5; 1] 2 2 1 1)
    (mkMaxSubsetBuffers [] [] [] [] 0 1) (mkClassificationBuffers [] [])
    [0; 0] [1; 0; 0; 0] [0; 0] [0; 0] 1 0 [0] [0].

Definition sample_inversion : InversionKernels := {|
  culaDeviceSgesv := fun _ _ A _ P B _ => (A, P, B)
|}.

(** [two_point_state] with buffers for the factor and the solution of
    exactly the capacity of the active set. *)
Definition full_solve_state : CholDevice :=
  mkCholDevice (mkActiveSetBuffers [] [1; 2] [1; 3 / 5; 3 / 5; 1] 2 2 1 1)
    (mkMaxSubsetBuffers [] [] [] [] 0 1) (mkClassificationBuffers [] [])
    [0; 0] [7; 7; 7; 7] [7; 7] [0; 0] 1 0 [0] [0].

(** One active point in buffers of capacity one. *)
Definition single_point : ActiveSetBuffers :=
  mkActiveSetBuffers [] [3] [2] 1 1 1 1.

Definition single_point_cg_state : CGDevice :=
  mkCGDevice single_point (mkMaxSubsetBuffers [] [] [] [] 0 1)
    (mkClassificationBuffers [] []) [0] [0] [0] [0] [0] [0] 0 0 [0] [0].

(** The run [r] with another value in the variable [beta]. *)
Definition set_sel_beta (b : R) (r : CholRun) : CholRun :=
  mkCholRun (sel_dev r) (sel_k r) b (sel_score r) (sel_nextIndex r)
    (sel_indices r) (sel_scores r) (sel_updates r) (sel_betas r).

(** Kernels whose classification proposes point 1 and marks every pool
    point as lying above the level set. *)
Definition classifying_kernels : DeviceKernels := {|
  construct_active_set_buffers :=
    construct_active_set_buffers (DeviceKernels := sample_kernels);
  construct_max_subset_buffers :=
    construct_max_subset_buffers (DeviceKernels := sample_kernels);
  construct_classification_buffers :=
    construct_classification_buffers (DeviceKernels := sample_kernels);
  activate_max_subset_buffers :=
    activate_max_subset_buffers (DeviceKernels := sample_kernels);
  update_active_set_buffers :=
    update_active_set_buffers (DeviceKernels := sample_kernels);
  find_best_active_set_candidate := fun sub cls _ _ _ _ _ _ =>
    (mkMaxSubsetBuffers (inputs sub) (targets sub) (active sub) (scores sub)
       1 (num_pts sub),
     mkClassificationBuffers (map (fun _ => 1%Z) (upper cls)) (lower cls));
  compute_kernel_vector :=
    compute_kernel_vector (DeviceKernels := sample_kernels);
  compute_kernel_vector_batch :=
    compute_kernel_vector_batch (DeviceKernels := sample_kernels);
  compute_sqrt_var := compute_sqrt_var (DeviceKernels := sample_kernels);
  culaDeviceSpotrf := culaDeviceSpotrf (DeviceKernels := sample_kernels);
  culaDeviceSpotrs := culaDeviceSpotrs (DeviceKernels := sample_kernels);
  rand := 0
|}.

(** Entry [(k, j)] of the upper triangle of [L], 0 below the diagonal. *)
Definition upper_entry (L : buffer) (lda k j : nat) : R :=
  if (k <=? j)%nat then mat L lda k j else 0.

(** Kernels that factor and solve the two-point system of [growing_state]:
    [culaDeviceSpotrf] returns the factor [[1, 3/5], [0, 4/5]] and
    [culaDeviceSpotrs] the solution [(-5/16, 35/16)] for the targets
    [(1, 2)]. *)
Definition cholesky_kernels : DeviceKernels := {|
  construct_active_set_buffers :=
    construct_active_set_buffers (DeviceKernels := sample_kernels);
  construct_max_subset_buffers :=
    construct_max_subset_buffers (DeviceKernels := sample_kernels);
  construct_classification_buffers :=
    construct_classification_buffers (DeviceKernels := sample_kernels);
  activate_max_subset_buffers :=
    activate_max_subset_buffers (DeviceKernels := sample_kernels);
  update_active_set_buffers :=
    update_active_set_buffers (DeviceKernels := sample_kernels);
  find_best_active_set_candidate :=
    find_best_active_set_candidate (DeviceKernels := sample_kernels);
  compute_kernel_vector :=
    compute_kernel_vector (DeviceKernels := sample_kernels);
  compute_kernel_vector_batch :=
    compute_kernel_vector_batch (DeviceKernels := sample_kernels);
  compute_sqrt_var := fun _ _ _ _ _ _ => [4 / 5];
  culaDeviceSpotrf := fun _ _ _ => [1; 0; 3 / 5; 4 / 5];
  culaDeviceSpotrs := fun _ _ _ _ _ _ => [- (5 / 16); 35 / 16];
  rand := 0
|}.

(** * Properties *)

Lemma int_wrap_small (z : Z) :
  (- 2 ^ 31 <= z < 2 ^ 31)%Z -> int_wrap z = z.
Proof.
  intros Hz. unfold int_wrap.
  rewrite Z.mod_small by lia. lia.
Qed.

Lemma big_sum_ext (f g : nat -> R) (n : nat) :
  (forall i, (i < n)%nat -> f i = g i) -> big_sum f n = big_sum g n.
Proof.
  induction n as [|n IH]; intros H; simpl.
  - reflexivity.
  - rewrite IH, (H n) by auto with arith. reflexivity.
Qed.

Lemma big_sum_shift (f : nat -> R) (n : nat) :
  big_sum f (S n) = f O + big_sum (fun j => f (S j)) n.
Proof.
  induction n as [|n IH].
  - simpl. lra.
  - change (big_sum f (S (S n))) with (big_sum f (S n) + f (S n)).
    rewrite IH. simpl. lra.
Qed.

Lemma SECovariance_loop_sum (x y : list R) (n i : nat) (acc : R) :
  SECovariance_loop x y i n acc
  = acc + big_sum (fun j => (nth (i + j) x 0 - nth (i + j) y 0) ^ 2) n.
Proof.
  revert i acc. induction n as [|n IH]; intros i acc.
  - simpl. lra.
  - cbn [SECovariance_loop]. rewrite IH, big_sum_shift.
    rewrite Nat.add_0_r.
    rewrite (big_sum_ext _
               (fun j => (nth (i + S j) x 0 - nth (i + S j) y 0) ^ 2)).
    + lra.
    + intros j _. replace (S i + j)%nat with (i + S j)%nat by lia. reflexivity.
Qed.

Lemma SECovariance_value (x y : list R) (dim sigma : Z) :
  sigma <> 0%Z -> (- 2 ^ 30 <= sigma < 2 ^ 30)%Z ->
  SECovariance x y dim sigma
  = exp (- sqdist x y (Z.to_nat dim) / (2 * IZR sigma)).
Proof.
  intros _ Hs. unfold SECovariance, sqdist.
  rewrite SECovariance_loop_sum, int_wrap_small by lia.
  rewrite mult_IZR. simpl (0 + _)%nat.
  f_equal. f_equal. lra.
Qed.

(** C8, the code against the claim: the parameter [sigma] of
    [SECovariance] is an [int], while the hyperparameter is a [float].  For
    an integer [sigma] other than 0 whose double fits an [int] the function
    returns [exp (- |x-y|^2 / (2 sigma))]; but no value of the [int]
    parameter yields the covariance of the hyperparameter [sigma = 3/2] at
    [x = (0)], [y = (1)], which is [exp (-1/3)]: the parameter can only
    hold 1, the truncation of 3/2, for which the function returns
    [exp (-1/2)]. *)
Theorem SECovariance_int_sigma :
  (forall (x y : list R) (dim sigma : Z),
     sigma <> 0%Z -> (- 2 ^ 30 <= sigma < 2 ^ 30)%Z ->
     SECovariance x y dim sigma
     = exp (- sqdist x y (Z.to_nat dim) / (2 * IZR sigma)))
  /\ SECovariance [0] [1] 1 1 = exp (- (1 / 2))
  /\ SECovariance [0] [1] 1 1 <> exp (- sqdist [0] [1] 1 / (2 * (3 / 2)))
  /\ (forall sigma : Z,
        sigma <> 0%Z -> (- 2 ^ 30 <= sigma < 2 ^ 30)%Z ->
        SECovariance [0] [1] 1 sigma
        <> exp (- sqdist [0] [1] 1 / (2 * (3 / 2)))).
Proof.
  assert (Hall : forall sigma : Z,
            sigma <> 0%Z -> (- 2 ^ 30 <= sigma < 2 ^ 30)%Z ->
            SECovariance [0] [1] 1 sigma
            <> exp (- sqdist [0] [1] 1 / (2 * (3 / 2)))).
  { intros sigma Hnz Hs. rewrite SECovariance_value by assumption.
    intros Heq. apply exp_inv in Heq.
    unfold sqdist in Heq. simpl in Heq.
    assert (Hsig : IZR sigma <> 0) by (apply not_0_IZR; assumption).
    assert (Ha : 2 * IZR sigma <> 0) by (intros H; apply Hsig; lra).
    assert (H32 : 2 * IZR sigma = 3).
    { apply (f_equal (fun v => v * (2 * IZR sigma))) in Heq.
      replace (- (0 + (0 - 1) * ((0 - 1) * 1)) / (2 * IZR sigma)
               * (2 * IZR sigma)) with (-1) in Heq by (field; assumption).
      lra. }
    assert (Hz : (2 * sigma = 3)%Z).
    { apply eq_IZR. rewrite mult_IZR. exact H32. }
    lia. }
  split; [intros; now apply SECovariance_value|].
  split; [|split; [apply Hall; lia|exact Hall]].
  rewrite SECovariance_value by lia. unfold sqdist. simpl. f_equal. lra.
Qed.

(** ** Buffer lemmas *)

Lemma wr_length (b : buffer) (i : nat) (v : R) : length (wr b i v) = length b.
Proof.
  revert i. induction b as [|h t IH]; intros [|i]; simpl; auto.
Qed.

Lemma rd_wr_other (b : buffer) (i j : nat) (v : R) :
  i <> j -> rd (wr b i v) j = rd b j.
Proof.
  unfold rd. revert i j.
  induction b as [|h t IH]; intros [|i] [|j] Hij; simpl; auto;
    try contradiction.
Qed.

Lemma rd_wr_same (b : buffer) (i : nat) (v : R) :
  (i < length b)%nat -> rd (wr b i v) i = v.
Proof.
  unfold rd. revert i.
  induction b as [|h t IH]; intros [|i] Hi; simpl in *; try lia; auto.
  apply IH. lia.
Qed.

Lemma write_seq_length (vs : list R) (b : buffer) (off : nat) :
  length (write_seq b off vs) = length b.
Proof.
  revert b off. induction vs as [|v vs IH]; intros b off; simpl; auto.
  rewrite IH. apply wr_length.
Qed.

Lemma rd_write_seq_outside (vs : list R) (b : buffer) (off j : nat) :
  (j < off \/ off + length vs <= j)%nat -> rd (write_seq b off vs) j = rd b j.
Proof.
  revert b off. induction vs as [|v vs IH]; intros b off Hj; simpl in *; auto.
  rewrite IH by lia. apply rd_wr_other. lia.
Qed.

Lemma rd_write_seq_inside (vs : list R) (b : buffer) (off j : nat) :
  (off <= j < off + length vs)%nat -> (j < length b)%nat ->
  rd (write_seq b off vs) j = nth (j - off) vs 0.
Proof.
  revert b off. induction vs as [|v vs IH]; intros b off Hj Hb; simpl in *.
  - lia.
  - destruct (Nat.eq_dec j off) as [->|Hne].
    + rewrite rd_write_seq_outside by lia.
      rewrite rd_wr_same by lia. now rewrite Nat.sub_diag.
    + rewrite IH by (rewrite ?wr_length; lia).
      replace (j - off)%nat with (S (j - S off)) by lia. reflexivity.
Qed.

Lemma tabulate_length (f : nat -> R) (n : nat) : length (tabulate f n) = n.
Proof. unfold tabulate. now rewrite length_map, length_seq. Qed.

Lemma nth_tabulate (f : nat -> R) (n i : nat) :
  (i < n)%nat -> nth i (tabulate f n) 0 = f i.
Proof.
  intros Hi. unfold tabulate.
  rewrite (nth_indep _ 0 (f O)) by now rewrite length_map, length_seq.
  rewrite map_nth, seq_nth by assumption. reflexivity.
Qed.

Lemma rd_write_seq_tabulate_outside (b : buffer) (off : nat)
    (f : nat -> R) (n i : nat) :
  (i < off \/ off + n <= i)%nat ->
  rd (write_seq b off (tabulate f n)) i = rd b i.
Proof.
  intros Hi. apply rd_write_seq_outside. now rewrite tabulate_length.
Qed.

(** ** Prediction errors *)

Lemma EvaluateErrors_loop_spec (active : flags) (p t : buffer) (n i : nat)
    (a : ErrorAccumulation) :
  let E := errors_where (inactive active) p t i n in
  EvaluateErrors_loop active p t i n a
  = mkErrorAccumulation (meanAccumulator a ++ E) (medianAccumulator a ++ E)
      (maxMinAccumulator a ++ E) (numTest a + Z.of_nat (length E)).
Proof.
  revert i a. induction n as [|n IH]; intros i a; cbn zeta.
  - simpl. rewrite !app_nil_r, Z.add_0_r. now destruct a.
  - cbn [EvaluateErrors_loop errors_where]. rewrite IH. unfold inactive.
    destruct (nth i active 0 =? 0)%Z; cbn [meanAccumulator medianAccumulator
      maxMinAccumulator numTest length].
    + rewrite <- !app_assoc. cbn [app]. f_equal. lia.
    + reflexivity.
Qed.

Lemma EvaluateErrors_value {acc : Accumulators} (mu t : buffer)
    (active : flags) (numPts : Z) :
  EvaluateErrors mu t active numPts
  = summary (errors_where (inactive active) mu t 0 (Z.to_nat numPts)).
Proof.
  unfold EvaluateErrors, summary. rewrite EvaluateErrors_loop_spec.
  cbn [meanAccumulator medianAccumulator maxMinAccumulator numTest app].
  destruct (errors_where _ _ _ _ _) as [|e E]; [reflexivity|].
  cbn [length]. destruct (0 + Z.of_nat (S (length E)) >? 0)%Z eqn:Hc;
    [reflexivity|].
  rewrite Z.gtb_ltb in Hc. apply Z.ltb_ge in Hc. lia.
Qed.

Lemma errors_where_ext (keep : nat -> bool) (p t p' t' : buffer) (n i : nat) :
  (forall j, (i <= j < i + n)%nat -> keep j = true ->
             rd p' j = rd p j /\ rd t' j = rd t j) ->
  errors_where keep p' t' i n = errors_where keep p t i n.
Proof.
  revert i. induction n as [|n IH]; intros i H; simpl; auto.
  rewrite IH by (intros j Hj; apply H; lia).
  destruct (keep i) eqn:Hk; auto.
  destruct (H i ltac:(lia) Hk) as [-> ->]. reflexivity.
Qed.

Lemma errors_where_none (keep : nat -> bool) (p t : buffer) (n i : nat) :
  (forall j, (i <= j < i + n)%nat -> keep j = false) ->
  errors_where keep p t i n = [].
Proof.
  revert i. induction n as [|n IH]; intros i H; simpl; auto.
  rewrite (H i) by lia. apply IH. intros j Hj. apply H. lia.
Qed.

Lemma errors_where_In (keep : nat -> bool) (p t : buffer) (n i : nat) (e : R) :
  In e (errors_where keep p t i n) <->
  exists j, (i <= j < i + n)%nat /\ keep j = true
            /\ e = Rabs (rd p j - rd t j).
Proof.
  revert i. induction n as [|n IH]; intros i; simpl.
  - split; [tauto|]. intros (j & Hj & _). lia.
  - destruct (keep i) eqn:Hk; simpl; rewrite IH; split.
    + intros [<-|(j & Hj & Hkj & He)].
      * exists i. repeat split; auto; lia.
      * exists j. repeat split; auto; lia.
    + intros (j & Hj & Hkj & He).
      destruct (Nat.eq_dec j i) as [->|Hne]; [left; auto|].
      right. exists j. repeat split; auto; lia.
    + intros (j & Hj & Hkj & He). exists j. repeat split; auto; lia.
    + intros (j & Hj & Hkj & He).
      destruct (Nat.eq_dec j i) as [->|Hne]; [congruence|].
      exists j. repeat split; auto; lia.
Qed.

(** C7: the statistics of [EvaluateErrors] are taken over the absolute
    errors of the points whose active flag is 0 and of no other point:
    every accumulated sample is the error of an inactive point, the
    predictions and targets of active points do not influence the result,
    and the five statistics are 0 when no point is inactive. *)
Theorem EvaluateErrors_inactive_only {acc : Accumulators} (mu t : buffer)
    (active : flags) (numPts : Z) :
  let E := errors_where (inactive active) mu t 0 (Z.to_nat numPts) in
  EvaluateErrors mu t active numPts = summary E
  /\ (forall e, In e E <->
        exists i, (i < Z.to_nat numPts)%nat /\ nth i active 0%Z = 0%Z
                  /\ e = Rabs (rd mu i - rd t i))
  /\ (forall mu' t',
        (forall i, (i < Z.to_nat numPts)%nat -> nth i active 0%Z = 0%Z ->
                   rd mu' i = rd mu i /\ rd t' i = rd t i) ->
        EvaluateErrors mu' t' active numPts = EvaluateErrors mu t active numPts)
  /\ ((forall i, (i < Z.to_nat numPts)%nat -> nth i active 0%Z <> 0%Z) ->
      EvaluateErrors mu t active numPts = mkPredictionError 0 0 0 0 0).
Proof.
  cbn zeta. split; [apply EvaluateErrors_value|]. split; [|split].
  - intros e. rewrite errors_where_In. unfold inactive.
    split; intros (i & Hi & Hk & He); exists i; repeat split; auto; try lia;
      now apply Z.eqb_eq.
  - intros mu' t' H. rewrite !EvaluateErrors_value.
    rewrite (errors_where_ext _ mu t mu' t'); [reflexivity|].
    intros j Hj Hk. apply H; [lia|]. now apply Z.eqb_eq.
  - intros H. rewrite EvaluateErrors_value, errors_where_none; [reflexivity|].
    intros j Hj. unfold inactive. apply Z.eqb_neq, H. lia.
Qed.

(** ** Batched prediction *)

Lemma trsm_upper_T_col_length (A : buffer) (lda : nat) (alpha : R)
    (boff cnt i : nat) (B : buffer) :
  length (trsm_upper_T_col A lda alpha B boff i cnt) = length B.
Proof.
  revert i B. induction cnt as [|cnt IH]; intros i B; cbn [trsm_upper_T_col].
  - reflexivity.
  - rewrite IH. apply wr_length.
Qed.

Lemma trsm_upper_T_col_outside (A : buffer) (lda : nat) (alpha : R)
    (boff cnt i p : nat) (B : buffer) :
  (p < boff + i \/ boff + i + cnt <= p)%nat ->
  rd (trsm_upper_T_col A lda alpha B boff i cnt) p = rd B p.
Proof.
  revert i B. induction cnt as [|cnt IH]; intros i B Hp;
    cbn [trsm_upper_T_col].
  - reflexivity.
  - rewrite IH by lia. apply rd_wr_other. lia.
Qed.

Lemma trsm_upper_cols_T_length (A : buffer) (lda : nat) (alpha : R)
    (ldb m cnt j : nat) (B : buffer) :
  length (trsm_upper_cols CUBLAS_OP_T A lda alpha B ldb m j cnt) = length B.
Proof.
  revert j B. induction cnt as [|cnt IH]; intros j B;
    cbn [trsm_upper_cols trsm_upper_col].
  - reflexivity.
  - rewrite IH. apply trsm_upper_T_col_length.
Qed.

Lemma trsm_upper_cols_T_outside (A : buffer) (lda : nat) (alpha : R)
    (ldb m cnt j p : nat) (B : buffer) :
  (m <= ldb)%nat -> (p < j * ldb \/ (j + cnt) * ldb <= p)%nat ->
  rd (trsm_upper_cols CUBLAS_OP_T A lda alpha B ldb m j cnt) p = rd B p.
Proof.
  intros Hm. revert j B. induction cnt as [|cnt IH]; intros j B Hp;
    cbn [trsm_upper_cols trsm_upper_col].
  - reflexivity.
  - rewrite IH by nia. apply trsm_upper_T_col_outside. nia.
Qed.

(** C6 (as amended): [GpPredictCholBatch] leaves the active-set buffers
    (kernel matrix, targets, [num_active]), the pool buffers, the factor
    [d_L] and [d_alpha] as they were, and changes [d_mu] and [d_sigma]
    nowhere outside the query indices [index, index + batchSize).  Besides
    these it overwrites the two work buffers of its caller: [d_kernelVector]
    receives the kernel vectors of the batch, and [d_gamma] is rewritten in
    its first [max_active * batchSize] cells and nowhere else. *)
Theorem GpPredictCholBatch_frame {dk : DeviceKernels} (index batchSize : Z)
    (hypers : GaussianProcessHyperparams) (st : CholDevice) :
  (0 <= index)%Z ->
  let st' := GpPredictCholBatch index batchSize hypers st in
  activeSetBuffers st' = activeSetBuffers st
  /\ maxSubBuffers st' = maxSubBuffers st
  /\ classificationBuffers st' = classificationBuffers st
  /\ d_L st' = d_L st
  /\ d_alpha st' = d_alpha st
  /\ d_scalar1 st' = d_scalar1 st
  /\ d_scalar2 st' = d_scalar2 st
  /\ length (d_mu st') = length (d_mu st)
  /\ length (d_sigma st') = length (d_sigma st)
  /\ (forall i : Z,
        (0 <= i)%Z -> (i < index \/ index + batchSize <= i)%Z ->
        rd (d_mu st') (Z.to_nat i) = rd (d_mu st) (Z.to_nat i)
        /\ rd (d_sigma st') (Z.to_nat i) = rd (d_sigma st) (Z.to_nat i))
  /\ d_kernelVector st'
     = compute_kernel_vector_batch (activeSetBuffers st) (maxSubBuffers st)
         index batchSize (d_kernelVector st) hypers
  /\ length (d_gamma st') = length (d_gamma st)
  /\ ((num_active (activeSetBuffers st) <= max_active (activeSetBuffers st))%Z
      -> (0 <= max_active (activeSetBuffers st) * batchSize < 2 ^ 31)%Z ->
      forall p : nat,
        (max_active (activeSetBuffers st) * batchSize <= Z.of_nat p)%Z ->
        rd (d_gamma st') p = rd (d_gamma st) p).
Proof.
  intros Hindex. cbn zeta. unfold GpPredictCholBatch.
  cbn [activeSetBuffers maxSubBuffers classificationBuffers d_L d_alpha
       d_scalar1 d_scalar2 d_mu d_sigma d_gamma d_kernelVector
       set_d_kernelVector set_d_gamma set_d_mu set_d_sigma].
  repeat (split; [reflexivity|]).
  unfold cublasSgemv, norm_columns.
  split; [apply write_seq_length|]. split; [apply write_seq_length|].
  split; [|split; [reflexivity|split]].
  - intros i Hi Hout.
    rewrite !rd_write_seq_outside; [split; reflexivity| |];
      rewrite tabulate_length; lia.
  - unfold cublasStrsm, cudaMemcpy.
    now rewrite trsm_upper_cols_T_length, write_seq_length.
  - intros Hn Hprod p Hp. unfold cublasStrsm, cudaMemcpy.
    rewrite int_wrap_small by lia.
    destruct (Z.le_gt_cases batchSize 0) as [Hbs|Hbs].
    + replace (Z.to_nat batchSize) with 0%nat by lia.
      cbn [trsm_upper_cols]. apply rd_write_seq_tabulate_outside. nia.
    + rewrite trsm_upper_cols_T_outside by nia.
      apply rd_write_seq_tabulate_outside. nia.
Qed.

(** C6, counterexample: on [two_point_state] the call changes both work
    buffers: [d_kernelVector] goes from [(0, 0)] to the kernel vector
    [(1/2, 1/2)] and [d_gamma] from [(0, 0)] to the solution [(1/2, 1/4)]
    of the triangular system, so the writes to [d_mu] and [d_sigma] are not
    its only outputs. *)
Lemma GpPredictCholBatch_writes_work_buffers :
  let st' := GpPredictCholBatch (dk := sample_kernels) 0 1 sample_hypers
               two_point_state in
  d_kernelVector two_point_state = [0; 0]
  /\ d_kernelVector st' = [1 / 2; 1 / 2]
  /\ rd (d_gamma two_point_state) 0 = 0
  /\ rd (d_gamma st') 0 = 1 / 2
  /\ rd (d_gamma st') 1 = 1 / 4
  /\ d_kernelVector st' <> d_kernelVector two_point_state
  /\ d_gamma st' <> d_gamma two_point_state.
Proof.
  cbn zeta.
  assert (H0 : rd (d_gamma (GpPredictCholBatch (dk := sample_kernels) 0 1
                              sample_hypers two_point_state)) 0 = 1 / 2).
  { cbv -[Rplus Rmult Rminus Rdiv Ropp Rinv IZR]. lra. }
  assert (H1 : rd (d_gamma (GpPredictCholBatch (dk := sample_kernels) 0 1
                              sample_hypers two_point_state)) 1 = 1 / 4).
  { cbv -[Rplus Rmult Rminus Rdiv Ropp Rinv IZR]. lra. }
  split; [reflexivity|]. split; [reflexivity|]. split; [reflexivity|].
  split; [exact H0|]. split; [exact H1|]. split.
  - intros H. apply (f_equal (fun b => rd b 0)) in H. revert H.
    cbv -[Rplus Rmult Rminus Rdiv Ropp Rinv IZR]. lra.
  - intros H. apply (f_equal (fun b => rd b 0)) in H. rewrite H0 in H.
    revert H. cbv -[Rplus Rmult Rminus Rdiv Ropp Rinv IZR]. lra.
Qed.

(** ** Conjugate-gradient solver *)

Ltac eval_model :=
  cbv -[Rplus Rmult Rminus Rdiv Ropp Rinv IZR Rgt_dec Rle_dec Rabs exp ln PI
        Int_part].

Lemma CG_loop_step (fuel : nat) (asb : ActiveSetBuffers) (tol : R)
    (c : CGSolve) :
  CG_cond asb tol c = true ->
  CG_loop (S fuel) asb tol c = CG_loop fuel asb tol (CG_body asb c).
Proof. intros H. cbn [CG_loop]. now rewrite H. Qed.

Lemma CG_loop_stop (fuel : nat) (asb : ActiveSetBuffers) (tol : R)
    (c : CGSolve) :
  CG_cond asb tol c = false -> CG_loop fuel asb tol c = c.
Proof. intros H. destruct fuel; cbn [CG_loop]; now rewrite H. Qed.

Lemma CG_cond_false (asb : ActiveSetBuffers) (tol : R) (c : CGSolve) :
  CG_cond asb tol c = false <->
  sv_delta_1 c <= tol \/ (max_active asb <= sv_k c)%Z.
Proof.
  unfold CG_cond, Rgtb. rewrite andb_false_iff, Z.ltb_ge.
  destruct (Rgt_dec (sv_delta_1 c) tol) as [Hgt|Hle]; split.
  - intros [H|H]; [discriminate|now right].
  - intros [H|H]; [lra|now right].
  - intros _. left. lra.
  - intros _. now left.
Qed.

Lemma CG_loop_iterates (asb : ActiveSetBuffers) (tol : R) (fuel : nat)
    (c : CGSolve) :
  (max_active asb - sv_k c <= Z.of_nat fuel)%Z ->
  exists n,
    CG_loop fuel asb tol c = Nat.iter n (CG_body asb) c
    /\ sv_k (CG_loop fuel asb tol c) = (sv_k c + Z.of_nat n)%Z
    /\ (forall j, (j < n)%nat ->
          CG_cond asb tol (Nat.iter j (CG_body asb) c) = true)
    /\ CG_cond asb tol (CG_loop fuel asb tol c) = false.
Proof.
  revert c. induction fuel as [|fuel IH]; intros c Hfuel.
  - assert (Hstop : CG_cond asb tol c = false).
    { apply CG_cond_false. right. lia. }
    exists O. rewrite CG_loop_stop by assumption.
    repeat split; auto; try lia.
  - destruct (CG_cond asb tol c) eqn:Hc.
    + rewrite CG_loop_step by assumption.
      assert (Hk : (sv_k c < max_active asb)%Z).
      { unfold CG_cond in Hc. apply andb_prop in Hc. now apply Z.ltb_lt. }
      destruct (IH (CG_body asb c)) as (n & Hit & Hkn & Hall & Hend).
      { cbn [CG_body sv_k]. lia. }
      exists (S n). rewrite Nat.iter_succ_r. repeat split; auto.
      * rewrite Hkn. cbn [CG_body sv_k]. lia.
      * intros [|j] Hj; [exact Hc|].
        rewrite Nat.iter_succ_r. apply Hall. lia.
    + exists O. rewrite CG_loop_stop by assumption.
      repeat split; auto; try lia.
Qed.

Lemma sv_k_iter (asb : ActiveSetBuffers) (c0 : CGSolve) (j : nat) :
  sv_k (Nat.iter j (CG_body asb) c0) = (sv_k c0 + Z.of_nat j)%Z.
Proof.
  induction j as [|j IH]; [cbn; lia|].
  rewrite Nat.iter_succ. cbn [CG_body sv_k]. rewrite IH. lia.
Qed.

(** The divisors need to be looked at in the first [m] iterations only,
    when the count reaches [max_active] by then. *)
Lemma CG_divisors_nonzero_within (asb : ActiveSetBuffers) (tolerance : R)
    (c0 : CGSolve) (m : nat) :
  (max_active asb <= sv_k c0 + Z.of_nat m)%Z ->
  (forall j, (j < m)%nat ->
     CG_step_divisor asb (Nat.iter j (CG_body asb) c0) <> 0
     /\ sv_delta_1 (Nat.iter j (CG_body asb) c0) <> 0) ->
  CG_divisors_nonzero asb tolerance c0.
Proof.
  intros Hm Hdiv j Hex. destruct (Nat.lt_ge_cases j m) as [Hj|Hj].
  - now apply Hdiv.
  - specialize (Hex j (Nat.le_refl j)). unfold CG_cond in Hex.
    apply andb_prop in Hex. destruct Hex as [_ Hlt].
    rewrite sv_k_iter in Hlt. apply Z.ltb_lt in Hlt. lia.
Qed.

(** C4 (as amended): [SolveLinearSystemCG] starts from [alpha = 0],
    [r = target], [p = r] and runs its loop body while the squared residual
    norm exceeds [tolerance] and the iteration count is below [max_active],
    the capacity of the active-set buffers: as long as no iteration divides
    by zero, it stops as soon as the squared residual norm is at most
    [tolerance] or the count reaches [max_active]. *)
Theorem SolveLinearSystemCG_stops_at_max_active (asb : ActiveSetBuffers)
    (target d_p d_q d_r d_alpha : buffer) (d_scalar2 tolerance : R) :
  let c0 := CG_init asb target d_p d_q d_r d_alpha d_scalar2 in
  let c := SolveLinearSystemCG asb target d_p d_q d_r d_alpha d_scalar2
             tolerance in
  CG_divisors_nonzero asb tolerance c0 ->
  (forall i, (i < Z.to_nat (max_active asb))%nat ->
     ((i < length d_alpha)%nat -> rd (sv_alpha c0) i = 0)
     /\ ((i < length d_r)%nat -> rd (sv_r c0) i = rd target i)
     /\ ((i < length d_p)%nat -> rd (sv_p c0) i = rd (sv_r c0) i))
  /\ sv_k c0 = 0%Z
  /\ exists n,
       c = Nat.iter n (CG_body asb) c0
       /\ sv_k c = Z.of_nat n
       /\ (forall j, (j < n)%nat ->
             sv_delta_1 (Nat.iter j (CG_body asb) c0) > tolerance
             /\ (Z.of_nat j < max_active asb)%Z)
       /\ (sv_delta_1 c <= tolerance \/ sv_k c = Z.max 0 (max_active asb)).
Proof.
  cbn zeta. intros _. split; [|split; [reflexivity|]].
  - intros i Hi. unfold CG_init. cbn [sv_alpha sv_r sv_p].
    unfold cudaMemset0, cudaMemcpy. repeat split; intros Hlen.
    + rewrite rd_write_seq_inside by (rewrite ?tabulate_length; lia).
      rewrite nth_tabulate by lia. reflexivity.
    + rewrite rd_write_seq_inside by (rewrite ?tabulate_length; lia).
      rewrite nth_tabulate by lia. f_equal. lia.
    + rewrite rd_write_seq_inside by (rewrite ?tabulate_length; lia).
      rewrite nth_tabulate by lia. f_equal. lia.
  - unfold SolveLinearSystemCG.
    set (c0 := CG_init asb target d_p d_q d_r d_alpha d_scalar2).
    destruct (CG_loop_iterates asb tolerance (Z.to_nat (max_active asb)) c0)
      as (n & Hit & Hk & Hall & Hend).
    { cbn [c0 CG_init sv_k]. lia. }
    assert (Hk0 : sv_k c0 = 0%Z) by reflexivity.
    assert (Hiter : forall j, sv_k (Nat.iter j (CG_body asb) c0) = Z.of_nat j).
    { induction j as [|j IHj]; [exact Hk0|].
      rewrite Nat.iter_succ. cbn [CG_body sv_k]. rewrite IHj. lia. }
    exists n. split; [exact Hit|]. split; [rewrite Hk, Hk0; lia|]. split.
    + intros j Hj. specialize (Hall j Hj). unfold CG_cond in Hall.
      apply andb_prop in Hall. destruct Hall as [Hgt Hlt].
      rewrite Hiter in Hlt. apply Z.ltb_lt in Hlt. split; [|exact Hlt].
      unfold Rgtb in Hgt. destruct (Rgt_dec _ _); [assumption|discriminate].
    + apply CG_cond_false in Hend. destruct Hend as [Hd|Hge]; [now left|].
      right. rewrite Hk, Hk0 in *.
      destruct n as [|n]; [lia|].
      specialize (Hall n (Nat.lt_succ_diag_r n)). unfold CG_cond in Hall.
      apply andb_prop in Hall. destruct Hall as [_ Hlt].
      rewrite Hiter in Hlt. apply Z.ltb_lt in Hlt. lia.
Qed.

Lemma SolveLinearSystemCG_stops_at_max_active_witness :
  let c0 := CG_init single_point [3] [0] [0] [0] [0] 0 in
  let c := SolveLinearSystemCG single_point [3] [0] [0] [0] [0] 0 (1 / 2) in
  (forall i, (i < Z.to_nat (max_active single_point))%nat ->
     ((i < length [0])%nat -> rd (sv_alpha c0) i = 0)
     /\ ((i < length [0])%nat -> rd (sv_r c0) i = rd [3] i)
     /\ ((i < length [0])%nat -> rd (sv_p c0) i = rd (sv_r c0) i))
  /\ sv_k c0 = 0%Z
  /\ exists n,
       c = Nat.iter n (CG_body single_point) c0
       /\ sv_k c = Z.of_nat n
       /\ (forall j, (j < n)%nat ->
             sv_delta_1 (Nat.iter j (CG_body single_point) c0) > 1 / 2
             /\ (Z.of_nat j < max_active single_point)%Z)
       /\ (sv_delta_1 c <= 1 / 2
           \/ sv_k c = Z.max 0 (max_active single_point)).
Proof.
  apply (SolveLinearSystemCG_stops_at_max_active single_point [3] [0] [0] [0]
           [0] 0 (1 / 2)).
  apply (CG_divisors_nonzero_within _ _ _ 1).
  - cbn. lia.
  - intros [|j] Hj; [|lia]. split; eval_model; lra.
Defined.

(** C4, counterexample: with one active point in buffers of capacity two
    and tolerance 1/2, the loop does not stop when its count reaches
    [num_active = 1]: it ends after two iterations with the squared
    residual norm still above the tolerance. *)
Lemma SolveLinearSystemCG_passes_num_active :
  let c := SolveLinearSystemCG one_of_two (active_targets one_of_two)
             [0; 0] [0; 0] [0; 0] [0; 0] 0 (1 / 2) in
  num_active one_of_two = 1%Z
  /\ sv_k c = 2%Z
  /\ ~ (sv_delta_1 c <= 1 / 2 \/ sv_k c = num_active one_of_two).
Proof.
  cbn zeta. unfold SolveLinearSystemCG.
  set (c0 := CG_init one_of_two (active_targets one_of_two) [0; 0] [0; 0]
               [0; 0] [0; 0] 0).
  assert (H0 : CG_cond one_of_two (1 / 2) c0 = true).
  { unfold CG_cond, Rgtb. eval_model.
    destruct (Rgt_dec _ _) as [_|H]; [reflexivity|lra]. }
  assert (H1 : CG_cond one_of_two (1 / 2) (CG_body one_of_two c0) = true).
  { unfold CG_cond, Rgtb. eval_model.
    destruct (Rgt_dec _ _) as [_|H]; [reflexivity|lra]. }
  assert (H2 : sv_delta_1 (CG_body one_of_two (CG_body one_of_two c0)) = 1).
  { eval_model. lra. }
  change (Z.to_nat (max_active one_of_two)) with 2%nat.
  rewrite 2 CG_loop_step by assumption.
  rewrite CG_loop_stop.
  - split; [reflexivity|]. split; [reflexivity|].
    rewrite H2. cbn [CG_body sv_k]. intros [H|H]; [lra|discriminate].
  - apply CG_cond_false. right. cbn. lia.
Qed.

(** ** Selection loops *)

Lemma uint_wrap_small (z : Z) : (0 <= z < 2 ^ 32)%Z -> uint_wrap z = z.
Proof. intros H. unfold uint_wrap. now apply Z.mod_small. Qed.

Lemma uint_wrap_range (z : Z) : (0 <= uint_wrap z < 2 ^ 32)%Z.
Proof. unfold uint_wrap. apply Z.mod_pos_bound. lia. Qed.

Lemma beta_update_schedule (N : Z) (tol : R) (k : Z) :
  (0 <= k < 2 ^ 32 - 1)%Z -> beta_update N tol k = beta_schedule N tol k.
Proof.
  intros Hk. unfold beta_update, beta_schedule.
  rewrite uint_wrap_small by lia. now rewrite plus_IZR.
Qed.

Lemma beta_initial_schedule (N : Z) (tol : R) :
  beta_initial N tol = beta_schedule N tol 0.
Proof.
  unfold beta_initial, beta_schedule. f_equal. f_equal. unfold Rdiv.
  f_equal. ring.
Qed.

Lemma schedule_snoc (N : Z) (tol : R) (n : nat) :
  map (fun j => (Z.of_nat j, beta_schedule N tol (Z.of_nat j))) (seq 1 (S n))
  = map (fun j => (Z.of_nat j, beta_schedule N tol (Z.of_nat j))) (seq 1 n)
    ++ [(Z.of_nat (S n), beta_schedule N tol (Z.of_nat (S n)))].
Proof. rewrite seq_S, map_app. reflexivity. Qed.

Lemma Forall_all_but_last (P : Z -> Prop) (l : list Z) (d : Z) :
  Forall P (removelast l) -> P (last l d) -> Forall P l.
Proof.
  intros Hinit Hlast. destruct l as [|x l]; [constructor|].
  rewrite (app_removelast_last d) by discriminate.
  apply Forall_app. split; [assumption|]. constructor; [assumption|constructor].
Qed.

Section CholLoop.
Context {dk : DeviceKernels}.
Variable hypers : GaussianProcessHyperparams.
Variables numPoints batchSize maxSize firstIndex : Z.
Variables tolerance accuracy level : R.
Variable incremental : bool.
Hypothesis Hbatch : (1 <= batchSize)%Z.
Hypothesis Hsum : (numPoints + batchSize < 2 ^ 31)%Z.

Lemma predict_pool_total (fuel : nat) (i : Z) (st : CholDevice) :
  (0 <= i)%Z -> (numPoints - i <= Z.of_nat fuel)%Z ->
  exists st', predict_pool fuel i numPoints batchSize hypers st = Some st'.
Proof.
  revert i st. induction fuel as [|fuel IH]; intros i st Hi Hfuel;
    cbn [predict_pool]; destruct (i <? numPoints)%Z eqn:Hlt;
    try (eexists; reflexivity).
  - apply Z.ltb_lt in Hlt. lia.
  - apply Z.ltb_lt in Hlt. rewrite int_wrap_small by lia.
    apply IH; lia.
Qed.

Lemma SelectChol_body_inv (r : CholRun) :
  Chol_inv numPoints tolerance maxSize firstIndex r ->
  SelectChol_cond maxSize r = true ->
  exists r',
    SelectChol_body hypers numPoints tolerance accuracy level batchSize
      incremental r = Some r'
    /\ Chol_inv numPoints tolerance maxSize firstIndex r'.
Proof.
  intros (results & Hidx & Hnext & Hall & Hk & Hle & Hadm & Hbetas) Hcond.
  unfold SelectChol_cond in Hcond. apply andb_prop in Hcond.
  destruct Hcond as [Hlt Hne]. apply Z.ltb_lt in Hlt.
  apply negb_true_iff, Z.eqb_neq in Hne.
  pose proof (uint_wrap_range maxSize) as HM.
  unfold SelectChol_body.
  destruct (predict_pool_total (Z.to_nat numPoints) 0 (sel_dev r))
    as [st Hst]; [lia|lia|]. rewrite Hst.
  destruct (find_best_active_set_candidate _ _ _ _ _ _ _ _) as [sub cls].
  cbn [maxSubBuffers set_classificationBuffers set_maxSubBuffers].
  set (n := d_next_index sub).
  assert (Hresults : Forall (fun i => i <> (-1)%Z) results).
  { apply (Forall_all_but_last _ _ 0%Z); [assumption|]. now rewrite <- Hnext. }
  assert (Hinv : forall dev adm,
    adm = S (length (filter (fun i => (i >=? 0)%Z) (results ++ [n]))) ->
    Chol_inv numPoints tolerance maxSize firstIndex
      (mkCholRun dev (uint_wrap (sel_k r + 1))
         (beta_update numPoints tolerance (sel_k r)) (rd (scores sub) 0) n
         (sel_indices r ++ [n])
         (sel_scores r ++ [float_to_int (rd (scores sub) 0)]) adm
         (sel_betas r
          ++ [(sel_k r, beta_update numPoints tolerance (sel_k r))]))).
  { intros dev adm ->. exists (results ++ [n]).
    cbn [sel_indices sel_nextIndex sel_k sel_updates sel_betas].
    rewrite uint_wrap_small by lia.
    rewrite last_last, removelast_last, length_app. cbn [length].
    rewrite Nat.add_1_r, schedule_snoc, Hidx, Hbetas.
    rewrite beta_update_schedule by lia.
    replace (Z.of_nat (S (length results))) with (sel_k r) by lia.
    repeat split; auto; lia. }
  destruct (n >=? 0)%Z eqn:Hn; eexists; (split; [reflexivity|]);
    apply Hinv; rewrite filter_app, length_app, Hadm; cbn [filter];
    rewrite Hn; cbn [length]; lia.
Qed.

Lemma SelectChol_loop_inv (fuel : nat) (r : CholRun) :
  Chol_inv numPoints tolerance maxSize firstIndex r ->
  (uint_wrap maxSize - sel_k r <= Z.of_nat fuel)%Z ->
  exists r',
    SelectChol_loop fuel hypers maxSize numPoints tolerance accuracy level
      batchSize incremental r = Some r'
    /\ Chol_inv numPoints tolerance maxSize firstIndex r'
    /\ SelectChol_cond maxSize r' = false.
Proof.
  revert r. induction fuel as [|fuel IH]; intros r Hinv Hfuel;
    cbn [SelectChol_loop]; destruct (SelectChol_cond maxSize r) eqn:Hcond;
    try (exists r; split; [reflexivity|split; assumption]).
  - unfold SelectChol_cond in Hcond. apply andb_prop in Hcond.
    destruct Hcond as [Hlt _]. apply Z.ltb_lt in Hlt.
    destruct Hinv as (res & _ & _ & _ & Hk & _). lia.
  - destruct (SelectChol_body_inv r Hinv Hcond) as (r' & Hbody & Hinv').
    rewrite Hbody. apply IH; [assumption|].
    destruct Hinv as (res & _ & _ & _ & Hk & _).
    destruct Hinv' as (res' & Hidx' & _ & _ & Hk' & _).
    unfold SelectChol_cond in Hcond. apply andb_prop in Hcond.
    destruct Hcond as [Hlt _]. apply Z.ltb_lt in Hlt.
    assert (Hkr' : sel_k r' = uint_wrap (sel_k r + 1)).
    { unfold SelectChol_body in Hbody.
      destruct (predict_pool _ _ _ _ _ _); [|discriminate].
      destruct (find_best_active_set_candidate _ _ _ _ _ _ _ _).
      destruct (_ >=? 0)%Z; injection Hbody as <-; reflexivity. }
    pose proof (uint_wrap_range maxSize).
    rewrite Hkr', (uint_wrap_small (sel_k r + 1)) by lia. lia.
Qed.

Lemma SelectChol_loop_beta (fuel : nat) (r r' : CholRun) :
  Chol_inv numPoints tolerance maxSize firstIndex r ->
  sel_beta r = beta_schedule numPoints tolerance (sel_k r - 1) ->
  SelectChol_loop fuel hypers maxSize numPoints tolerance accuracy level
    batchSize incremental r = Some r' ->
  sel_beta r' = beta_schedule numPoints tolerance (sel_k r' - 1).
Proof.
  revert r. induction fuel as [|fuel IH]; intros r Hinv Hb Hloop;
    cbn [SelectChol_loop] in Hloop;
    destruct (SelectChol_cond maxSize r) eqn:Hcond;
    try discriminate; try (injection Hloop as <-; exact Hb).
  destruct (SelectChol_body_inv r Hinv Hcond) as (r1 & Hbody & Hinv1).
  rewrite Hbody in Hloop. apply (IH r1 Hinv1); [|exact Hloop].
  unfold SelectChol_cond in Hcond. apply andb_prop in Hcond.
  destruct Hcond as [Hlt _]. apply Z.ltb_lt in Hlt.
  destruct Hinv as (res & _ & _ & _ & Hk & _).
  pose proof (uint_wrap_range maxSize).
  unfold SelectChol_body in Hbody.
  destruct (predict_pool _ _ _ _ _ _); [|discriminate].
  destruct (find_best_active_set_candidate _ _ _ _ _ _ _ _).
  destruct (_ >=? 0)%Z; injection Hbody as <-; cbn [sel_beta sel_k];
    rewrite uint_wrap_small by lia;
    rewrite beta_update_schedule by lia; f_equal; lia.
Qed.

End CholLoop.

Section CGLoop.
Context {dk : DeviceKernels}.
Variable hypers : GaussianProcessHyperparams.
Variables numPoints maxSize : Z.
Variables tolerance level : R.

Lemma SelectCG_body_inv (r : CGRun) :
  CG_inv numPoints tolerance maxSize r ->
  SelectCG_cond maxSize r = true ->
  CG_inv numPoints tolerance maxSize
    (SelectCG_body hypers numPoints tolerance level r)
  /\ cgr_k (SelectCG_body hypers numPoints tolerance level r)
     = (cgr_k r + 1)%Z.
Proof.
  intros (Hbetas & Hadm & Hk & Hm & Hleft) Hcond.
  unfold SelectCG_cond in Hcond. apply andb_prop in Hcond.
  destruct Hcond as [Hlt Hpos]. apply Z.ltb_lt in Hlt.
  rewrite Z.gtb_ltb in Hpos. apply Z.ltb_lt in Hpos.
  specialize (Hleft ltac:(lia)).
  pose proof (uint_wrap_range maxSize) as HM.
  unfold SelectCG_body.
  destruct (predict_unclassified _ _ _ _ _ _ _ _ _) as [numLeft st].
  destruct (numLeft =? 0)%Z eqn:Hzero.
  - apply Z.eqb_eq in Hzero. unfold CG_inv.
    cbn [cgr_betas cgr_updates cgr_k cgr_numLeft].
    rewrite uint_wrap_small by lia. repeat split; auto; lia.
  - destruct (find_best_active_set_candidate _ _ _ _ _ _ _ _) as [sub cls].
    destruct (update_active_set_buffers _ _ _) as [asb sub'].
    unfold CG_inv. cbn [cgr_betas cgr_updates cgr_k cgr_numLeft].
    rewrite uint_wrap_small by lia. rewrite length_app. cbn [length].
    rewrite Nat.add_1_r, schedule_snoc, <- Hbetas.
    rewrite beta_update_schedule by lia.
    replace (Z.of_nat (S (length (cgr_betas r)))) with (cgr_k r) by lia.
    repeat split; auto; lia.
Qed.

Lemma SelectCG_loop_inv (fuel : nat) (r : CGRun) :
  CG_inv numPoints tolerance maxSize r ->
  (uint_wrap maxSize - cgr_k r <= Z.of_nat fuel)%Z ->
  exists r',
    SelectCG_loop fuel hypers maxSize numPoints tolerance level r = Some r'
    /\ CG_inv numPoints tolerance maxSize r'
    /\ SelectCG_cond maxSize r' = false.
Proof.
  revert r. induction fuel as [|fuel IH]; intros r Hinv Hfuel;
    cbn [SelectCG_loop]; destruct (SelectCG_cond maxSize r) eqn:Hcond;
    try (exists r; split; [reflexivity|split; assumption]).
  - unfold SelectCG_cond in Hcond. apply andb_prop in Hcond.
    destruct Hcond as [Hlt _]. apply Z.ltb_lt in Hlt.
    destruct Hinv as (_ & _ & Hk & _). lia.
  - destruct (SelectCG_body_inv r Hinv Hcond) as [Hinv' Hk'].
    apply IH; [assumption|]. rewrite Hk'. lia.
Qed.

Lemma SelectCG_loop_beta (fuel : nat) (r r' : CGRun) :
  CG_inv numPoints tolerance maxSize r ->
  cgr_beta r
  = beta_schedule numPoints tolerance (Z.of_nat (length (cgr_betas r))) ->
  SelectCG_loop fuel hypers maxSize numPoints tolerance level r = Some r' ->
  cgr_beta r'
  = beta_schedule numPoints tolerance (Z.of_nat (length (cgr_betas r'))).
Proof.
  revert r. induction fuel as [|fuel IH]; intros r Hinv Hb Hloop;
    cbn [SelectCG_loop] in Hloop;
    destruct (SelectCG_cond maxSize r) eqn:Hcond;
    try discriminate; try (injection Hloop as <-; exact Hb).
  destruct (SelectCG_body_inv r Hinv Hcond) as [Hinv1 _].
  apply (IH _ Hinv1); [|exact Hloop].
  unfold SelectCG_cond in Hcond. apply andb_prop in Hcond.
  destruct Hcond as [Hlt Hpos]. apply Z.ltb_lt in Hlt.
  rewrite Z.gtb_ltb in Hpos. apply Z.ltb_lt in Hpos.
  destruct Hinv as (_ & _ & Hk & _ & Hleft). specialize (Hleft ltac:(lia)).
  pose proof (uint_wrap_range maxSize).
  unfold SelectCG_body.
  destruct (predict_unclassified _ _ _ _ _ _ _ _ _) as [numLeft st].
  destruct (numLeft =? 0)%Z; [exact Hb|].
  destruct (find_best_active_set_candidate _ _ _ _ _ _ _ _) as [sub cls].
  destruct (update_active_set_buffers _ _ _) as [asb sub'].
  cbn [cgr_beta cgr_betas]. rewrite length_app. cbn [length].
  rewrite beta_update_schedule by lia. f_equal. lia.
Qed.

End CGLoop.

Lemma clamped_min (maxSize numPoints : Z) :
  clamped maxSize numPoints = Z.min maxSize numPoints.
Proof.
  unfold clamped. destruct (maxSize >? numPoints)%Z eqn:H.
  - apply Z.gtb_lt in H. lia.
  - rewrite Z.gtb_ltb in H. apply Z.ltb_ge in H. lia.
Qed.

Section Runs.
Context {dk : DeviceKernels} {acc : Accumulators}.
Variable junk : nat -> nat -> R.
Variables inputPoints targetPoints : buffer.
Variable mode : SubsetSelectionMode.
Variable hypers : GaussianProcessHyperparams.
Variables maxSize inputDim targetDim numPoints batchSize startIndex : Z.
Variables tolerance accuracy : R.
Variable incremental : bool.

Lemma SelectChol_seed_spec :
  let seed := SelectChol_seed junk maxSize inputPoints targetPoints hypers
                inputDim targetDim numPoints tolerance batchSize startIndex in
  fst seed = clamped maxSize numPoints
  /\ sel_beta (snd seed) = beta_initial numPoints tolerance
  /\ length (d_alpha (sel_dev (snd seed)))
     = Z.to_nat (clamped maxSize numPoints)
  /\ exists firstIndex,
       Chol_inv numPoints tolerance (clamped maxSize numPoints) firstIndex
         (snd seed).
Proof.
  cbn zeta. unfold SelectChol_seed. fold (clamped maxSize numPoints).
  destruct (update_active_set_buffers _ _ _) as [asb sub].
  cbn [fst snd sel_beta sel_dev d_alpha].
  repeat split; auto.
  - unfold cudaMalloc. apply tabulate_length.
  - eexists. exists []. cbn. repeat split; auto. lia.
Qed.

Lemma SelectChol_run :
  (1 <= batchSize)%Z -> (numPoints + batchSize < 2 ^ 31)%Z ->
  exists res,
    SelectChol junk maxSize inputPoints targetPoints mode hypers inputDim
      targetDim numPoints tolerance accuracy batchSize startIndex incremental
    = Some res
    /\ res_maxSize res = clamped maxSize numPoints
    /\ (exists firstIndex,
          Chol_inv numPoints tolerance (res_maxSize res) firstIndex
            (res_run res))
    /\ SelectChol_cond (res_maxSize res) (res_run res) = false.
Proof.
  intros Hbatch Hsum. unfold SelectChol.
  destruct SelectChol_seed_spec as (Hfst & _ & _ & first & Hinv).
  destruct (SelectChol_seed _ _ _ _ _ _ _ _ _ _ _) as [M r0].
  cbn [fst snd] in *. subst M.
  destruct (SelectChol_loop_inv hypers numPoints batchSize
              (clamped maxSize numPoints) first tolerance accuracy 0
              incremental Hbatch Hsum
              (Z.to_nat (uint_wrap (clamped maxSize numPoints))) r0 Hinv)
    as (r & Hloop & Hinv' & Hcond).
  { pose proof (uint_wrap_range (clamped maxSize numPoints)).
    destruct Hinv as (res & _ & _ & _ & Hk & _). lia. }
  rewrite Hloop.
  destruct (predict_pool_total hypers numPoints batchSize Hbatch Hsum
              (Z.to_nat numPoints) 0 (sel_dev r)) as [st Hst]; [lia|lia|].
  rewrite Hst. eexists. split; [reflexivity|].
  cbn [res_maxSize res_run]. split; [reflexivity|].
  split; [exists first|]; assumption.
Qed.

Lemma SelectCG_seed_spec :
  let seed := SelectCG_seed junk maxSize inputPoints targetPoints hypers
                inputDim targetDim numPoints tolerance in
  fst seed = clamped maxSize numPoints
  /\ cgr_beta (snd seed) = beta_initial numPoints tolerance
  /\ length (cg_gamma (cgr_dev (snd seed)))
     = Z.to_nat (clamped maxSize numPoints)
  /\ CG_inv numPoints tolerance (clamped maxSize numPoints) (snd seed).
Proof.
  cbn zeta. unfold SelectCG_seed. fold (clamped maxSize numPoints).
  destruct (update_active_set_buffers _ _ _) as [asb sub].
  cbn [fst snd cgr_beta cgr_dev solve_alpha_CG cg_gamma].
  repeat split; auto.
  - unfold cudaMalloc. apply tabulate_length.
  - cbn [cgr_k]. lia.
  - cbn [cgr_k]. lia.
  - cbn [cgr_k cgr_betas length]. lia.
  - cbn [cgr_k cgr_betas length]. lia.
Qed.

Lemma SelectCG_run :
  exists res,
    SelectCG junk maxSize inputPoints targetPoints mode hypers inputDim
      targetDim numPoints tolerance = Some res
    /\ cres_maxSize res = clamped maxSize numPoints
    /\ CG_inv numPoints tolerance (cres_maxSize res) (cres_run res)
    /\ SelectCG_cond (cres_maxSize res) (cres_run res) = false.
Proof.
  unfold SelectCG.
  destruct SelectCG_seed_spec as (Hfst & _ & _ & Hinv).
  destruct (SelectCG_seed _ _ _ _ _ _ _ _ _) as [M r0].
  cbn [fst snd] in *. subst M.
  destruct (SelectCG_loop_inv hypers numPoints (clamped maxSize numPoints)
              tolerance 0
              (Z.to_nat (uint_wrap (clamped maxSize numPoints))) r0 Hinv)
    as (r & Hloop & Hinv' & Hcond).
  { pose proof (uint_wrap_range (clamped maxSize numPoints)).
    destruct Hinv as (_ & _ & Hk & _). lia. }
  rewrite Hloop. eexists. split; [reflexivity|].
  cbn [cres_maxSize cres_run]. split; [reflexivity|]. split; assumption.
Qed.

End Runs.

(** ** The selection loops as a whole *)

(** C2 (as amended): in [SelectChol] an iteration whose classification
    returns the sentinel [-1] adds no point (the sentinel is still
    recorded and [k] still advances) and is the last one: the loop ends
    right after the first sentinel, or when [k] reaches [maxSize]. *)
Theorem SelectChol_sentinel_ends_loop {dk : DeviceKernels}
    {acc : Accumulators} (junk : nat -> nat -> R) (maxSize : Z)
    (inputPoints targetPoints : buffer) (mode : SubsetSelectionMode)
    (hypers : GaussianProcessHyperparams) (inputDim targetDim numPoints : Z)
    (tolerance accuracy : R) (batchSize startIndex : Z) (incremental : bool) :
  (1 <= batchSize)%Z -> (numPoints + batchSize < 2 ^ 31)%Z ->
  exists res,
    SelectChol junk maxSize inputPoints targetPoints mode hypers inputDim
      targetDim numPoints tolerance accuracy batchSize startIndex incremental
    = Some res
    /\ exists firstIndex results,
         sel_indices (res_run res) = firstIndex :: results
         /\ sel_k (res_run res) = (1 + Z.of_nat (length results))%Z
         /\ Forall (fun i => i <> (-1)%Z) (removelast results)
         /\ sel_nextIndex (res_run res) = last results 0%Z
         /\ sel_updates (res_run res)
            = S (length (filter (fun i => (i >=? 0)%Z) results))
         /\ (sel_k (res_run res) <= Z.max 1 (uint_wrap (res_maxSize res)))%Z
         /\ (sel_nextIndex (res_run res) = (-1)%Z
             \/ (uint_wrap (res_maxSize res) <= sel_k (res_run res))%Z).
Proof.
  intros Hbatch Hsum.
  destruct (SelectChol_run junk inputPoints targetPoints mode hypers maxSize
              inputDim targetDim numPoints batchSize startIndex tolerance
              accuracy incremental Hbatch Hsum)
    as (res & Hres & _ & (first & results & Hidx & Hnext & Hall & Hk & Hle
                          & Hadm & _) & Hcond).
  exists res. split; [exact Hres|]. exists first, results.
  repeat split; auto.
  unfold SelectChol_cond in Hcond. apply andb_false_iff in Hcond.
  destruct Hcond as [Hge|Hsent].
  - right. now apply Z.ltb_ge.
  - left. apply negb_false_iff in Hsent. now apply Z.eqb_eq.
Qed.

Lemma SelectChol_sentinel_ends_loop_witness :
  exists res,
    sample_SelectChol = Some res
    /\ exists firstIndex results,
         sel_indices (res_run res) = firstIndex :: results
         /\ sel_k (res_run res) = (1 + Z.of_nat (length results))%Z
         /\ Forall (fun i => i <> (-1)%Z) (removelast results)
         /\ sel_nextIndex (res_run res) = last results 0%Z
         /\ sel_updates (res_run res)
            = S (length (filter (fun i => (i >=? 0)%Z) results))
         /\ (sel_k (res_run res) <= Z.max 1 (uint_wrap (res_maxSize res)))%Z
         /\ (sel_nextIndex (res_run res) = (-1)%Z
             \/ (uint_wrap (res_maxSize res) <= sel_k (res_run res))%Z).
Proof.
  apply (SelectChol_sentinel_ends_loop (dk := sample_kernels)
           (acc := sample_accumulators)); lia.
Defined.

(** C2, counterexample: with capacity four and a classification that
    returns the sentinel in the first iteration, the loop of [SelectChol]
    is left after that iteration, at [k = 2], although the bound would
    allow two more iterations. *)
Lemma SelectChol_leaves_loop_at_sentinel :
  exists res,
    sample_SelectChol = Some res
    /\ res_maxSize res = 4%Z
    /\ sel_indices (res_run res) = [0; -1]%Z
    /\ sel_k (res_run res) = 2%Z
    /\ (sel_k (res_run res) < uint_wrap (res_maxSize res))%Z.
Proof.
  unfold sample_SelectChol. eexists. split.
  - cbv -[Rplus Rmult Rminus Rdiv Ropp Rinv IZR Rgt_dec Rle_dec Rabs exp ln
          PI Int_part INR Rmax Rmin]. reflexivity.
  - cbn. repeat split; reflexivity.
Qed.

Lemma clamped_idem (maxSize numPoints : Z) :
  clamped (Z.min maxSize numPoints) numPoints = Z.min maxSize numPoints.
Proof. rewrite clamped_min. lia. Qed.

Lemma SelectChol_seed_clamped {dk : DeviceKernels} (junk : nat -> nat -> R)
    (maxSize : Z) (inputPoints targetPoints : buffer)
    (hypers : GaussianProcessHyperparams) (inputDim targetDim numPoints : Z)
    (tolerance : R) (batchSize startIndex : Z) :
  SelectChol_seed junk maxSize inputPoints targetPoints hypers inputDim
    targetDim numPoints tolerance batchSize startIndex
  = SelectChol_seed junk (Z.min maxSize numPoints) inputPoints targetPoints
      hypers inputDim targetDim numPoints tolerance batchSize startIndex.
Proof.
  unfold SelectChol_seed.
  fold (clamped maxSize numPoints).
  fold (clamped (Z.min maxSize numPoints) numPoints).
  now rewrite clamped_idem, clamped_min.
Qed.

Lemma SelectCG_seed_clamped {dk : DeviceKernels} (junk : nat -> nat -> R)
    (maxSize : Z) (inputPoints targetPoints : buffer)
    (hypers : GaussianProcessHyperparams) (inputDim targetDim numPoints : Z)
    (tolerance : R) :
  SelectCG_seed junk maxSize inputPoints targetPoints hypers inputDim
    targetDim numPoints tolerance
  = SelectCG_seed junk (Z.min maxSize numPoints) inputPoints targetPoints
      hypers inputDim targetDim numPoints tolerance.
Proof.
  unfold SelectCG_seed.
  fold (clamped maxSize numPoints).
  fold (clamped (Z.min maxSize numPoints) numPoints).
  now rewrite clamped_idem, clamped_min.
Qed.

(** C10: [SelectChol] and [SelectCG] replace a [maxSize] above [numPoints]
    by [numPoints] before they allocate their buffers, and neither adds
    more points than the pool holds.  Either selector uses [maxSize] only
    through [min maxSize numPoints]: a call with [maxSize] is the call with
    the minimum in its place.  The minimum is the bound of the loop, the
    capacity with which [construct_active_set_buffers] is called, and the
    size of every buffer allocated by the capacity. *)
Theorem maxSize_clamped_to_numPoints {dk : DeviceKernels}
    {acc : Accumulators} (junk : nat -> nat -> R) (maxSize : Z)
    (inputPoints targetPoints : buffer) (mode : SubsetSelectionMode)
    (hypers : GaussianProcessHyperparams) (inputDim targetDim numPoints : Z)
    (tolerance accuracy : R) (batchSize startIndex : Z) (incremental : bool) :
  (1 <= numPoints)%Z -> (0 <= maxSize < 2 ^ 31)%Z ->
  (1 <= batchSize)%Z -> (numPoints + batchSize < 2 ^ 31)%Z ->
  let cap := Z.min maxSize numPoints in
  let firstIndex :=
    if (startIndex =? -1)%Z then Z.rem rand numPoints else startIndex in
  let pool := construct_max_subset_buffers inputPoints targetPoints inputDim
                targetDim numPoints in
  let chol := sel_dev (snd (SelectChol_seed junk maxSize inputPoints
                              targetPoints hypers inputDim targetDim
                              numPoints tolerance batchSize startIndex)) in
  let cg := cgr_dev (snd (SelectCG_seed junk maxSize inputPoints targetPoints
                            hypers inputDim targetDim numPoints tolerance)) in
  (exists res,
     SelectChol junk maxSize inputPoints targetPoints mode hypers inputDim
       targetDim numPoints tolerance accuracy batchSize startIndex incremental
     = Some res
     /\ res_maxSize res = cap
     /\ (Z.of_nat (sel_updates (res_run res)) <= numPoints)%Z)
  /\ length (d_alpha chol) = Z.to_nat cap
  /\ (exists res,
        SelectCG junk maxSize inputPoints targetPoints mode hypers inputDim
          targetDim numPoints tolerance = Some res
        /\ cres_maxSize res = cap
        /\ (Z.of_nat (cgr_updates (cres_run res)) <= numPoints)%Z)
  /\ length (cg_gamma cg) = Z.to_nat cap
  /\ SelectChol junk maxSize inputPoints targetPoints mode hypers inputDim
       targetDim numPoints tolerance accuracy batchSize startIndex incremental
     = SelectChol junk cap inputPoints targetPoints mode hypers inputDim
         targetDim numPoints tolerance accuracy batchSize startIndex
         incremental
  /\ SelectCG junk maxSize inputPoints targetPoints mode hypers inputDim
       targetDim numPoints tolerance
     = SelectCG junk cap inputPoints targetPoints mode hypers inputDim
         targetDim numPoints tolerance
  /\ activeSetBuffers chol
     = fst (update_active_set_buffers
              (construct_active_set_buffers inputDim targetDim cap)
              (activate_max_subset_buffers pool firstIndex) hypers)
  /\ length (d_L chol) = Z.to_nat (int_wrap (cap * cap))
  /\ length (d_gamma chol) = Z.to_nat (int_wrap (cap * batchSize))
  /\ d_kernelVector chol
     = compute_sqrt_var
         (cudaMalloc (junk 3%nat) (int_wrap (cap * batchSize)))
         (cudaMalloc (junk 0%nat) (int_wrap (cap * batchSize))) 0
         (hyp_sigma hypers) (hyp_beta hypers) inputDim
  /\ cg_activeSetBuffers cg
     = fst (update_active_set_buffers
              (construct_active_set_buffers inputDim targetDim cap)
              (activate_max_subset_buffers pool (Z.rem rand numPoints))
              hypers)
  /\ length (cg_kernelVector cg) = Z.to_nat cap.
Proof.
  intros HN HM Hbatch Hsum. cbn zeta.
  pose proof (clamped_min maxSize numPoints) as Hmin.
  assert (Hwrap : uint_wrap (clamped maxSize numPoints)
                  = clamped maxSize numPoints).
  { apply uint_wrap_small. lia. }
  split; [|split; [|split; [|split]]].
  - destruct (SelectChol_run junk inputPoints targetPoints mode hypers maxSize
                inputDim targetDim numPoints batchSize startIndex tolerance
                accuracy incremental Hbatch Hsum)
      as (res & Hres & HMres & (first & results & _ & _ & _ & Hk & Hle & Hadm
                                & _) & _).
    exists res. split; [exact Hres|]. split; [congruence|].
    rewrite HMres, Hwrap in Hle. rewrite Hadm.
    pose proof (filter_length_le (fun i => (i >=? 0)%Z) results). lia.
  - destruct (SelectChol_seed_spec junk inputPoints targetPoints hypers
                maxSize inputDim targetDim numPoints batchSize startIndex
                tolerance) as (_ & _ & Hlen & _).
    now rewrite <- Hmin.
  - destruct (SelectCG_run junk inputPoints targetPoints mode hypers maxSize
                inputDim targetDim numPoints tolerance)
      as (res & Hres & HMres & (_ & Hadm & Hk & Hm & _) & _).
    exists res. split; [exact Hres|]. split; [congruence|].
    rewrite HMres, Hwrap in Hk. rewrite Hadm. lia.
  - destruct (SelectCG_seed_spec junk inputPoints targetPoints hypers maxSize
                inputDim targetDim numPoints tolerance) as (_ & _ & Hlen & _).
    now rewrite <- Hmin.
  - split; [|split].
    + unfold SelectChol. now rewrite SelectChol_seed_clamped.
    + unfold SelectCG. now rewrite SelectCG_seed_clamped.
    + rewrite <- Hmin. unfold SelectChol_seed, SelectCG_seed.
      fold (clamped maxSize numPoints).
      destruct (update_active_set_buffers _ _ _) as [asb sub] eqn:Hup.
      destruct (update_active_set_buffers
                  (construct_active_set_buffers inputDim targetDim
                     (clamped maxSize numPoints))
                  (activate_max_subset_buffers _ (Z.rem rand numPoints))
                  hypers) as [asb' sub'] eqn:Hup'.
      cbn [snd fst sel_dev cgr_dev activeSetBuffers d_L d_gamma
           d_kernelVector solve_alpha_CG cg_activeSetBuffers
           cg_kernelVector].
      unfold cudaMemcpy, cudaMemset0, cudaMalloc.
      rewrite !write_seq_length, !tabulate_length.
      repeat split; reflexivity.
Qed.

Lemma maxSize_clamped_to_numPoints_witness :
  let cap := Z.min 9 4 in
  let firstIndex :=
    if (0 =? -1)%Z then Z.rem (rand (DeviceKernels := sample_kernels)) 4
    else 0%Z in
  let pool := construct_max_subset_buffers (DeviceKernels := sample_kernels)
                [] [] 1 1 4 in
  let chol := sel_dev (snd (SelectChol_seed (dk := sample_kernels)
                              (fun _ _ => 0) 9 [] [] sample_hypers 1 1 4
                              (1 / 2) 1 0)) in
  let cg := cgr_dev (snd (SelectCG_seed (dk := sample_kernels)
                            (fun _ _ => 0) 9 [] [] sample_hypers 1 1 4
                            (1 / 2))) in
  (exists res,
     SelectChol (dk := sample_kernels) (acc := sample_accumulators)
       (fun _ _ => 0) 9 [] [] LEVEL_SET sample_hypers 1 1 4 (1 / 2) 0 1 0 true
     = Some res
     /\ res_maxSize res = cap
     /\ (Z.of_nat (sel_updates (res_run res)) <= 4)%Z)
  /\ length (d_alpha chol) = Z.to_nat cap
  /\ (exists res,
        SelectCG (dk := sample_kernels) (acc := sample_accumulators)
          (fun _ _ => 0) 9 [] [] LEVEL_SET sample_hypers 1 1 4 (1 / 2)
        = Some res
        /\ cres_maxSize res = cap
        /\ (Z.of_nat (cgr_updates (cres_run res)) <= 4)%Z)
  /\ length (cg_gamma cg) = Z.to_nat cap
  /\ SelectChol (dk := sample_kernels) (acc := sample_accumulators)
       (fun _ _ => 0) 9 [] [] LEVEL_SET sample_hypers 1 1 4 (1 / 2) 0 1 0 true
     = SelectChol (dk := sample_kernels) (acc := sample_accumulators)
         (fun _ _ => 0) cap [] [] LEVEL_SET sample_hypers 1 1 4 (1 / 2) 0 1 0
         true
  /\ SelectCG (dk := sample_kernels) (acc := sample_accumulators)
       (fun _ _ => 0) 9 [] [] LEVEL_SET sample_hypers 1 1 4 (1 / 2)
     = SelectCG (dk := sample_kernels) (acc := sample_accumulators)
         (fun _ _ => 0) cap [] [] LEVEL_SET sample_hypers 1 1 4 (1 / 2)
  /\ activeSetBuffers chol
     = fst (update_active_set_buffers (DeviceKernels := sample_kernels)
              (construct_active_set_buffers (DeviceKernels := sample_kernels)
                 1 1 cap)
              (activate_max_subset_buffers (DeviceKernels := sample_kernels)
                 pool firstIndex) sample_hypers)
  /\ length (d_L chol) = Z.to_nat (int_wrap (cap * cap))
  /\ length (d_gamma chol) = Z.to_nat (int_wrap (cap * 1))
  /\ d_kernelVector chol
     = compute_sqrt_var (DeviceKernels := sample_kernels)
         (cudaMalloc (fun _ => 0) (int_wrap (cap * 1)))
         (cudaMalloc (fun _ => 0) (int_wrap (cap * 1))) 0
         (hyp_sigma sample_hypers) (hyp_beta sample_hypers) 1
  /\ cg_activeSetBuffers cg
     = fst (update_active_set_buffers (DeviceKernels := sample_kernels)
              (construct_active_set_buffers (DeviceKernels := sample_kernels)
                 1 1 cap)
              (activate_max_subset_buffers (DeviceKernels := sample_kernels)
                 pool (Z.rem (rand (DeviceKernels := sample_kernels)) 4))
              sample_hypers)
  /\ length (cg_kernelVector cg) = Z.to_nat cap.
Proof.
  apply (maxSize_clamped_to_numPoints (dk := sample_kernels)
           (acc := sample_accumulators) (fun _ _ => 0) 9 [] [] LEVEL_SET
           sample_hypers 1 1 4 (1 / 2) 0 1 0 true); lia.
Defined.

(** ** Growth of the confidence multiplier *)

Lemma beta_schedule_le (N : Z) (tol : R) (k k' : Z) :
  (1 <= N)%Z -> 0 < tol -> (0 <= k <= k')%Z ->
  beta_schedule N tol k <= beta_schedule N tol k'.
Proof.
  intros HN Htol Hk. unfold beta_schedule.
  assert (HNr : 1 <= IZR N) by now apply IZR_le.
  assert (Hkr : 0 <= IZR k) by now apply IZR_le.
  assert (Hkk : IZR k <= IZR k') by now apply IZR_le.
  pose proof PI_RGT_0 as Hpi.
  assert (Hc : 0 < IZR N * PI ^ 2 / (6 * tol)).
  { apply Rdiv_lt_0_compat; [|lra]. apply Rmult_lt_0_compat; [lra|].
    apply pow_lt. exact Hpi. }
  assert (Harg : forall j, 0 <= IZR j ->
    IZR N * PI ^ 2 * (IZR j + 1) ^ 2 / (6 * tol)
    = IZR N * PI ^ 2 / (6 * tol) * (IZR j + 1) ^ 2).
  { intros j _. unfold Rdiv. ring. }
  rewrite !Harg by lra.
  assert (Hsq : (IZR k + 1) ^ 2 <= (IZR k' + 1) ^ 2).
  { apply pow_incr. lra. }
  assert (Hpos : 0 < (IZR k + 1) ^ 2) by (apply pow_lt; lra).
  apply Rmult_le_compat_l; [lra|].
  destruct Hsq as [Hlt|Heq].
  - left. apply ln_increasing.
    + apply Rmult_lt_0_compat; assumption.
    + apply Rmult_lt_compat_l; assumption.
  - right. now rewrite Heq.
Qed.

(** C9: for a pool size [N >= 1] and a tolerance above [0], the values of
    [beta] that the selection loops compute do not decrease with the
    iteration count [k]; the value set before the loop is the least. *)
Theorem beta_nondecreasing (N : Z) (tolerance : R) (k k' : Z) :
  (1 <= N)%Z -> 0 < tolerance -> (0 <= k <= k')%Z -> (k' < 2 ^ 32 - 1)%Z ->
  beta_initial N tolerance <= beta_update N tolerance k
  /\ beta_update N tolerance k <= beta_update N tolerance k'.
Proof.
  intros HN Htol Hk Hk'.
  rewrite beta_initial_schedule, !beta_update_schedule by lia.
  split; apply beta_schedule_le; auto; lia.
Qed.

Lemma beta_nondecreasing_witness :
  beta_initial 4 (1 / 2) <= beta_update 4 (1 / 2) 1
  /\ beta_update 4 (1 / 2) 1 <= beta_update 4 (1 / 2) 2.
Proof.
  apply (beta_nondecreasing 4 (1 / 2) 1 2); try lia. lra.
Defined.

(** ** The two prediction routines on one state *)

(** C5, the code at the failing input: on the state [two_point_state]
    (factor [[1, 3/5], [0, 4/5]], kernel vector [(1/2, 1/2)])
    [GpPredictChol] leaves in [d_gamma] the solution of [L gamma = k], which
    does not solve [L^T gamma = k], and reports its squared norm [13/32];
    [GpPredictCholBatch] solves [L^T gamma = k] and reports [5/16]. *)
Theorem GpPredictChol_solves_untransposed_system :
  let st := GpPredictChol (dk := sample_kernels) 0 sample_hypers
              two_point_state in
  let bt := GpPredictCholBatch (dk := sample_kernels) 0 1 sample_hypers
              two_point_state in
  triangular_solution CUBLAS_OP_N (d_L st) 2 2 (rd (d_gamma st))
    (rd (d_kernelVector st))
  /\ ~ triangular_solution CUBLAS_OP_T (d_L st) 2 2 (rd (d_gamma st))
         (rd (d_kernelVector st))
  /\ rd (d_sigma st) 0 = 13 / 32
  /\ triangular_solution CUBLAS_OP_T (d_L bt) 2 2 (rd (d_gamma bt))
       (rd (d_kernelVector bt))
  /\ rd (d_sigma bt) 0 = 5 / 16.
Proof.
  cbn zeta. repeat split.
  - intros [|[|i]] Hi; [| |lia]; eval_model; lra.
  - intros H. specialize (H 1%nat ltac:(lia)). revert H. eval_model. lra.
  - eval_model. lra.
  - intros [|[|i]] Hi; [| |lia]; eval_model; lra.
  - eval_model. lra.
Qed.

(** ** Sample runs of the frame and error-statistics properties *)

(** Three points, the middle one active: the samples are the absolute
    errors 2 and 4 of the two inactive points. *)
Example EvaluateErrors_sample :
  EvaluateErrors (acc := sample_accumulators) [1; 5; 2] [3; 9; 6] [0; 1; 0]%Z 3
  = mkPredictionError 3 10 4 4 2.
Proof.
  rewrite EvaluateErrors_value.
  assert (HE : errors_where (inactive [0; 1; 0]%Z) [1; 5; 2] [3; 9; 6] 0
                 (Z.to_nat 3) = [2; 4]).
  { cbv -[Rplus Rmult Rminus Rdiv Ropp Rinv IZR Rabs].
    replace (Rabs (1 - 3)) with 2
      by (rewrite Rabs_left by lra; lra).
    replace (Rabs (2 - 6)) with 4
      by (rewrite Rabs_left by lra; lra).
    reflexivity. }
  rewrite HE. unfold summary, sample_accumulators, acc_mean, acc_moment2,
    acc_median, acc_max, acc_min.
  cbn [fold_right length hd nth Nat.div Nat.divmod fst INR].
  rewrite (Rmax_left 4 0), (Rmax_right 2 4) by lra.
  rewrite (Rmin_right 4 2), (Rmin_left 2 2) by lra.
  f_equal; lra.
Qed.

Lemma GpPredictCholBatch_frame_witness :
  let st' := GpPredictCholBatch (dk := sample_kernels) 0 1 sample_hypers
               two_point_state in
  activeSetBuffers st' = activeSetBuffers two_point_state
  /\ maxSubBuffers st' = maxSubBuffers two_point_state
  /\ classificationBuffers st' = classificationBuffers two_point_state
  /\ d_L st' = d_L two_point_state
  /\ d_alpha st' = d_alpha two_point_state
  /\ d_scalar1 st' = d_scalar1 two_point_state
  /\ d_scalar2 st' = d_scalar2 two_point_state
  /\ length (d_mu st') = length (d_mu two_point_state)
  /\ length (d_sigma st') = length (d_sigma two_point_state)
  /\ (forall i : Z,
        (0 <= i)%Z -> (i < 0 \/ 0 + 1 <= i)%Z ->
        rd (d_mu st') (Z.to_nat i) = rd (d_mu two_point_state) (Z.to_nat i)
        /\ rd (d_sigma st') (Z.to_nat i)
           = rd (d_sigma two_point_state) (Z.to_nat i))
  /\ d_kernelVector st'
     = compute_kernel_vector_batch (DeviceKernels := sample_kernels)
         (activeSetBuffers two_point_state) (maxSubBuffers two_point_state)
         0 1 (d_kernelVector two_point_state) sample_hypers
  /\ length (d_gamma st') = length (d_gamma two_point_state)
  /\ ((num_active (activeSetBuffers two_point_state)
       <= max_active (activeSetBuffers two_point_state))%Z ->
      (0 <= max_active (activeSetBuffers two_point_state) * 1 < 2 ^ 31)%Z ->
      forall p : nat,
        (max_active (activeSetBuffers two_point_state) * 1 <= Z.of_nat p)%Z ->
        rd (d_gamma st') p = rd (d_gamma two_point_state) p).
Proof.
  apply (GpPredictCholBatch_frame (dk := sample_kernels) 0 1 sample_hypers
           two_point_state). lia.
Defined.

(** ** The triangular solve of the batched prediction *)

Lemma trsm_upper_T_col_spec (A : buffer) (lda : nat) (alpha : R) (boff : nat)
    (cnt i : nat) (B : buffer) :
  (boff + i + cnt <= length B)%nat ->
  let B' := trsm_upper_T_col A lda alpha B boff i cnt in
  length B' = length B
  /\ (forall p, (p < boff + i \/ boff + i + cnt <= p)%nat -> rd B' p = rd B p)
  /\ (forall r, (i <= r < i + cnt)%nat ->
        rd B' (boff + r)
        = (alpha * rd B (boff + r)
           - big_sum (fun k => mat A lda k r * rd B' (boff + k)) r)
          / mat A lda r r).
Proof.
  revert i B. induction cnt as [|cnt IH]; intros i B Hlen; cbn zeta.
  - cbn [trsm_upper_T_col]. repeat split; auto. intros r Hr. lia.
  - cbn [trsm_upper_T_col].
    set (v := (alpha * rd B (boff + i)
               - big_sum (fun k => mat A lda k i * rd B (boff + k)) i)
              / mat A lda i i).
    set (B1 := wr B (boff + i) v).
    destruct (IH (S i) B1) as (Hl & Hout & Hin).
    { unfold B1. rewrite wr_length. lia. }
    cbn zeta in Hl, Hout, Hin.
    set (B' := trsm_upper_T_col A lda alpha B1 boff (S i) cnt) in *.
    assert (Hold : forall p, (p <> boff + i)%nat -> rd B1 p = rd B p).
    { intros p Hp. unfold B1. apply rd_wr_other. lia. }
    split; [|split].
    + rewrite Hl. unfold B1. apply wr_length.
    + intros p Hp. rewrite Hout by lia. apply Hold. lia.
    + intros r Hr. destruct (Nat.eq_dec r i) as [->|Hne].
      * rewrite Hout by lia. unfold B1. rewrite rd_wr_same by lia.
        unfold v. do 2 f_equal. apply big_sum_ext. intros k Hk.
        rewrite Hout by lia. rewrite Hold by lia. reflexivity.
      * rewrite Hin by lia. rewrite Hold by lia. reflexivity.
Qed.

Lemma trsm_upper_cols_T_spec (A : buffer) (lda : nat) (alpha : R)
    (ldb m : nat) (cnt j : nat) (B : buffer) :
  (m <= ldb)%nat -> ((j + cnt) * ldb <= length B)%nat ->
  let B' := trsm_upper_cols CUBLAS_OP_T A lda alpha B ldb m j cnt in
  length B' = length B
  /\ (forall p, (p < j * ldb \/ (j + cnt) * ldb <= p)%nat ->
        rd B' p = rd B p)
  /\ (forall c r, (j <= c < j + cnt)%nat -> (r < m)%nat ->
        rd B' (c * ldb + r)
        = (alpha * rd B (c * ldb + r)
           - big_sum (fun k => mat A lda k r * rd B' (c * ldb + k)) r)
          / mat A lda r r).
Proof.
  intros Hm. revert j B. induction cnt as [|cnt IH]; intros j B Hlen;
    cbn zeta.
  - cbn [trsm_upper_cols]. repeat split; auto. intros c r Hc. lia.
  - cbn [trsm_upper_cols trsm_upper_col].
    destruct (trsm_upper_T_col_spec A lda alpha (j * ldb) m 0 B)
      as (Hl1 & Hout1 & Hin1); [nia|].
    cbn zeta in Hl1, Hout1, Hin1.
    set (B1 := trsm_upper_T_col A lda alpha B (j * ldb) 0 m) in *.
    destruct (IH (S j) B1) as (Hl & Hout & Hin).
    { rewrite Hl1. replace (S j + cnt)%nat with (j + S cnt)%nat by lia.
      exact Hlen. }
    cbn zeta in Hl, Hout, Hin.
    set (B' := trsm_upper_cols CUBLAS_OP_T A lda alpha B1 ldb m (S j) cnt)
      in *.
    split; [|split].
    + now rewrite Hl.
    + intros p Hp. rewrite Hout by nia. apply Hout1. nia.
    + intros c r Hc Hr. destruct (Nat.eq_dec c j) as [->|Hne].
      * rewrite Hout by nia. rewrite Hin1 by lia. do 2 f_equal.
        apply big_sum_ext. intros k Hk. rewrite Hout by nia. reflexivity.
      * rewrite Hin by lia. rewrite Hout1 by nia. reflexivity.
Qed.

Lemma forward_substitution_solves (A : buffer) (lda m : nat) (x b : nat -> R) :
  (forall r, (r < m)%nat -> mat A lda r r <> 0) ->
  (forall r, (r < m)%nat ->
     x r = (b r - big_sum (fun k => mat A lda k r * x k) r) / mat A lda r r) ->
  triangular_solution CUBLAS_OP_T A lda m x b.
Proof.
  intros Hdiag Hx r Hr. cbn [big_sum]. rewrite (Hx r Hr) at 1.
  field. now apply Hdiag.
Qed.

(** The batched path conforms to C5: for every query point of the batch,
    the column of [d_gamma] solves [L^T gamma = d_scalar1 * k] for its
    kernel vector [k], and the reported [sigma] is the squared norm of that
    column. *)
Lemma GpPredictCholBatch_variance_reduction {dk : DeviceKernels}
    (index batchSize : Z) (hypers : GaussianProcessHyperparams)
    (st : CholDevice) :
  let n := Z.to_nat (num_active (activeSetBuffers st)) in
  let lda := Z.to_nat (max_active (activeSetBuffers st)) in
  let st' := GpPredictCholBatch index batchSize hypers st in
  (n <= lda)%nat ->
  (0 <= max_active (activeSetBuffers st) * batchSize < 2 ^ 31)%Z ->
  (lda * Z.to_nat batchSize <= length (d_gamma st))%nat ->
  (Z.to_nat index + Z.to_nat batchSize <= length (d_sigma st))%nat ->
  (forall i, (i < n)%nat -> mat (d_L st) lda i i <> 0) ->
  forall j, (j < Z.to_nat batchSize)%nat ->
    triangular_solution CUBLAS_OP_T (d_L st') lda n
      (fun i => mat (d_gamma st') lda i j)
      (fun i => d_scalar1 st * mat (d_kernelVector st') lda i j)
    /\ rd (d_sigma st') (Z.to_nat index + j)
       = big_sum (fun i => mat (d_gamma st') lda i j ^ 2) n.
Proof.
  cbn zeta. intros Hn Hprod Hgamma Hsigma Hdiag j Hj.
  set (n := Z.to_nat (num_active (activeSetBuffers st))) in *.
  set (lda := Z.to_nat (max_active (activeSetBuffers st))) in *.
  set (bs := Z.to_nat batchSize) in *.
  assert (Hbs : (0 < batchSize)%Z) by lia.
  assert (Hma : (0 <= max_active (activeSetBuffers st))%Z) by nia.
  unfold GpPredictCholBatch.
  cbn [activeSetBuffers maxSubBuffers classificationBuffers d_L d_alpha
       d_scalar1 d_scalar2 d_mu d_sigma d_gamma d_kernelVector
       set_d_kernelVector set_d_gamma set_d_mu set_d_sigma].
  set (K := compute_kernel_vector_batch _ _ _ _ _ _).
  rewrite int_wrap_small by lia.
  set (G0 := cudaMemcpy (d_gamma st) 0 K 0
               (max_active (activeSetBuffers st) * batchSize)).
  assert (Hcount : Z.to_nat (max_active (activeSetBuffers st) * batchSize)
                   = (lda * bs)%nat).
  { unfold lda, bs. rewrite Z2Nat.inj_mul by lia. reflexivity. }
  assert (HG0len : length G0 = length (d_gamma st)).
  { unfold G0, cudaMemcpy. apply write_seq_length. }
  assert (HG0 : forall p, (p < lda * bs)%nat -> rd G0 p = rd K p).
  { intros p Hp. unfold G0, cudaMemcpy. rewrite Hcount.
    rewrite rd_write_seq_inside by (rewrite ?tabulate_length; lia).
    rewrite nth_tabulate by lia. f_equal. lia. }
  unfold cublasStrsm. fold n lda bs.
  destruct (trsm_upper_cols_T_spec (d_L st) lda (d_scalar1 st) lda n bs 0 G0
              Hn) as (Hlen & _ & Hcols).
  { rewrite HG0len. lia. }
  cbn zeta in Hlen, Hcols.
  set (G := trsm_upper_cols CUBLAS_OP_T (d_L st) lda (d_scalar1 st) G0 lda n
              0 bs) in *.
  split.
  - apply forward_substitution_solves; [exact Hdiag|].
    intros r Hr. unfold mat at 1. rewrite Nat.add_comm.
    rewrite Hcols by lia. rewrite HG0 by nia.
    assert (Hmat : forall (M : buffer) i, mat M lda i j = rd M (j * lda + i)).
    { intros M i. unfold mat. f_equal. lia. }
    rewrite (Hmat K). do 2 f_equal.
    apply big_sum_ext. intros k Hk. now rewrite (Hmat G).
  - unfold norm_columns. fold n lda bs.
    rewrite rd_write_seq_inside by (rewrite ?tabulate_length; lia).
    rewrite nth_tabulate by lia.
    replace (Z.to_nat index + j - Z.to_nat index)%nat with j by lia.
    apply big_sum_ext. intros i Hi. ring.
Qed.

(** ** The incremental update of the factor, in exact arithmetic *)

Lemma trsm_upper_N_col_spec (A : buffer) (lda : nat) (alpha : R)
    (boff m : nat) (cnt : nat) (B : buffer) :
  (cnt <= m)%nat -> (boff + m <= length B)%nat ->
  let B' := trsm_upper_N_col A lda alpha B boff m cnt in
  length B' = length B
  /\ (forall p, (p < boff \/ boff + cnt <= p)%nat -> rd B' p = rd B p)
  /\ (forall r, (r < cnt)%nat ->
        rd B' (boff + r)
        = (alpha * rd B (boff + r)
           - big_sum (fun d => mat A lda r (S r + d) * rd B' (boff + S r + d))
               (m - S r))
          / mat A lda r r).
Proof.
  revert B. induction cnt as [|i IH]; intros B Hcnt Hlen; cbn zeta.
  - cbn [trsm_upper_N_col]. repeat split; auto. intros r Hr. lia.
  - cbn [trsm_upper_N_col].
    set (v := (alpha * rd B (boff + i)
               - big_sum (fun d => mat A lda i (S i + d)
                                   * rd B (boff + S i + d)) (m - S i))
              / mat A lda i i).
    set (B1 := wr B (boff + i) v).
    destruct (IH B1) as (Hl & Hout & Hin); [lia| |].
    { unfold B1. rewrite wr_length. lia. }
    cbn zeta in Hl, Hout, Hin.
    set (B' := trsm_upper_N_col A lda alpha B1 boff m i) in *.
    assert (Hold : forall p, (p <> boff + i)%nat -> rd B1 p = rd B p).
    { intros p Hp. unfold B1. apply rd_wr_other. lia. }
    split; [|split].
    + rewrite Hl. unfold B1. apply wr_length.
    + intros p Hp. rewrite Hout by lia. apply Hold. lia.
    + intros r Hr. destruct (Nat.eq_dec r i) as [->|Hne].
      * rewrite Hout by lia. unfold B1. rewrite rd_wr_same by lia.
        unfold v. do 2 f_equal. apply big_sum_ext. intros d Hd.
        rewrite Hout by lia. rewrite Hold by lia. reflexivity.
      * rewrite Hin by lia. rewrite Hold by lia. reflexivity.
Qed.

Lemma back_substitution_solves (A : buffer) (lda m : nat) (x b : nat -> R) :
  (forall r, (r < m)%nat -> mat A lda r r <> 0) ->
  (forall r, (r < m)%nat ->
     x r = (b r - big_sum (fun d => mat A lda r (S r + d) * x (S r + d)%nat)
                    (m - S r)) / mat A lda r r) ->
  triangular_solution CUBLAS_OP_N A lda m x b.
Proof.
  intros Hdiag Hx r Hr. cbn match.
  replace (m - r)%nat with (S (m - S r)) by lia.
  rewrite big_sum_shift, Nat.add_0_r.
  rewrite (big_sum_ext _ (fun d => mat A lda r (S r + d) * x (S r + d)%nat)).
  - rewrite (Hx r Hr) at 1. field. now apply Hdiag.
  - intros d _. now replace (r + S d)%nat with (S r + d)%nat by lia.
Qed.

Lemma triangular_solution_ext (trans : cublasOperation_t) (A A' : buffer)
    (lda m : nat) (x x' b b' : nat -> R) :
  (forall i k, (i < m)%nat -> (k < m)%nat -> mat A' lda i k = mat A lda i k) ->
  (forall i, (i < m)%nat -> x' i = x i) ->
  (forall i, (i < m)%nat -> b' i = b i) ->
  triangular_solution trans A lda m x b ->
  triangular_solution trans A' lda m x' b'.
Proof.
  intros HA Hx Hb H i Hi. specialize (H i Hi). rewrite Hb by assumption.
  destruct trans; rewrite <- H; apply big_sum_ext; intros k Hk.
  - rewrite HA, Hx by lia. reflexivity.
  - rewrite HA, Hx by lia. reflexivity.
Qed.

(** What [UpdateChol] computes: the new column of the factor solves
    [L^T c = k] for the column [k] of the kernel matrix of the newest
    point, the new diagonal entry is the value that [compute_sqrt_var]
    returns, the older columns are kept, and [d_alpha] is obtained from the
    targets by the two solves [L'^T y = targets], [L' alpha = y] with the
    extended factor [L'], that is [alpha = (L'^T L')^-1 targets]. *)
Lemma UpdateChol_spec {dk : DeviceKernels}
    (hypers : GaussianProcessHyperparams) (st : CholDevice) :
  let asb := activeSetBuffers st in
  let n := Z.to_nat (num_active asb) in
  let lda := Z.to_nat (max_active asb) in
  let st' := UpdateChol hypers st in
  (1 <= num_active asb <= max_active asb)%Z ->
  (max_active asb * max_active asb < 2 ^ 31)%Z ->
  (lda * lda <= length (d_L st))%nat ->
  (lda <= length (d_alpha st))%nat ->
  (lda <= length (d_gamma st))%nat ->
  d_scalar1 st = 1 ->
  (forall i, (i < n - 1)%nat -> mat (d_L st) lda i i <> 0) ->
  rd (d_kernelVector st') 0 <> 0 ->
  triangular_solution CUBLAS_OP_T (d_L st) lda (n - 1)
    (fun i => mat (d_L st') lda i (n - 1))
    (fun i => mat (active_kernel_matrix asb) lda i (n - 1))
  /\ mat (d_L st') lda (n - 1) (n - 1) = rd (d_kernelVector st') 0
  /\ (forall i j, (i < lda)%nat -> (j < n - 1)%nat ->
        mat (d_L st') lda i j = mat (d_L st) lda i j)
  /\ exists y,
       triangular_solution CUBLAS_OP_T (d_L st') lda n y
         (rd (active_targets asb))
       /\ triangular_solution CUBLAS_OP_N (d_L st') lda n (rd (d_alpha st')) y.
Proof.
  cbn zeta. intros Hn Hsq HL Halpha Hgamma Hone Hdiag.
  set (asb := activeSetBuffers st) in *.
  set (n := Z.to_nat (num_active asb)) in *.
  set (lda := Z.to_nat (max_active asb)) in *.
  assert (Hnl : (1 <= n <= lda)%nat) by (unfold n, lda; lia).
  assert (Hoff : Z.to_nat (int_wrap ((num_active asb - 1) * max_active asb))
                 = ((n - 1) * lda)%nat).
  { rewrite int_wrap_small by nia. unfold n, lda.
    rewrite Z2Nat.inj_mul, Z2Nat.inj_sub by lia. reflexivity. }
  assert (Hoff2 : Z.to_nat (int_wrap (int_wrap ((num_active asb - 1)
                                                * max_active asb)
                                      + (num_active asb - 1)))
                  = ((n - 1) * lda + (n - 1))%nat).
  { rewrite (int_wrap_small ((num_active asb - 1) * max_active asb)) by nia.
    rewrite int_wrap_small by nia. unfold n, lda.
    rewrite Z2Nat.inj_add, Z2Nat.inj_mul, Z2Nat.inj_sub by nia.
    reflexivity. }
  assert (Hcnt : Z.to_nat (num_active asb - 1) = (n - 1)%nat).
  { unfold n. rewrite Z2Nat.inj_sub by lia. reflexivity. }
  unfold UpdateChol. fold asb.
  cbn [activeSetBuffers maxSubBuffers classificationBuffers d_L d_alpha
       d_scalar1 d_scalar2 d_mu d_sigma d_gamma d_kernelVector
       set_d_kernelVector set_d_gamma set_d_alpha set_d_L].
  rewrite Hoff, Hoff2, Hone.
  unfold cublasStrsm. rewrite Hcnt. fold n lda.
  change (Z.to_nat 1) with 1%nat.
  cbn [trsm_upper_cols trsm_upper_col Nat.mul].
  set (A0 := cudaMemcpy (d_alpha st) 0 (active_targets asb) 0
               (max_active asb)).
  set (G0 := cudaMemcpy (d_gamma st) 0 (active_kernel_matrix asb)
               ((n - 1) * lda) (num_active asb - 1)).
  set (G1 := trsm_upper_T_col (d_L st) lda 1 G0 0 0 (n - 1)).
  set (L1 := cudaMemcpy (d_L st) ((n - 1) * lda) G1 0 (num_active asb - 1)).
  set (X := compute_sqrt_var G1 (d_kernelVector st) (num_active asb - 1)
              (hyp_sigma hypers) (hyp_beta hypers) (dim_input asb)).
  set (L2 := cudaMemcpy L1 ((n - 1) * lda + (n - 1)) X 0 1).
  set (A1 := trsm_upper_T_col L2 lda 1 A0 0 0 n).
  set (A2 := trsm_upper_N_col L2 lda 1 A1 0 n n).
  intros HX.
  (* the buffers after the copies *)
  assert (HA0len : length A0 = length (d_alpha st)).
  { apply write_seq_length. }
  assert (HA0 : forall i, (i < lda)%nat -> rd A0 i = rd (active_targets asb) i).
  { intros i Hi. unfold A0, cudaMemcpy. fold lda.
    rewrite rd_write_seq_inside by (rewrite ?tabulate_length; lia).
    rewrite nth_tabulate by lia. f_equal. lia. }
  assert (HG0len : length G0 = length (d_gamma st)).
  { apply write_seq_length. }
  assert (HG0 : forall i, (i < n - 1)%nat ->
            rd G0 i = mat (active_kernel_matrix asb) lda i (n - 1)).
  { intros i Hi. unfold G0, cudaMemcpy, mat. rewrite Hcnt.
    rewrite rd_write_seq_inside by (rewrite ?tabulate_length; lia).
    rewrite nth_tabulate by lia. f_equal. lia. }
  destruct (trsm_upper_T_col_spec (d_L st) lda 1 0 (n - 1) 0 G0)
    as (HG1len & _ & HG1); [lia|]. cbn zeta in HG1len, HG1.
  fold G1 in HG1len, HG1.
  assert (HL1len : length L1 = length (d_L st)).
  { apply write_seq_length. }
  assert (HL1in : forall i, (i < n - 1)%nat ->
            rd L1 ((n - 1) * lda + i) = rd G1 i).
  { intros i Hi. unfold L1, cudaMemcpy. rewrite Hcnt.
    rewrite rd_write_seq_inside by (rewrite ?tabulate_length; nia).
    rewrite nth_tabulate by lia. f_equal. lia. }
  assert (HL1out : forall p, (p < (n - 1) * lda
                              \/ (n - 1) * lda + (n - 1) <= p)%nat ->
            rd L1 p = rd (d_L st) p).
  { intros p Hp. unfold L1, cudaMemcpy. rewrite Hcnt.
    apply rd_write_seq_outside. rewrite tabulate_length. lia. }
  assert (HL2len : length L2 = length (d_L st)).
  { unfold L2, cudaMemcpy. now rewrite write_seq_length. }
  assert (HL2diag : rd L2 ((n - 1) * lda + (n - 1)) = rd X 0).
  { unfold L2, cudaMemcpy. change (Z.to_nat 1) with 1%nat.
    rewrite rd_write_seq_inside by (rewrite ?tabulate_length; nia).
    rewrite nth_tabulate by lia. f_equal. lia. }
  assert (HL2out : forall p, (p <> (n - 1) * lda + (n - 1))%nat ->
            rd L2 p = rd L1 p).
  { intros p Hp. unfold L2, cudaMemcpy. change (Z.to_nat 1) with 1%nat.
    apply rd_write_seq_outside. rewrite tabulate_length. lia. }
  assert (Hold : forall i j, (i < lda)%nat -> (j < n - 1)%nat ->
            mat L2 lda i j = mat (d_L st) lda i j).
  { intros i j Hi Hj. unfold mat. rewrite HL2out by nia. apply HL1out. nia. }
  assert (Hcol : forall i, (i < n - 1)%nat -> mat L2 lda i (n - 1) = rd G1 i).
  { intros i Hi. unfold mat. rewrite HL2out by nia.
    rewrite Nat.add_comm. now apply HL1in. }
  assert (Hnew : mat L2 lda (n - 1) (n - 1) = rd X 0).
  { unfold mat. rewrite Nat.add_comm. exact HL2diag. }
  assert (HL2nz : forall i, (i < n)%nat -> mat L2 lda i i <> 0).
  { intros i Hi. destruct (Nat.eq_dec i (n - 1)) as [->|Hne].
    - now rewrite Hnew.
    - rewrite Hold by lia. apply Hdiag. lia. }
  split; [|split; [exact Hnew|split; [exact Hold|]]].
  - apply (triangular_solution_ext _ (d_L st) _ _ _ (rd G1) _
             (fun i => 1 * rd G0 i)).
    + reflexivity.
    + exact Hcol.
    + intros i Hi. rewrite HG0 by assumption. ring.
    + apply forward_substitution_solves; [exact Hdiag|].
      intros r Hr. apply (HG1 r). lia.
  - destruct (trsm_upper_T_col_spec L2 lda 1 0 n 0 A0)
      as (HA1len & _ & HA1); [lia|]. cbn zeta in HA1len, HA1.
    fold A1 in HA1len, HA1.
    destruct (trsm_upper_N_col_spec L2 lda 1 0 n n A1)
      as (_ & _ & HA2); [lia|lia|]. cbn zeta in HA2. fold A2 in HA2.
    exists (rd A1). split.
    + apply (triangular_solution_ext _ L2 _ _ _ (rd A1) _
               (fun i => 1 * rd A0 i)).
      * reflexivity.
      * reflexivity.
      * intros i Hi. rewrite HA0 by lia. ring.
      * apply forward_substitution_solves; [exact HL2nz|].
        intros r Hr. apply (HA1 r). lia.
    + apply (triangular_solution_ext _ L2 _ _ _ (rd A2) _
               (fun i => 1 * rd A1 i)).
      * reflexivity.
      * reflexivity.
      * intros i Hi. ring.
      * apply back_substitution_solves; [exact HL2nz|].
        intros r Hr. apply (HA2 r). lia.
Qed.

(** * Further properties of the code *)

(** ** The covariance function *)

Lemma big_sum_nonneg (f : nat -> R) (n : nat) :
  (forall i, (i < n)%nat -> 0 <= f i) -> 0 <= big_sum f n.
Proof.
  induction n as [|n IH]; intros H; simpl; [lra|].
  pose proof (H n (Nat.lt_succ_diag_r n)).
  assert (0 <= big_sum f n) by (apply IH; intros; apply H; lia). lra.
Qed.

Lemma big_sum_zero (f : nat -> R) (n : nat) :
  (forall i, (i < n)%nat -> f i = 0) -> big_sum f n = 0.
Proof.
  induction n as [|n IH]; intros H; simpl; [reflexivity|].
  rewrite IH, (H n) by auto with arith. lra.
Qed.

(** X1: [SECovariance] is symmetric in its two vectors. *)
Theorem SECovariance_symmetric (x y : list R) (dim sigma : Z) :
  SECovariance x y dim sigma = SECovariance y x dim sigma.
Proof.
  unfold SECovariance. rewrite !SECovariance_loop_sum.
  do 3 f_equal. f_equal. apply big_sum_ext. intros j _. ring.
Qed.

(** X2: the covariance of a vector with itself is 1, whatever [dim] is,
    for every [sigma] other than 0 whose double fits an [int]. *)
Theorem SECovariance_self (x : list R) (dim sigma : Z) :
  sigma <> 0%Z -> (- 2 ^ 30 <= sigma < 2 ^ 30)%Z ->
  SECovariance x x dim sigma = 1.
Proof.
  intros Hnz Hs. rewrite SECovariance_value by assumption.
  unfold sqdist. rewrite big_sum_zero by (intros; ring).
  replace (- 0 / (2 * IZR sigma)) with 0 by (unfold Rdiv; ring).
  apply exp_0.
Qed.

Lemma SECovariance_self_witness : SECovariance [0; 3] [0; 3] 2 2 = 1.
Proof.
  apply (SECovariance_self [0; 3] 2 2); lia.
Defined.

(** X3: for a positive [sigma] the covariance lies in [0, 1]. *)
Theorem SECovariance_range (x y : list R) (dim sigma : Z) :
  (1 <= sigma < 2 ^ 30)%Z ->
  0 <= SECovariance x y dim sigma <= 1.
Proof.
  intros Hs. rewrite SECovariance_value by lia.
  split; [left; apply exp_pos|].
  rewrite <- exp_0.
  assert (Hd : 0 <= sqdist x y (Z.to_nat dim)).
  { unfold sqdist. apply big_sum_nonneg. intros i _. apply pow2_ge_0. }
  assert (Hsig : 0 < 2 * IZR sigma).
  { assert (1 <= IZR sigma) by (apply IZR_le; lia). lra. }
  assert (Hq : 0 <= sqdist x y (Z.to_nat dim) / (2 * IZR sigma)).
  { apply Rmult_le_pos; [exact Hd|]. left. now apply Rinv_0_lt_compat. }
  assert (Hle : - sqdist x y (Z.to_nat dim) / (2 * IZR sigma) <= 0).
  { unfold Rdiv in *. rewrite Ropp_mult_distr_l_reverse. lra. }
  destruct Hle as [Hlt|Heq].
  - left. now apply exp_increasing.
  - right. now rewrite Heq.
Qed.

Lemma SECovariance_range_witness :
  0 <= SECovariance [0; 3] [1; 1] 2 2 <= 1.
Proof.
  apply (SECovariance_range [0; 3] [1; 1] 2 2). lia.
Defined.

(** ** The schedule of the confidence multiplier *)

(** X4: the multiplier of iteration [k] exceeds the one set before the loop
    by [4 ln (k+1)], independently of the pool size and of the tolerance. *)
Theorem beta_update_offset (N : Z) (tolerance : R) (k : Z) :
  (1 <= N)%Z -> 0 < tolerance -> (0 <= k < 2 ^ 32 - 1)%Z ->
  beta_update N tolerance k
  = beta_initial N tolerance + 4 * ln (IZR k + 1).
Proof.
  intros HN Htol Hk. unfold beta_update, beta_initial.
  rewrite uint_wrap_small by lia. rewrite plus_IZR.
  assert (HNr : 1 <= IZR N) by now apply IZR_le.
  assert (Hkr : 0 <= IZR k) by (apply IZR_le; lia).
  pose proof PI_RGT_0 as Hpi.
  assert (Hc : 0 < IZR N * PI ^ 2 / (6 * tolerance)).
  { apply Rdiv_lt_0_compat; [|lra]. apply Rmult_lt_0_compat; [lra|].
    now apply pow_lt. }
  replace (IZR N * PI ^ 2 * (IZR k + 1) ^ 2 / (6 * tolerance))
    with (IZR N * PI ^ 2 / (6 * tolerance) * ((IZR k + 1) * (IZR k + 1)))
    by (unfold Rdiv; ring).
  rewrite !ln_mult; try lra.
  apply Rmult_lt_0_compat; lra.
Qed.

Lemma beta_update_offset_witness :
  beta_update 4 (1 / 2) 3 = beta_initial 4 (1 / 2) + 4 * ln (IZR 3 + 1).
Proof.
  apply (beta_update_offset 4 (1 / 2) 3); try lia. lra.
Defined.

(** ** CSV output *)

Lemma WriteCsv_cells_line (hostBuffer : buffer) (width lda j : Z) (n i : nat) :
  (Z.of_nat (i + n) = width)%Z -> (1 <= n)%nat ->
  WriteCsv_cells hostBuffer width lda j i n ++ [CsvNewline]
  = csv_line
      (map (fun c => rd hostBuffer
                       (Z.to_nat (int_wrap (j + int_wrap (Z.of_nat c * lda)))))
         (seq i n)).
Proof.
  revert i. induction n as [|n IH]; intros i Hw Hn; [lia|].
  cbn [WriteCsv_cells seq map]. destruct n as [|n].
  - destruct (Z.of_nat i <? width - 1)%Z eqn:Hlt.
    + apply Z.ltb_lt in Hlt. lia.
    + reflexivity.
  - destruct (Z.of_nat i <? width - 1)%Z eqn:Hlt.
    + cbn [app]. rewrite IH by lia. reflexivity.
    + apply Z.ltb_ge in Hlt. lia.
Qed.

(** X5: when [height <= lda], [WriteCsv] writes [height] lines; line [j]
    holds the entries [j] of the [width] columns of the device buffer (the
    matrix is written transposed), separated by delimiters with none after
    the last value, and every value is read inside the [width * lda] floats
    that were copied to the host. *)
Theorem WriteCsv_format (buffer : buffer) (width height lda : Z) :
  (0 <= width)%Z -> (0 <= height <= lda)%Z -> (width * lda < 2 ^ 31)%Z ->
  WriteCsv buffer width height lda
  = concat
      (map (fun j =>
              csv_line (map (fun i => mat buffer (Z.to_nat lda) j i)
                          (seq 0 (Z.to_nat width))))
         (seq 0 (Z.to_nat height))).
Proof.
  intros Hw Hh Hsize. unfold WriteCsv.
  rewrite int_wrap_small by nia.
  set (hb := tabulate (fun i => rd buffer i) (Z.to_nat (width * lda))).
  assert (Hcell : forall j i, (j < Z.to_nat lda)%nat ->
            (i < Z.to_nat width)%nat ->
            rd hb (Z.to_nat (int_wrap (Z.of_nat j
                                       + int_wrap (Z.of_nat i * lda))))
            = mat buffer (Z.to_nat lda) j i).
  { intros j i Hj Hi.
    rewrite (int_wrap_small (Z.of_nat i * lda)) by nia.
    rewrite int_wrap_small by nia.
    replace (Z.to_nat (Z.of_nat j + Z.of_nat i * lda))
      with (j + i * Z.to_nat lda)%nat by nia.
    unfold hb, rd at 1, mat. apply nth_tabulate. nia. }
  assert (Hrows : forall n j, (j + n <= Z.to_nat lda)%nat ->
            WriteCsv_rows hb width lda j n
            = concat
                (map (fun j =>
                        csv_line (map (fun i => mat buffer (Z.to_nat lda) j i)
                                    (seq 0 (Z.to_nat width))))
                   (seq j n))).
  { induction n as [|n IH]; intros j Hj; [reflexivity|].
    cbn [WriteCsv_rows seq map concat]. rewrite IH by lia.
    rewrite app_assoc. f_equal.
    destruct (Z.to_nat width) as [|w] eqn:Hwn.
    - reflexivity.
    - rewrite WriteCsv_cells_line by lia. f_equal.
      apply map_ext_in. intros i Hi. apply in_seq in Hi.
      apply Hcell; lia. }
  apply Hrows. lia.
Qed.

Lemma WriteCsv_format_witness :
  WriteCsv [1; 2; 3; 4; 5; 6] 2 2 3
  = concat
      (map (fun j =>
              csv_line (map (fun i => mat [1; 2; 3; 4; 5; 6] (Z.to_nat 3) j i)
                          (seq 0 (Z.to_nat 2))))
         (seq 0 (Z.to_nat 2))).
Proof.
  apply (WriteCsv_format [1; 2; 3; 4; 5; 6] 2 2 3); lia.
Defined.

(** ** Reads of the cuBLAS results *)

Lemma rd_write_tabulate_inside (b : buffer) (off : nat) (f : nat -> R)
    (n i : nat) :
  (off <= i < off + n)%nat -> (i < length b)%nat ->
  rd (write_seq b off (tabulate f n)) i = f (i - off)%nat.
Proof.
  intros Hi Hb. rewrite rd_write_seq_inside by (rewrite ?tabulate_length; lia).
  apply nth_tabulate. lia.
Qed.

Lemma rd_write_tabulate_outside (b : buffer) (off : nat) (f : nat -> R)
    (n i : nat) :
  (i < off \/ off + n <= i)%nat ->
  rd (write_seq b off (tabulate f n)) i = rd b i.
Proof.
  intros Hi. apply rd_write_seq_outside. rewrite tabulate_length. lia.
Qed.

Lemma rd_cublasSaxpy (n : Z) (a : R) (x y : buffer) (i : nat) :
  (i < Z.to_nat n)%nat -> (i < length y)%nat ->
  rd (cublasSaxpy n a x y) i = a * rd x i + rd y i.
Proof.
  intros Hi Hy. unfold cublasSaxpy.
  rewrite rd_write_tabulate_inside by lia. now rewrite Nat.sub_0_r.
Qed.

Lemma rd_cublasSaxpy_beyond (n : Z) (a : R) (x y : buffer) (i : nat) :
  (Z.to_nat n <= i)%nat -> rd (cublasSaxpy n a x y) i = rd y i.
Proof.
  intros Hi. unfold cublasSaxpy. apply rd_write_tabulate_outside. lia.
Qed.


Lemma rd_cublasSgemv_N (m n : Z) (alpha : R) (A : buffer) (lda : Z)
    (x : buffer) (beta : R) (y : buffer) (i : nat) :
  (i < Z.to_nat m)%nat -> (i < length y)%nat ->
  rd (cublasSgemv CUBLAS_OP_N m n alpha A lda x beta y 0) i
  = alpha * big_sum (fun j => mat A (Z.to_nat lda) i j * rd x j) (Z.to_nat n)
    + beta * rd y i.
Proof.
  intros Hi Hy. unfold cublasSgemv.
  rewrite rd_write_tabulate_inside by lia. now rewrite Nat.sub_0_r.
Qed.

Lemma cublasSaxpy_length (n : Z) (a : R) (x y : buffer) :
  length (cublasSaxpy n a x y) = length y.
Proof. apply write_seq_length. Qed.

Lemma cublasSscal_length (n : Z) (a : R) (x : buffer) :
  length (cublasSscal n a x) = length x.
Proof. apply write_seq_length. Qed.

Lemma cublasSgemv_length (trans : cublasOperation_t) (m n : Z) (alpha : R)
    (A : buffer) (lda : Z) (x : buffer) (beta : R) (y : buffer) (yoff : nat) :
  length (cublasSgemv trans m n alpha A lda x beta y yoff) = length y.
Proof. destruct trans; apply write_seq_length. Qed.

Lemma big_sum_plus (f g : nat -> R) (n : nat) :
  big_sum (fun i => f i + g i) n = big_sum f n + big_sum g n.
Proof. induction n as [|n IH]; simpl; [lra|rewrite IH; lra]. Qed.

Lemma big_sum_scale (a : R) (f : nat -> R) (n : nat) :
  big_sum (fun i => a * f i) n = a * big_sum f n.
Proof. induction n as [|n IH]; simpl; [lra|rewrite IH; lra]. Qed.

(** ** Invariants of the conjugate-gradient loop *)

Section CGInvariants.
Variable asb : ActiveSetBuffers.
Variables target d_p d_q d_r d_alpha : buffer.
Variables d_scalar2 tolerance : R.

Let c0 := CG_init asb target d_p d_q d_r d_alpha d_scalar2.
Let n := Z.to_nat (num_active asb).
Let lda := Z.to_nat (max_active asb).

Lemma CG_iter_lengths (m : nat) :
  let c := Nat.iter m (CG_body asb) c0 in
  length (sv_alpha c) = length d_alpha
  /\ length (sv_r c) = length d_r
  /\ length (sv_q c) = length d_q
  /\ length (sv_p c) = length d_p.
Proof.
  induction m as [|m IH]; cbn zeta.
  - unfold c0, CG_init, cudaMemset0, cudaMemcpy.
    cbn [Nat.iter nat_rect sv_alpha sv_r sv_q sv_p].
    rewrite !write_seq_length. auto.
  - rewrite Nat.iter_succ. cbn zeta in IH.
    destruct IH as (Ha & Hr & Hq & Hp).
    unfold CG_body. cbn [sv_alpha sv_r sv_q sv_p].
    rewrite cublasSscal_length, !cublasSaxpy_length, cublasSgemv_length.
    auto.
Qed.

Lemma CG_iter_padding (m i : nat) :
  (n <= i < lda)%nat -> (i < length d_alpha)%nat ->
  rd (sv_alpha (Nat.iter m (CG_body asb) c0)) i = 0.
Proof.
  intros Hi Hlen. induction m as [|m IH].
  - unfold c0, CG_init, cudaMemset0. cbn [Nat.iter nat_rect sv_alpha].
    fold lda. rewrite rd_write_tabulate_inside by lia. reflexivity.
  - rewrite Nat.iter_succ. unfold CG_body at 1. cbn [sv_alpha].
    rewrite rd_cublasSaxpy_beyond by (fold n; lia). exact IH.
Qed.

Lemma CG_iter_residual (m i : nat) :
  (n <= lda)%nat -> (n <= length d_alpha)%nat -> (n <= length d_r)%nat ->
  (n <= length d_q)%nat -> (i < n)%nat ->
  let c := Nat.iter m (CG_body asb) c0 in
  rd (sv_r c) i
  = rd target i
    - big_sum (fun j => mat (active_kernel_matrix asb) lda i j
                        * rd (sv_alpha c) j) n.
Proof.
  intros Hn Ha Hr Hq Hi. cbn zeta. induction m as [|m IH].
  - unfold c0, CG_init, cudaMemset0, cudaMemcpy.
    cbn [Nat.iter nat_rect sv_alpha sv_r].
    fold lda. rewrite rd_write_tabulate_inside by lia.
    rewrite big_sum_zero.
    + rewrite Nat.sub_0_r. cbn [Nat.add]. lra.
    + intros j Hj. rewrite rd_write_tabulate_inside by lia. ring.
  - rewrite Nat.iter_succ.
    destruct (CG_iter_lengths m) as (Hla & Hlr & Hlq & Hlp).
    cbn zeta in Hla, Hlr, Hlq, Hlp.
    set (c := Nat.iter m (CG_body asb) c0) in *.
    unfold CG_body. cbn [sv_alpha sv_r].
    rewrite rd_cublasSaxpy by (fold n; rewrite ?Hlr; lia).
    rewrite rd_cublasSgemv_N by (fold lda; rewrite ?Hlq; lia).
    fold n lda. rewrite IH.
    set (t := sv_delta_1 c / cublasSdot _ _ _).
    assert (Hsum :
      big_sum (fun j => mat (active_kernel_matrix asb) lda i j
                        * rd (cublasSaxpy (num_active asb) t (sv_p c)
                                (sv_alpha c)) j) n
      = big_sum (fun j => mat (active_kernel_matrix asb) lda i j
                          * rd (sv_alpha c) j) n
        + t * big_sum (fun j => mat (active_kernel_matrix asb) lda i j
                                * rd (sv_p c) j) n).
    { rewrite <- big_sum_scale, <- big_sum_plus. apply big_sum_ext.
      intros j Hj. rewrite rd_cublasSaxpy by (fold n; rewrite ?Hla; lia).
      ring. }
    rewrite Hsum. ring.
Qed.

End CGInvariants.

Lemma SolveLinearSystemCG_is_iterate (asb : ActiveSetBuffers)
    (target d_p d_q d_r d_alpha : buffer) (d_scalar2 tolerance : R) :
  exists m,
    SolveLinearSystemCG asb target d_p d_q d_r d_alpha d_scalar2 tolerance
    = Nat.iter m (CG_body asb)
        (CG_init asb target d_p d_q d_r d_alpha d_scalar2).
Proof.
  unfold SolveLinearSystemCG.
  destruct (CG_loop_iterates asb tolerance (Z.to_nat (max_active asb))
              (CG_init asb target d_p d_q d_r d_alpha d_scalar2))
    as (m & Hit & _).
  - cbn [CG_init sv_k]. lia.
  - now exists m.
Qed.

(** X6: the solution vector that [SolveLinearSystemCG] returns is 0 in the
    cells from [num_active] up to [max_active]: only the active entries are
    ever updated. *)
Theorem SolveLinearSystemCG_zero_beyond_active (asb : ActiveSetBuffers)
    (target d_p d_q d_r d_alpha : buffer) (d_scalar2 tolerance : R)
    (i : nat) :
  (Z.to_nat (num_active asb) <= i < Z.to_nat (max_active asb))%nat ->
  (i < length d_alpha)%nat ->
  rd (sv_alpha (SolveLinearSystemCG asb target d_p d_q d_r d_alpha d_scalar2
                  tolerance)) i = 0.
Proof.
  intros Hi Hlen.
  destruct (SolveLinearSystemCG_is_iterate asb target d_p d_q d_r d_alpha
              d_scalar2 tolerance) as [m ->].
  now apply CG_iter_padding.
Qed.

Lemma SolveLinearSystemCG_zero_beyond_active_witness :
  rd (sv_alpha (SolveLinearSystemCG one_of_two (active_targets one_of_two)
                  [0; 0] [0; 0] [0; 0] [7; 7] 0 (1 / 2))) 1 = 0.
Proof.
  apply (SolveLinearSystemCG_zero_beyond_active one_of_two
           (active_targets one_of_two) [0; 0] [0; 0] [0; 0] [7; 7] 0 (1 / 2)
           1); cbn; lia.
Defined.

(** X7: when no iteration divides by zero, on return from
    [SolveLinearSystemCG] the residual buffer holds [target - K alpha] in
    its active entries, for the active block [K] of the kernel matrix: the
    loop keeps residual and solution consistent. *)
Theorem SolveLinearSystemCG_residual (asb : ActiveSetBuffers)
    (target d_p d_q d_r d_alpha : buffer) (d_scalar2 tolerance : R)
    (i : nat) :
  let n := Z.to_nat (num_active asb) in
  let lda := Z.to_nat (max_active asb) in
  let c := SolveLinearSystemCG asb target d_p d_q d_r d_alpha d_scalar2
             tolerance in
  CG_divisors_nonzero asb tolerance
    (CG_init asb target d_p d_q d_r d_alpha d_scalar2) ->
  (n <= lda)%nat -> (n <= length d_alpha)%nat -> (n <= length d_r)%nat ->
  (n <= length d_q)%nat -> (i < n)%nat ->
  rd (sv_r c) i
  = rd target i
    - big_sum (fun j => mat (active_kernel_matrix asb) lda i j
                        * rd (sv_alpha c) j) n.
Proof.
  cbn zeta. intros _ Hn Ha Hr Hq Hi.
  destruct (SolveLinearSystemCG_is_iterate asb target d_p d_q d_r d_alpha
              d_scalar2 tolerance) as [m ->].
  now apply CG_iter_residual.
Qed.

Lemma SolveLinearSystemCG_residual_witness :
  let c := SolveLinearSystemCG single_point [3] [0] [0] [0] [0] 0 (1 / 2) in
  rd (sv_r c) 0
  = rd [3] 0
    - big_sum (fun j => mat (active_kernel_matrix single_point)
                          (Z.to_nat (max_active single_point)) 0 j
                        * rd (sv_alpha c) j)
        (Z.to_nat (num_active single_point)).
Proof.
  apply (SolveLinearSystemCG_residual single_point [3] [0] [0] [0] [0] 0
           (1 / 2) 0); try (cbn; lia).
  apply (CG_divisors_nonzero_within _ _ _ 1).
  - cbn. lia.
  - intros [|j] Hj; [|lia]. split; eval_model; lra.
Defined.



(** X9: a right-hand side whose squared norm over the [max_active] cells is
    within the tolerance is answered without an iteration: the iteration
    count is 0 and the solution vector is 0. *)
Theorem SolveLinearSystemCG_small_target (asb : ActiveSetBuffers)
    (target d_p d_q d_r d_alpha : buffer) (d_scalar2 tolerance : R) :
  let c := SolveLinearSystemCG asb target d_p d_q d_r d_alpha d_scalar2
             tolerance in
  (Z.to_nat (max_active asb) <= length d_r)%nat ->
  cublasSdot (max_active asb) target target <= tolerance ->
  sv_k c = 0%Z
  /\ forall i, (i < Z.to_nat (max_active asb))%nat ->
       (i < length d_alpha)%nat -> rd (sv_alpha c) i = 0.
Proof.
  cbn zeta. intros Hlen Hsmall. unfold SolveLinearSystemCG.
  set (c0 := CG_init asb target d_p d_q d_r d_alpha d_scalar2).
  assert (Hdelta : sv_delta_1 c0 = cublasSdot (max_active asb) target target).
  { unfold c0, CG_init, cublasSdot, cudaMemcpy. cbn [sv_delta_1].
    apply big_sum_ext. intros i Hi.
    rewrite rd_write_tabulate_inside by lia. now rewrite Nat.sub_0_r. }
  rewrite CG_loop_stop.
  - split; [reflexivity|]. intros i Hi Hi'. unfold c0, CG_init, cudaMemset0.
    cbn [sv_alpha]. now rewrite rd_write_tabulate_inside by lia.
  - apply CG_cond_false. left. now rewrite Hdelta.
Qed.

Lemma SolveLinearSystemCG_small_target_witness :
  let c := SolveLinearSystemCG one_of_two [0; 0] [0; 0] [0; 0] [0; 0] [7; 7]
             0 (1 / 2) in
  sv_k c = 0%Z
  /\ forall i, (i < Z.to_nat (max_active one_of_two))%nat ->
       (i < length [7; 7])%nat -> rd (sv_alpha c) i = 0.
Proof.
  apply (SolveLinearSystemCG_small_target one_of_two [0; 0] [0; 0] [0; 0]
           [0; 0] [7; 7] 0 (1 / 2)).
  - cbn. lia.
  - eval_model. lra.
Defined.

(** X10: with a single active point in buffers of capacity one,
    [SolveLinearSystemCG] returns the exact solution [target / K] after one
    iteration, whenever the squared target exceeds the tolerance. *)
Theorem SolveLinearSystemCG_single_point (asb : ActiveSetBuffers)
    (target d_p d_q d_r d_alpha : buffer) (d_scalar2 tolerance : R) :
  let c := SolveLinearSystemCG asb target d_p d_q d_r d_alpha d_scalar2
             tolerance in
  num_active asb = 1%Z -> max_active asb = 1%Z ->
  (1 <= length d_p)%nat -> (1 <= length d_q)%nat ->
  (1 <= length d_r)%nat -> (1 <= length d_alpha)%nat ->
  rd (active_kernel_matrix asb) 0 <> 0 ->
  0 <= tolerance < rd target 0 * rd target 0 ->
  sv_k c = 1%Z
  /\ rd (sv_alpha c) 0 = rd target 0 / rd (active_kernel_matrix asb) 0.
Proof.
  cbn zeta. intros Hnum Hmax Hp Hq Hr Ha HK Htol.
  unfold SolveLinearSystemCG. rewrite Hmax. change (Z.to_nat 1) with 1%nat.
  set (c0 := CG_init asb target d_p d_q d_r d_alpha d_scalar2).
  assert (Hr0 : rd (sv_r c0) 0 = rd target 0).
  { unfold c0, CG_init, cudaMemcpy. cbn [sv_r]. rewrite Hmax.
    now rewrite rd_write_tabulate_inside by (cbn; lia). }
  assert (Hp0 : rd (sv_p c0) 0 = rd target 0).
  { rewrite <- Hr0. unfold c0, CG_init, cudaMemcpy. cbn [sv_p sv_r].
    rewrite Hmax. now rewrite rd_write_tabulate_inside by (cbn; lia). }
  assert (Ha0 : rd (sv_alpha c0) 0 = 0).
  { unfold c0, CG_init, cudaMemset0. cbn [sv_alpha]. rewrite Hmax.
    now rewrite rd_write_tabulate_inside by (cbn; lia). }
  assert (Hd0 : sv_delta_1 c0 = rd target 0 * rd target 0).
  { unfold c0, CG_init, cudaMemcpy. cbn [sv_delta_1]. rewrite Hmax.
    unfold cublasSdot. change (Z.to_nat 1) with 1%nat. cbn [big_sum].
    rewrite rd_write_tabulate_inside by lia. cbn [Nat.sub Nat.add]. ring. }
  assert (Hlens : length (sv_p c0) = length d_p
                  /\ length (sv_q c0) = length d_q
                  /\ length (sv_alpha c0) = length d_alpha).
  { unfold c0, CG_init, cudaMemcpy, cudaMemset0. cbn [sv_p sv_q sv_alpha].
    rewrite !write_seq_length. auto. }
  destruct Hlens as (Hlp & Hlq & Hla).
  rewrite CG_loop_step.
  - assert (Hzero : forall c, CG_loop 0 asb tolerance c = c).
    { intros c. cbn [CG_loop]. now destruct (CG_cond asb tolerance c). }
    rewrite Hzero. unfold CG_body. cbn [sv_k sv_alpha].
    split; [reflexivity|].
    rewrite Hnum, Hmax, Hd0.
    rewrite rd_cublasSaxpy by (rewrite ?Hla; cbn; lia).
    unfold cublasSdot. change (Z.to_nat 1) with 1%nat. cbn [big_sum].
    rewrite rd_cublasSgemv_N by (rewrite ?Hlq; cbn; lia).
    change (Z.to_nat 1) with 1%nat. cbn [big_sum]. unfold mat.
    cbn [Nat.add Nat.mul]. rewrite Hp0, Ha0. field.
    split; [exact HK|]. intros Hz. rewrite Hz in Htol. lra.
  - unfold CG_cond, Rgtb. rewrite Hd0, Hmax.
    destruct (Rgt_dec _ _) as [_|Hn]; [reflexivity|lra].
Qed.

Lemma SolveLinearSystemCG_single_point_witness :
  let asb := mkActiveSetBuffers [] [3] [2] 1 1 1 1 in
  let c := SolveLinearSystemCG asb [3] [0] [0] [0] [0] 0 (1 / 2) in
  sv_k c = 1%Z
  /\ rd (sv_alpha c) 0 = rd [3] 0 / rd (active_kernel_matrix asb) 0.
Proof.
  apply (SolveLinearSystemCG_single_point
           (mkActiveSetBuffers [] [3] [2] 1 1 1 1) [3] [0] [0] [0] [0] 0
           (1 / 2)); try reflexivity; try (cbn; lia).
  - cbn. lra.
  - cbn. lra.
Defined.

(** ** The prediction pass of [SelectCG] *)

Lemma GpPredictCG_frame {dk : DeviceKernels} (index : Z)
    (hypers : GaussianProcessHyperparams) (tolerance : R) (st : CGDevice) :
  let st' := GpPredictCG index hypers tolerance st in
  cg_activeSetBuffers st' = cg_activeSetBuffers st
  /\ cg_maxSubBuffers st' = cg_maxSubBuffers st
  /\ cg_classificationBuffers st' = cg_classificationBuffers st
  /\ cg_alpha st' = cg_alpha st
  /\ length (cg_mu st') = length (cg_mu st)
  /\ length (cg_sigma st') = length (cg_sigma st)
  /\ (forall j, j <> Z.to_nat index ->
        rd (cg_mu st') j = rd (cg_mu st) j
        /\ rd (cg_sigma st') j = rd (cg_sigma st) j)
  /\ ((Z.to_nat index < length (cg_mu st))%nat ->
      rd (cg_mu st') (Z.to_nat index)
      = cublasSdot (num_active (cg_activeSetBuffers st)) (cg_alpha st)
          (compute_kernel_vector (cg_activeSetBuffers st)
             (cg_maxSubBuffers st) index (cg_kernelVector st) hypers)).
Proof.
  cbn zeta. unfold GpPredictCG.
  cbn [cg_activeSetBuffers cg_maxSubBuffers cg_classificationBuffers
       cg_alpha cg_mu cg_sigma].
  repeat (split; [reflexivity|]).
  split; [apply wr_length|]. split; [apply wr_length|]. split.
  - intros j Hj. rewrite !rd_wr_other by auto. auto.
  - intros Hlen. now rewrite rd_wr_same.
Qed.

Lemma predict_unclassified_spec {dk : DeviceKernels}
    (h_active h_upper h_lower : flags) (hypers : GaussianProcessHyperparams)
    (tolerance : R) (n i0 : nat) (numLeft : Z) (st : CGDevice) :
  let res := predict_unclassified h_active h_upper h_lower hypers tolerance
               i0 n numLeft st in
  fst res
  = (numLeft
     + Z.of_nat (length (filter (unclassified h_active h_upper h_lower)
                           (seq i0 n))))%Z
  /\ cg_activeSetBuffers (snd res) = cg_activeSetBuffers st
  /\ cg_maxSubBuffers (snd res) = cg_maxSubBuffers st
  /\ cg_classificationBuffers (snd res) = cg_classificationBuffers st
  /\ cg_alpha (snd res) = cg_alpha st
  /\ length (cg_mu (snd res)) = length (cg_mu st)
  /\ (forall j,
        (j < i0 \/ i0 + n <= j)%nat
        \/ unclassified h_active h_upper h_lower j = false ->
        rd (cg_mu (snd res)) j = rd (cg_mu st) j
        /\ rd (cg_sigma (snd res)) j = rd (cg_sigma st) j)
  /\ (forall j,
        (i0 <= j < i0 + n)%nat ->
        unclassified h_active h_upper h_lower j = true ->
        (j < length (cg_mu st))%nat ->
        exists scratch,
          rd (cg_mu (snd res)) j
          = cublasSdot (num_active (cg_activeSetBuffers st)) (cg_alpha st)
              (compute_kernel_vector (cg_activeSetBuffers st)
                 (cg_maxSubBuffers st) (Z.of_nat j) scratch hypers)).
Proof.
  revert i0 numLeft st. induction n as [|n IH]; intros i0 numLeft st;
    cbn zeta.
  - cbn [predict_unclassified fst snd seq filter length].
    rewrite Z.add_0_r. repeat split; auto. intros j Hj. lia.
  - cbn [predict_unclassified seq filter].
    fold (unclassified h_active h_upper h_lower i0).
    destruct (unclassified h_active h_upper h_lower i0) eqn:Hu.
    + set (st1 := GpPredictCG (Z.of_nat i0) hypers tolerance st).
      destruct (GpPredictCG_frame (Z.of_nat i0) hypers tolerance st)
        as (Ha & Hs & Hc & Hal & Hlm & _ & Hother & Hhere).
      cbn zeta in Ha, Hs, Hc, Hal, Hlm, Hother, Hhere.
      fold st1 in Ha, Hs, Hc, Hal, Hlm, Hother, Hhere.
      rewrite Nat2Z.id in Hother, Hhere.
      destruct (IH (S i0) (numLeft + 1)%Z st1)
        as (Hn & Ha' & Hs' & Hc' & Hal' & Hlm' & Hout & Hin).
      cbn zeta in Hn, Ha', Hs', Hc', Hal', Hlm', Hout, Hin.
      split; [rewrite Hn; cbn [length]; lia|].
      do 5 (split; [congruence|]). split.
      * intros j Hj.
        assert (Hne : j <> i0).
        { destruct Hj as [Hj|Hj]; [lia|congruence]. }
        assert (Hj' : (j < S i0 \/ S i0 + n <= j)%nat
                      \/ unclassified h_active h_upper h_lower j = false).
        { destruct Hj as [Hj|Hj]; [left; lia|now right]. }
        destruct (Hout j Hj') as [-> ->]. now apply Hother.
      * intros j Hj Huj Hlen. destruct (Nat.eq_dec j i0) as [->|Hne].
        -- exists (cg_kernelVector st).
           destruct (Hout i0) as [-> _]; [left; lia|]. now apply Hhere.
        -- destruct (Hin j) as [scratch Hval]; [lia|exact Huj|lia|].
           exists scratch. rewrite Hval, Ha, Hs, Hal. reflexivity.
    + destruct (IH (S i0) numLeft st)
        as (Hn & Ha' & Hs' & Hc' & Hal' & Hlm' & Hout & Hin).
      cbn zeta in Hn, Ha', Hs', Hc', Hal', Hlm', Hout, Hin.
      split; [exact Hn|]. do 5 (split; [assumption|]). split.
      * intros j Hj. apply Hout.
        destruct (Nat.eq_dec j i0) as [->|Hne]; [now right|].
        destruct Hj as [Hj|Hj]; [left; lia|now right].
      * intros j Hj Huj Hlen. apply Hin; auto.
        destruct (Nat.eq_dec j i0) as [->|Hne]; [congruence|lia].
Qed.

(** X11: the prediction pass at the head of an iteration of [SelectCG]
    predicts the points that are neither active nor classified and no
    others.  [numLeft] grows by their number; the mean and the variance
    term of every other point stay as they were; each predicted point
    receives the dot product of [d_alpha] with its kernel vector; the
    active set, the pool and [d_alpha] are not changed. *)
Theorem predict_unclassified_pass {dk : DeviceKernels}
    (h_active h_upper h_lower : flags) (hypers : GaussianProcessHyperparams)
    (tolerance : R) (n i0 : nat) (numLeft : Z) (st : CGDevice) :
  let res := predict_unclassified h_active h_upper h_lower hypers tolerance
               i0 n numLeft st in
  fst res
  = (numLeft
     + Z.of_nat (length (filter (unclassified h_active h_upper h_lower)
                           (seq i0 n))))%Z
  /\ cg_activeSetBuffers (snd res) = cg_activeSetBuffers st
  /\ cg_maxSubBuffers (snd res) = cg_maxSubBuffers st
  /\ cg_classificationBuffers (snd res) = cg_classificationBuffers st
  /\ cg_alpha (snd res) = cg_alpha st
  /\ length (cg_mu (snd res)) = length (cg_mu st)
  /\ (forall j,
        (j < i0 \/ i0 + n <= j)%nat
        \/ unclassified h_active h_upper h_lower j = false ->
        rd (cg_mu (snd res)) j = rd (cg_mu st) j
        /\ rd (cg_sigma (snd res)) j = rd (cg_sigma st) j)
  /\ (forall j,
        (i0 <= j < i0 + n)%nat ->
        unclassified h_active h_upper h_lower j = true ->
        (j < length (cg_mu st))%nat ->
        exists scratch,
          rd (cg_mu (snd res)) j
          = cublasSdot (num_active (cg_activeSetBuffers st)) (cg_alpha st)
              (compute_kernel_vector (cg_activeSetBuffers st)
                 (cg_maxSubBuffers st) (Z.of_nat j) scratch hypers)).
Proof.
  exact (predict_unclassified_spec h_active h_upper h_lower hypers tolerance
           n i0 numLeft st).
Qed.

(** ** The prediction pass of [SelectChol] *)

Lemma GpPredictCholBatch_untouched {dk : DeviceKernels} (index batchSize : Z)
    (hypers : GaussianProcessHyperparams) (st : CholDevice) :
  let st' := GpPredictCholBatch index batchSize hypers st in
  activeSetBuffers st' = activeSetBuffers st
  /\ maxSubBuffers st' = maxSubBuffers st
  /\ classificationBuffers st' = classificationBuffers st
  /\ d_L st' = d_L st
  /\ d_alpha st' = d_alpha st
  /\ d_scalar1 st' = d_scalar1 st
  /\ d_scalar2 st' = d_scalar2 st
  /\ length (d_mu st') = length (d_mu st)
  /\ length (d_sigma st') = length (d_sigma st)
  /\ forall i,
       (i < Z.to_nat index \/ Z.to_nat index + Z.to_nat batchSize <= i)%nat ->
       rd (d_mu st') i = rd (d_mu st) i
       /\ rd (d_sigma st') i = rd (d_sigma st) i.
Proof.
  cbn zeta. unfold GpPredictCholBatch.
  cbn [activeSetBuffers maxSubBuffers classificationBuffers d_L d_alpha
       d_scalar1 d_scalar2 d_mu d_sigma d_gamma d_kernelVector
       set_d_kernelVector set_d_gamma set_d_mu set_d_sigma].
  repeat (split; [reflexivity|]).
  unfold cublasSgemv, norm_columns.
  split; [apply write_seq_length|]. split; [apply write_seq_length|].
  intros i Hi. rewrite !rd_write_tabulate_outside by lia. auto.
Qed.

Lemma rd_mu_GpPredictCholBatch {dk : DeviceKernels} (index batchSize : Z)
    (hypers : GaussianProcessHyperparams) (st : CholDevice) (j : nat) :
  let asb := activeSetBuffers st in
  let st' := GpPredictCholBatch index batchSize hypers st in
  let K := compute_kernel_vector_batch asb (maxSubBuffers st) index batchSize
             (d_kernelVector st) hypers in
  (j < Z.to_nat batchSize)%nat ->
  (Z.to_nat index + j < length (d_mu st))%nat ->
  rd (d_mu st') (Z.to_nat index + j)
  = d_scalar1 st
    * big_sum (fun i => mat K (Z.to_nat (max_active asb)) i j
                        * rd (d_alpha st) i) (Z.to_nat (num_active asb))
    + d_scalar2 st * rd (d_mu st) (Z.to_nat index + j).
Proof.
  cbn zeta. intros Hj Hlen. unfold GpPredictCholBatch.
  cbn [activeSetBuffers maxSubBuffers classificationBuffers d_L d_alpha
       d_scalar1 d_scalar2 d_mu d_sigma d_gamma d_kernelVector
       set_d_kernelVector set_d_gamma set_d_mu set_d_sigma].
  unfold cublasSgemv. rewrite rd_write_tabulate_inside by lia.
  replace (Z.to_nat index + j - Z.to_nat index)%nat with j by lia.
  reflexivity.
Qed.

(** X12: [GpPredictCholBatch] stores for the query point [index + j] the
    mean [d_scalar1 * (alpha . k_j) + d_scalar2 * mu], where [k_j] is
    column [j] of the kernel vectors that [compute_kernel_vector_batch]
    returned; with the scalars 1 and 0 of [SelectChol] this is the dot
    product of [d_alpha] with the kernel vector. *)
Theorem GpPredictCholBatch_mean {dk : DeviceKernels} (index batchSize : Z)
    (hypers : GaussianProcessHyperparams) (st : CholDevice) (j : nat) :
  let asb := activeSetBuffers st in
  let st' := GpPredictCholBatch index batchSize hypers st in
  let K := compute_kernel_vector_batch asb (maxSubBuffers st) index batchSize
             (d_kernelVector st) hypers in
  (j < Z.to_nat batchSize)%nat ->
  (Z.to_nat index + j < length (d_mu st))%nat ->
  rd (d_mu st') (Z.to_nat index + j)
  = d_scalar1 st
    * big_sum (fun i => mat K (Z.to_nat (max_active asb)) i j
                        * rd (d_alpha st) i) (Z.to_nat (num_active asb))
    + d_scalar2 st * rd (d_mu st) (Z.to_nat index + j).
Proof. exact (rd_mu_GpPredictCholBatch index batchSize hypers st j). Qed.

Lemma GpPredictCholBatch_mean_witness :
  rd (d_mu (GpPredictCholBatch (dk := sample_kernels) 0 1 sample_hypers
              two_point_state)) (Z.to_nat 0 + 0)
  = d_scalar1 two_point_state
    * big_sum (fun i =>
                 mat (compute_kernel_vector_batch
                        (DeviceKernels := sample_kernels)
                        (activeSetBuffers two_point_state)
                        (maxSubBuffers two_point_state) 0 1
                        (d_kernelVector two_point_state) sample_hypers)
                   (Z.to_nat (max_active (activeSetBuffers two_point_state)))
                   i 0
                 * rd (d_alpha two_point_state) i)
        (Z.to_nat (num_active (activeSetBuffers two_point_state)))
    + d_scalar2 two_point_state
      * rd (d_mu two_point_state) (Z.to_nat 0 + 0).
Proof.
  apply (GpPredictCholBatch_mean (dk := sample_kernels) 0 1 sample_hypers
           two_point_state 0); cbn; lia.
Defined.

Section PoolPass.
Context {dk : DeviceKernels}.
Variable hypers : GaussianProcessHyperparams.
Variables numPoints batchSize : Z.
Hypothesis Hbatch : (1 <= batchSize)%Z.
Hypothesis Hsum : (numPoints + batchSize < 2 ^ 31)%Z.

Lemma predict_pool_from (fuel : nat) (i : Z) (st : CholDevice) :
  (0 <= i)%Z -> (numPoints - i <= Z.of_nat fuel)%Z ->
  exists st',
    predict_pool fuel i numPoints batchSize hypers st = Some st'
    /\ activeSetBuffers st' = activeSetBuffers st
    /\ maxSubBuffers st' = maxSubBuffers st
    /\ classificationBuffers st' = classificationBuffers st
    /\ d_L st' = d_L st
    /\ d_alpha st' = d_alpha st
    /\ d_scalar1 st' = d_scalar1 st
    /\ d_scalar2 st' = d_scalar2 st
    /\ length (d_mu st') = length (d_mu st)
    /\ length (d_sigma st') = length (d_sigma st)
    /\ (forall j, (Z.of_nat j < i \/ numPoints <= Z.of_nat j)%Z ->
          rd (d_mu st') j = rd (d_mu st) j
          /\ rd (d_sigma st') j = rd (d_sigma st) j)
    /\ (forall j, (i <= Z.of_nat j < numPoints)%Z ->
          (j < length (d_mu st))%nat ->
          exists first size scratch,
            (i <= first <= Z.of_nat j)%Z
            /\ (Z.of_nat j < first + size <= numPoints)%Z
            /\ (size <= batchSize)%Z
            /\ rd (d_mu st') j
               = d_scalar1 st
                 * big_sum
                     (fun r =>
                        mat (compute_kernel_vector_batch (activeSetBuffers st)
                               (maxSubBuffers st) first size scratch hypers)
                          (Z.to_nat (max_active (activeSetBuffers st))) r
                          (j - Z.to_nat first)
                        * rd (d_alpha st) r)
                     (Z.to_nat (num_active (activeSetBuffers st)))
                 + d_scalar2 st * rd (d_mu st) j).
Proof.
  revert i st. induction fuel as [|fuel IH]; intros i st Hi Hfuel;
    cbn [predict_pool]; destruct (i <? numPoints)%Z eqn:Hlt.
  - apply Z.ltb_lt in Hlt. lia.
  - apply Z.ltb_ge in Hlt. exists st. repeat (split; [reflexivity|]).
    split; [auto|]. intros j Hj. lia.
  - apply Z.ltb_lt in Hlt. rewrite int_wrap_small by lia.
    set (size := Z.min batchSize (numPoints - i)).
    set (st1 := GpPredictCholBatch i size hypers st).
    destruct (GpPredictCholBatch_untouched i size hypers st)
      as (Ha & Hs & Hc & HL & Hal & H1 & H2 & Hlm & Hls & Hout).
    cbn zeta in Ha, Hs, Hc, HL, Hal, H1, H2, Hlm, Hls, Hout.
    fold st1 in Ha, Hs, Hc, HL, Hal, H1, H2, Hlm, Hls, Hout.
    destruct (IH (i + batchSize)%Z st1)
      as (st' & Hrun & Ha' & Hs' & Hc' & HL' & Hal' & H1' & H2' & Hlm' & Hls'
          & Hout' & Hin'); [lia|lia|].
    exists st'. split; [exact Hrun|].
    do 9 (split; [congruence|]). split.
    + intros j Hj. destruct (Hout' j) as [-> ->]; [lia|].
      apply Hout. unfold size. lia.
    + intros j Hj Hlen.
      destruct (Z_lt_ge_dec (Z.of_nat j) (i + batchSize)) as [Hhere|Hlater].
      * exists i, size, (d_kernelVector st).
        split; [lia|]. split; [unfold size; lia|].
        split; [unfold size; lia|].
        destruct (Hout' j) as [-> _]; [lia|].
        pose proof (rd_mu_GpPredictCholBatch i size hypers st
                      (j - Z.to_nat i)) as Hm.
        cbn zeta in Hm.
        replace (Z.to_nat i + (j - Z.to_nat i))%nat with j in Hm by lia.
        apply Hm; unfold size; lia.
      * destruct (Hin' j) as (first & sz & scratch & Hf & Hsz & Hb & Hval);
          [lia|lia|].
        exists first, sz, scratch. split; [lia|]. split; [lia|].
        split; [lia|].
        rewrite Hval, Ha, Hs, Hal, H1, H2.
        destruct (Hout j) as [-> _]; [unfold size; lia|]. reflexivity.
  - apply Z.ltb_ge in Hlt. exists st. repeat (split; [reflexivity|]).
    split; [auto|]. intros j Hj. lia.
Qed.

End PoolPass.

(** X13: a prediction pass of [SelectChol] over a pool of [numPoints]
    points, in batches of [batchSize >= 1], ends; it leaves the active set,
    the pool, the factor and [d_alpha] as they were and writes nothing at or
    beyond [numPoints]; and every pool point receives, from a batch that
    lies inside the pool and holds at most [batchSize] points, the mean
    [d_scalar1 * (alpha . k) + d_scalar2 * mu] for its kernel vector [k]. *)
Theorem predict_pool_pass {dk : DeviceKernels}
    (hypers : GaussianProcessHyperparams) (numPoints batchSize : Z)
    (st : CholDevice) :
  (1 <= batchSize)%Z -> (numPoints + batchSize < 2 ^ 31)%Z ->
  exists st',
    predict_pool (Z.to_nat numPoints) 0 numPoints batchSize hypers st
    = Some st'
    /\ activeSetBuffers st' = activeSetBuffers st
    /\ maxSubBuffers st' = maxSubBuffers st
    /\ classificationBuffers st' = classificationBuffers st
    /\ d_L st' = d_L st
    /\ d_alpha st' = d_alpha st
    /\ (forall j, (numPoints <= Z.of_nat j)%Z ->
          rd (d_mu st') j = rd (d_mu st) j
          /\ rd (d_sigma st') j = rd (d_sigma st) j)
    /\ (forall j, (Z.of_nat j < numPoints)%Z -> (j < length (d_mu st))%nat ->
          exists first size scratch,
            (0 <= first <= Z.of_nat j)%Z
            /\ (Z.of_nat j < first + size <= numPoints)%Z
            /\ (size <= batchSize)%Z
            /\ rd (d_mu st') j
               = d_scalar1 st
                 * big_sum
                     (fun r =>
                        mat (compute_kernel_vector_batch (activeSetBuffers st)
                               (maxSubBuffers st) first size scratch hypers)
                          (Z.to_nat (max_active (activeSetBuffers st))) r
                          (j - Z.to_nat first)
                        * rd (d_alpha st) r)
                     (Z.to_nat (num_active (activeSetBuffers st)))
                 + d_scalar2 st * rd (d_mu st) j).
Proof.
  intros Hbatch Hsum.
  destruct (predict_pool_from hypers numPoints batchSize Hbatch Hsum
              (Z.to_nat numPoints) 0 st)
    as (st' & Hrun & Ha & Hs & Hc & HL & Hal & _ & _ & _ & _ & Hout & Hin);
    [lia|lia|].
  exists st'. do 6 (split; [assumption|]). split.
  - intros j Hj. apply Hout. now right.
  - intros j Hj Hlen. apply Hin; [lia|assumption].
Qed.

Lemma predict_pool_pass_witness :
  exists st',
    predict_pool (dk := sample_kernels) (Z.to_nat 1) 0 1 1 sample_hypers
      two_point_state = Some st'
    /\ activeSetBuffers st' = activeSetBuffers two_point_state
    /\ maxSubBuffers st' = maxSubBuffers two_point_state
    /\ classificationBuffers st' = classificationBuffers two_point_state
    /\ d_L st' = d_L two_point_state
    /\ d_alpha st' = d_alpha two_point_state
    /\ (forall j, (1 <= Z.of_nat j)%Z ->
          rd (d_mu st') j = rd (d_mu two_point_state) j
          /\ rd (d_sigma st') j = rd (d_sigma two_point_state) j)
    /\ (forall j, (Z.of_nat j < 1)%Z ->
          (j < length (d_mu two_point_state))%nat ->
          exists first size scratch,
            (0 <= first <= Z.of_nat j)%Z
            /\ (Z.of_nat j < first + size <= 1)%Z
            /\ (size <= 1)%Z
            /\ rd (d_mu st') j
               = d_scalar1 two_point_state
                 * big_sum
                     (fun r =>
                        mat (compute_kernel_vector_batch
                               (DeviceKernels := sample_kernels)
                               (activeSetBuffers two_point_state)
                               (maxSubBuffers two_point_state) first size
                               scratch sample_hypers)
                          (Z.to_nat (max_active
                                       (activeSetBuffers two_point_state))) r
                          (j - Z.to_nat first)
                        * rd (d_alpha two_point_state) r)
                     (Z.to_nat (num_active
                                  (activeSetBuffers two_point_state)))
                 + d_scalar2 two_point_state * rd (d_mu two_point_state) j).
Proof.
  apply (predict_pool_pass (dk := sample_kernels) sample_hypers 1 1
           two_point_state); lia.
Defined.

Lemma predict_pool_batches_from {dk : DeviceKernels}
    (hypers : GaussianProcessHyperparams) (numPoints batchSize : Z)
    (m q fuel : nat) (st : CholDevice) :
  (1 <= batchSize)%Z -> (numPoints + batchSize < 2 ^ 31)%Z ->
  (q + m = batch_count numPoints batchSize)%nat ->
  (numPoints - Z.of_nat q * batchSize <= Z.of_nat fuel)%Z ->
  predict_pool fuel (Z.of_nat q * batchSize) numPoints batchSize hypers st
  = Some (fold_left
            (fun s b => GpPredictCholBatch (fst b) (snd b) hypers s)
            (map (batch numPoints batchSize) (seq q m)) st).
Proof.
  intros Hbatch Hsum. unfold batch_count.
  set (c := ((numPoints + batchSize - 1) / batchSize)%Z).
  assert (Hlo : (batchSize * c <= numPoints + batchSize - 1)%Z).
  { apply Z.mul_div_le. lia. }
  assert (Hhi : (numPoints + batchSize - 1 < batchSize * Z.succ c)%Z).
  { apply Z.mul_succ_div_gt. lia. }
  revert q fuel st. induction m as [|m IH]; intros q fuel st Hq Hfuel.
  - assert (Hdone : (numPoints <= Z.of_nat q * batchSize)%Z) by nia.
    destruct fuel; cbn [predict_pool seq map fold_left];
      (destruct (_ <? _)%Z eqn:Hlt; [apply Z.ltb_lt in Hlt; lia|reflexivity]).
  - assert (Hmore : (Z.of_nat q * batchSize < numPoints)%Z) by nia.
    destruct fuel as [|fuel]; [lia|].
    cbn [predict_pool seq map fold_left].
    destruct (_ <? _)%Z eqn:Hlt; [|apply Z.ltb_ge in Hlt; lia].
    rewrite int_wrap_small by nia.
    replace (Z.of_nat q * batchSize + batchSize)%Z
      with (Z.of_nat (S q) * batchSize)%Z by lia.
    apply IH; [lia|nia].
Qed.

(** X14: the pass visits the pool in [ceil (numPoints / batchSize)]
    batches, in order; batch [q] starts at [q * batchSize], every batch but
    the last holds [batchSize] points, and the last is clipped so that the
    batches end exactly at [numPoints]. *)
Theorem predict_pool_batches {dk : DeviceKernels}
    (hypers : GaussianProcessHyperparams) (numPoints batchSize : Z)
    (st : CholDevice) :
  (1 <= batchSize)%Z -> (numPoints + batchSize < 2 ^ 31)%Z ->
  predict_pool (Z.to_nat numPoints) 0 numPoints batchSize hypers st
  = Some (fold_left
            (fun s b => GpPredictCholBatch (fst b) (snd b) hypers s)
            (map (batch numPoints batchSize)
               (seq 0 (batch_count numPoints batchSize))) st)
  /\ forall q, (q < batch_count numPoints batchSize)%nat ->
       let first := fst (batch numPoints batchSize q) in
       let size := snd (batch numPoints batchSize q) in
       (first = Z.of_nat q * batchSize
        /\ 1 <= size <= batchSize
        /\ first + size <= numPoints)%Z
       /\ ((S q < batch_count numPoints batchSize)%nat -> size = batchSize)
       /\ (S q = batch_count numPoints batchSize ->
           (first + size)%Z = numPoints).
Proof.
  intros Hbatch Hsum. split.
  - apply (predict_pool_batches_from hypers numPoints batchSize
             (batch_count numPoints batchSize) 0 (Z.to_nat numPoints) st);
      auto; lia.
  - unfold batch_count.
    set (c := ((numPoints + batchSize - 1) / batchSize)%Z).
    assert (Hlo : (batchSize * c <= numPoints + batchSize - 1)%Z).
    { apply Z.mul_div_le. lia. }
    assert (Hhi : (numPoints + batchSize - 1 < batchSize * Z.succ c)%Z).
    { apply Z.mul_succ_div_gt. lia. }
    intros q Hq. unfold batch. cbn [fst snd].
    repeat split; try nia.
Qed.

Lemma predict_pool_batches_witness :
  predict_pool (dk := sample_kernels) (Z.to_nat 5) 0 5 2 sample_hypers
    two_point_state
  = Some (fold_left
            (fun s b => GpPredictCholBatch (dk := sample_kernels) (fst b)
                          (snd b) sample_hypers s)
            (map (batch 5 2) (seq 0 (batch_count 5 2))) two_point_state)
  /\ forall q, (q < batch_count 5 2)%nat ->
       let first := fst (batch 5 2 q) in
       let size := snd (batch 5 2 q) in
       (first = Z.of_nat q * 2 /\ 1 <= size <= 2 /\ first + size <= 5)%Z
       /\ ((S q < batch_count 5 2)%nat -> size = 2%Z)
       /\ (S q = batch_count 5 2 -> (first + size)%Z = 5%Z).
Proof.
  apply (predict_pool_batches (dk := sample_kernels) sample_hypers 5 2
           two_point_state); lia.
Defined.

(** ** Variance of the batched prediction *)

(** X15: for every query point of a batch, [GpPredictCholBatch] leaves in
    its column of [d_gamma] the solution of [L^T gamma = d_scalar1 * k] for
    the kernel vector [k] of the point and the factor [L] in [d_L], and
    stores the squared norm of that column in [d_sigma]: the variance
    reduction [k^T (L^T L)^-1 k] when [d_scalar1] is 1. *)
Theorem GpPredictCholBatch_variance {dk : DeviceKernels}
    (index batchSize : Z) (hypers : GaussianProcessHyperparams)
    (st : CholDevice) :
  let n := Z.to_nat (num_active (activeSetBuffers st)) in
  let lda := Z.to_nat (max_active (activeSetBuffers st)) in
  let st' := GpPredictCholBatch index batchSize hypers st in
  (n <= lda)%nat ->
  (0 <= max_active (activeSetBuffers st) * batchSize < 2 ^ 31)%Z ->
  (lda * Z.to_nat batchSize <= length (d_gamma st))%nat ->
  (Z.to_nat index + Z.to_nat batchSize <= length (d_sigma st))%nat ->
  (forall i, (i < n)%nat -> mat (d_L st) lda i i <> 0) ->
  forall j, (j < Z.to_nat batchSize)%nat ->
    triangular_solution CUBLAS_OP_T (d_L st') lda n
      (fun i => mat (d_gamma st') lda i j)
      (fun i => d_scalar1 st * mat (d_kernelVector st') lda i j)
    /\ rd (d_sigma st') (Z.to_nat index + j)
       = big_sum (fun i => mat (d_gamma st') lda i j ^ 2) n.
Proof.
  exact (GpPredictCholBatch_variance_reduction index batchSize hypers st).
Qed.

Lemma GpPredictCholBatch_variance_witness :
  let st' := GpPredictCholBatch (dk := sample_kernels) 0 1 sample_hypers
               two_point_state in
  triangular_solution CUBLAS_OP_T (d_L st') 2 2
    (fun i => mat (d_gamma st') 2 i 0)
    (fun i => d_scalar1 two_point_state * mat (d_kernelVector st') 2 i 0)
  /\ rd (d_sigma st') (Z.to_nat 0 + 0)
     = big_sum (fun i => mat (d_gamma st') 2 i 0 ^ 2) 2.
Proof.
  apply (GpPredictCholBatch_variance (dk := sample_kernels) 0 1 sample_hypers
           two_point_state).
  - cbn. lia.
  - cbn. lia.
  - cbn. lia.
  - cbn. lia.
  - intros [|[|i]] Hi; [| |cbn in Hi; lia]; eval_model; lra.
  - cbn. lia.
Defined.

(** ** The incremental factor *)

(** X16: [UpdateChol] extends the factor by one column: the entries above
    the diagonal solve [L^T c = k] for the column [k] of the kernel matrix
    of the newest point, the diagonal entry is the value that
    [compute_sqrt_var] returns, the older columns are kept, and [d_alpha]
    comes from the targets by the solves [L'^T y = targets] and
    [L' alpha = y] with the extended factor [L']. *)
Theorem UpdateChol_extends_column {dk : DeviceKernels}
    (hypers : GaussianProcessHyperparams) (st : CholDevice) :
  let asb := activeSetBuffers st in
  let n := Z.to_nat (num_active asb) in
  let lda := Z.to_nat (max_active asb) in
  let st' := UpdateChol hypers st in
  (1 <= num_active asb <= max_active asb)%Z ->
  (max_active asb * max_active asb < 2 ^ 31)%Z ->
  (lda * lda <= length (d_L st))%nat ->
  (lda <= length (d_alpha st))%nat ->
  (lda <= length (d_gamma st))%nat ->
  d_scalar1 st = 1 ->
  (forall i, (i < n - 1)%nat -> mat (d_L st) lda i i <> 0) ->
  rd (d_kernelVector st') 0 <> 0 ->
  triangular_solution CUBLAS_OP_T (d_L st) lda (n - 1)
    (fun i => mat (d_L st') lda i (n - 1))
    (fun i => mat (active_kernel_matrix asb) lda i (n - 1))
  /\ mat (d_L st') lda (n - 1) (n - 1) = rd (d_kernelVector st') 0
  /\ (forall i j, (i < lda)%nat -> (j < n - 1)%nat ->
        mat (d_L st') lda i j = mat (d_L st) lda i j)
  /\ exists y,
       triangular_solution CUBLAS_OP_T (d_L st') lda n y
         (rd (active_targets asb))
       /\ triangular_solution CUBLAS_OP_N (d_L st') lda n (rd (d_alpha st')) y.
Proof. exact (UpdateChol_spec hypers st). Qed.

Lemma UpdateChol_extends_column_witness :
  let asb := activeSetBuffers growing_state in
  let st' := UpdateChol (dk := sqrt_kernels) sample_hypers growing_state in
  triangular_solution CUBLAS_OP_T (d_L growing_state) 2 (2 - 1)
    (fun i => mat (d_L st') 2 i (2 - 1))
    (fun i => mat (active_kernel_matrix asb) 2 i (2 - 1))
  /\ mat (d_L st') 2 (2 - 1) (2 - 1) = rd (d_kernelVector st') 0
  /\ (forall i j, (i < 2)%nat -> (j < 2 - 1)%nat ->
        mat (d_L st') 2 i j = mat (d_L growing_state) 2 i j)
  /\ exists y,
       triangular_solution CUBLAS_OP_T (d_L st') 2 2 y
         (rd (active_targets asb))
       /\ triangular_solution CUBLAS_OP_N (d_L st') 2 2 (rd (d_alpha st')) y.
Proof.
  apply (UpdateChol_extends_column (dk := sqrt_kernels) sample_hypers
           growing_state).
  - cbn. lia.
  - cbn. lia.
  - cbn. lia.
  - cbn. lia.
  - cbn. lia.
  - reflexivity.
  - intros [|i] Hi; [|cbn in Hi; lia]. eval_model. lra.
  - eval_model. lra.
Defined.

Lemma big_sum_swap (f : nat -> nat -> R) (n m : nat) :
  big_sum (fun i => big_sum (fun j => f i j) m) n
  = big_sum (fun j => big_sum (fun i => f i j) n) m.
Proof.
  induction n as [|n IH]; cbn [big_sum].
  - symmetry. apply big_sum_zero. reflexivity.
  - rewrite IH, <- big_sum_plus. reflexivity.
Qed.

Lemma big_sum_trunc (f : nat -> R) (a n : nat) :
  (a <= n)%nat -> (forall k, (a <= k < n)%nat -> f k = 0) ->
  big_sum f n = big_sum f a.
Proof.
  intros Han Hz. induction n as [|n IH].
  - now replace a with 0%nat by lia.
  - destruct (Nat.eq_dec a (S n)) as [->|Hne]; [reflexivity|].
    cbn [big_sum]. rewrite IH, Hz by (try intros; try apply Hz; lia). lra.
Qed.

Lemma big_sum_offset (g : nat -> R) (i n : nat) :
  (i <= n)%nat ->
  big_sum (fun d => g (i + d)%nat) (n - i)
  = big_sum (fun j => if (i <=? j)%nat then g j else 0) n.
Proof.
  intros Hin. induction n as [|n IH].
  - reflexivity.
  - destruct (Nat.eq_dec i (S n)) as [->|Hne].
    + rewrite Nat.sub_diag. cbn [big_sum]. symmetry.
      rewrite big_sum_zero.
      * destruct (Nat.leb_spec (S n) n); [lia|lra].
      * intros j Hj. destruct (Nat.leb_spec (S n) j); [lia|reflexivity].
    + replace (S n - i)%nat with (S (n - i)) by lia. cbn [big_sum].
      rewrite IH by lia. replace (i + (n - i))%nat with n by lia.
      destruct (Nat.leb_spec i n); [reflexivity|lia].
Qed.

Lemma upper_rows_sum (L : buffer) (lda n k : nat) (x : nat -> R) :
  (k <= n)%nat ->
  big_sum (fun d => mat L lda k (k + d) * x (k + d)%nat) (n - k)
  = big_sum (fun j => upper_entry L lda k j * x j) n.
Proof.
  intros Hk.
  rewrite (big_sum_offset (fun j => mat L lda k j * x j)) by assumption.
  apply big_sum_ext. intros j _. unfold upper_entry.
  destruct (k <=? j)%nat; ring.
Qed.

Lemma upper_cols_sum (L : buffer) (lda n i : nat) (y : nat -> R) :
  (i < n)%nat ->
  big_sum (fun k => mat L lda k i * y k) (S i)
  = big_sum (fun k => upper_entry L lda k i * y k) n.
Proof.
  intros Hi. symmetry. rewrite (big_sum_trunc _ (S i)).
  - apply big_sum_ext. intros k Hk. unfold upper_entry.
    destruct (Nat.leb_spec k i); [reflexivity|lia].
  - lia.
  - intros k Hk. unfold upper_entry.
    destruct (Nat.leb_spec k i); [lia|ring].
Qed.

(** The product [L^T (L x)] with an upper factor [L] of the symmetric
    matrix [K] is [K x]. *)
Lemma factor_product (L K : buffer) (lda n : nat) (x : nat -> R) :
  upper_factor_of L K lda n -> symmetric_block K lda n ->
  forall i, (i < n)%nat ->
    big_sum (fun k => upper_entry L lda k i
                      * big_sum (fun j => upper_entry L lda k j * x j) n) n
    = big_sum (fun j => mat K lda i j * x j) n.
Proof.
  intros Hfac Hsym i Hi.
  assert (HG : forall j, (j < n)%nat ->
            big_sum (fun k => upper_entry L lda k i * upper_entry L lda k j) n
            = mat K lda i j).
  { intros j Hj. destruct (Nat.le_gt_cases i j) as [Hij|Hji].
    - rewrite <- (Hfac i j) by lia. rewrite (big_sum_trunc _ (S i)).
      + apply big_sum_ext. intros k Hk. unfold upper_entry.
        destruct (Nat.leb_spec k i); [|lia].
        destruct (Nat.leb_spec k j); [reflexivity|lia].
      + lia.
      + intros k Hk. unfold upper_entry.
        destruct (Nat.leb_spec k i); [lia|ring].
    - rewrite (Hsym i j) by lia. rewrite <- (Hfac j i) by lia.
      rewrite (big_sum_trunc _ (S j)).
      + apply big_sum_ext. intros k Hk. unfold upper_entry.
        destruct (Nat.leb_spec k i); [|lia].
        destruct (Nat.leb_spec k j); [ring|lia].
      + lia.
      + intros k Hk. unfold upper_entry.
        destruct (Nat.leb_spec k j); [lia|ring]. }
  transitivity
    (big_sum (fun k => big_sum (fun j => upper_entry L lda k i
                                         * upper_entry L lda k j * x j) n) n).
  - apply big_sum_ext. intros k Hk.
    rewrite <- big_sum_scale. apply big_sum_ext. intros j _. ring.
  - rewrite big_sum_swap. apply big_sum_ext. intros j Hj.
    rewrite <- (HG j) by lia. rewrite Rmult_comm, <- big_sum_scale.
    apply big_sum_ext. intros k _. ring.
Qed.

(** The normal equations: a vector obtained by the two triangular solves
    with an upper factor of a symmetric matrix solves the system of the
    matrix itself. *)
Lemma factor_solves_system (L K : buffer) (lda n : nat)
    (y alpha t : nat -> R) :
  upper_factor_of L K lda n -> symmetric_block K lda n ->
  triangular_solution CUBLAS_OP_T L lda n y t ->
  triangular_solution CUBLAS_OP_N L lda n alpha y ->
  forall i, (i < n)%nat ->
    big_sum (fun j => mat K lda i j * alpha j) n = t i.
Proof.
  intros Hfac Hsym HT HN i Hi.
  rewrite <- (factor_product L K lda n alpha Hfac Hsym i Hi).
  rewrite <- (HT i Hi). cbn match. rewrite (upper_cols_sum L lda n i y Hi).
  apply big_sum_ext. intros k Hk. f_equal.
  rewrite <- (HN k Hk). cbn match. symmetry. apply upper_rows_sum. lia.
Qed.

Lemma UpdateChol_factor_spec {dk : DeviceKernels}
    (hypers : GaussianProcessHyperparams) (st : CholDevice) :
  let asb := activeSetBuffers st in
  let K := active_kernel_matrix asb in
  let n := Z.to_nat (num_active asb) in
  let lda := Z.to_nat (max_active asb) in
  let st' := UpdateChol hypers st in
  (1 <= num_active asb <= max_active asb)%Z ->
  (max_active asb * max_active asb < 2 ^ 31)%Z ->
  (lda * lda <= length (d_L st))%nat ->
  (lda <= length (d_alpha st))%nat ->
  (lda <= length (d_gamma st))%nat ->
  d_scalar1 st = 1 ->
  (forall i, (i < n - 1)%nat -> mat (d_L st) lda i i <> 0) ->
  rd (d_kernelVector st') 0 <> 0 ->
  upper_factor_of (d_L st) K lda (n - 1) ->
  rd (d_kernelVector st') 0 * rd (d_kernelVector st') 0
  = mat K lda (n - 1) (n - 1)
    - big_sum (fun r => mat (d_L st') lda r (n - 1)
                        * mat (d_L st') lda r (n - 1)) (n - 1) ->
  upper_factor_of (d_L st') K lda n
  /\ (symmetric_block K lda n ->
      forall i, (i < n)%nat ->
        big_sum (fun j => mat K lda i j * rd (d_alpha st') j) n
        = rd (active_targets asb) i).
Proof.
  cbn zeta. intros Hn Hsq HL Ha Hg Hone Hdiag Hnew Hfac Hpivot.
  destruct (UpdateChol_spec hypers st Hn Hsq HL Ha Hg Hone Hdiag Hnew)
    as (Hcol & Hd & Hold & y & HT & HN).
  set (n := Z.to_nat (num_active (activeSetBuffers st))) in *.
  set (lda := Z.to_nat (max_active (activeSetBuffers st))) in *.
  assert (Hnl : (1 <= n <= lda)%nat) by (unfold n, lda; lia).
  assert (Hnew_factor :
    upper_factor_of (d_L (UpdateChol hypers st))
      (active_kernel_matrix (activeSetBuffers st)) lda n).
  { intros i j Hij. destruct (Nat.eq_dec j (n - 1)) as [->|Hj].
    - destruct (Nat.eq_dec i (n - 1)) as [->|Hi].
      + cbn [big_sum]. rewrite Hd. lra.
      + rewrite <- (Hcol i) by lia. apply big_sum_ext. intros r Hr.
        rewrite Hold by lia. reflexivity.
    - rewrite <- (Hfac i j) by lia. apply big_sum_ext. intros r Hr.
      rewrite !Hold by lia. reflexivity. }
  split; [exact Hnew_factor|].
  intros Hsym i Hi.
  now apply (factor_solves_system _ _ _ _ y _ _ Hnew_factor Hsym HT HN).
Qed.

(** X17: [UpdateChol] keeps the factorisation valid and solves the
    regression system.  When [d_L] holds an upper Cholesky factor of the
    kernel matrix of the older active points and the square of the value
    that [compute_sqrt_var] returns is the pivot
    [K(n-1, n-1) - |c|^2] of the new column [c], then the extended [d_L] is
    an upper Cholesky factor of the kernel matrix of all [n] active points,
    and [d_alpha] solves [K alpha = targets] if [K] is symmetric. *)
Theorem UpdateChol_extends_factor {dk : DeviceKernels}
    (hypers : GaussianProcessHyperparams) (st : CholDevice) :
  let asb := activeSetBuffers st in
  let K := active_kernel_matrix asb in
  let n := Z.to_nat (num_active asb) in
  let lda := Z.to_nat (max_active asb) in
  let st' := UpdateChol hypers st in
  (1 <= num_active asb <= max_active asb)%Z ->
  (max_active asb * max_active asb < 2 ^ 31)%Z ->
  (lda * lda <= length (d_L st))%nat ->
  (lda <= length (d_alpha st))%nat ->
  (lda <= length (d_gamma st))%nat ->
  d_scalar1 st = 1 ->
  (forall i, (i < n - 1)%nat -> mat (d_L st) lda i i <> 0) ->
  rd (d_kernelVector st') 0 <> 0 ->
  upper_factor_of (d_L st) K lda (n - 1) ->
  rd (d_kernelVector st') 0 * rd (d_kernelVector st') 0
  = mat K lda (n - 1) (n - 1)
    - big_sum (fun r => mat (d_L st') lda r (n - 1)
                        * mat (d_L st') lda r (n - 1)) (n - 1) ->
  upper_factor_of (d_L st') K lda n
  /\ (symmetric_block K lda n ->
      forall i, (i < n)%nat ->
        big_sum (fun j => mat K lda i j * rd (d_alpha st') j) n
        = rd (active_targets asb) i).
Proof. exact (UpdateChol_factor_spec hypers st). Qed.

Lemma UpdateChol_extends_factor_witness :
  let K := active_kernel_matrix (activeSetBuffers growing_state) in
  let st' := UpdateChol (dk := sqrt_kernels) sample_hypers growing_state in
  upper_factor_of (d_L st') K 2 2
  /\ (symmetric_block K 2 2 ->
      forall i, (i < 2)%nat ->
        big_sum (fun j => mat K 2 i j * rd (d_alpha st') j) 2
        = rd (active_targets (activeSetBuffers growing_state)) i).
Proof.
  apply (UpdateChol_extends_factor (dk := sqrt_kernels) sample_hypers
           growing_state).
  - cbn. lia.
  - cbn. lia.
  - cbn. lia.
  - cbn. lia.
  - cbn. lia.
  - reflexivity.
  - intros [|i] Hi; [|cbn in Hi; lia]. eval_model. lra.
  - eval_model. lra.
  - intros [|i] [|j] Hij; try (cbn in Hij; lia). eval_model. lra.
  - eval_model. lra.
Defined.

(** ** Full inversion *)

(** X18: [SelectFullInversion] never initialises the two scalars of its
    [cublasSgemv]: the predicted mean of point [j] is the content [s1] of
    the fresh cell [d_scalar1] times row [j] of the product of the matrix
    that [culaDeviceSgesv] left in place of the kernel matrix with the
    solution it returned, plus the content of [d_scalar2] times the 0 that
    [cudaMemset] stored in [d_mu]. *)
Theorem SelectFullInversion_mean {dk : DeviceKernels} {ik : InversionKernels}
    {acc : Accumulators} (junk : nat -> nat -> R) (pivots : list Z)
    (inputPoints targetPoints : buffer) (inputDim targetDim numPoints : Z)
    (hypers : GaussianProcessHyperparams) (j : nat) :
  let r := SelectFullInversion junk pivots inputPoints targetPoints inputDim
             targetDim numPoints hypers in
  (j < Z.to_nat numPoints)%nat ->
  rd (inv_mu r) j
  = junk 3%nat 0%nat
    * big_sum
        (fun i => mat (active_kernel_matrix (inv_activeSetBuffers r))
                    (Z.to_nat numPoints) j i
                  * rd (inv_alpha r) i) (Z.to_nat numPoints)
    + junk 4%nat 0%nat * 0.
Proof.
  cbn zeta. intros Hj. unfold SelectFullInversion.
  destruct (form_kernel_matrix _ _ _ _ _) as [asb sub].
  destruct (culaDeviceSgesv _ _ _ _ _ _ _) as [[K P] alpha].
  cbn [inv_mu inv_alpha inv_activeSetBuffers set_active_kernel_matrix
       active_kernel_matrix].
  assert (Hlen : length (cudaMemset0 (cudaMalloc (junk 0%nat) numPoints)
                           numPoints) = Z.to_nat numPoints).
  { unfold cudaMemset0, cudaMalloc.
    now rewrite write_seq_length, tabulate_length. }
  rewrite rd_cublasSgemv_N by (rewrite ?Hlen; lia).
  do 2 f_equal. unfold cudaMemset0, cudaMalloc.
  rewrite rd_write_tabulate_inside by (rewrite ?tabulate_length; lia).
  reflexivity.
Qed.

Lemma SelectFullInversion_mean_witness :
  let r := SelectFullInversion (dk := sample_kernels) (ik := sample_inversion)
             (acc := sample_accumulators) (fun a _ => INR a) [] [] [] 1 1 2
             sample_hypers in
  rd (inv_mu r) 0
  = INR 3
    * big_sum
        (fun i => mat (active_kernel_matrix (inv_activeSetBuffers r))
                    (Z.to_nat 2) 0 i
                  * rd (inv_alpha r) i) (Z.to_nat 2)
    + INR 4 * 0.
Proof.
  apply (SelectFullInversion_mean (dk := sample_kernels)
           (ik := sample_inversion) (acc := sample_accumulators)
           (fun a _ => INR a) [] [] [] 1 1 2 sample_hypers 0).
  cbn. lia.
Defined.

(** ** Full factorisation *)

Lemma write_seq_tabulate_full (b : buffer) (f : nat -> R) (n : nat) :
  length b = n -> write_seq b 0 (tabulate f n) = tabulate f n.
Proof.
  intros Hlen. apply (nth_ext _ _ 0 0).
  - now rewrite write_seq_length, tabulate_length.
  - intros i Hi. rewrite write_seq_length in Hi.
    change (rd (write_seq b 0 (tabulate f n)) i = nth i (tabulate f n) 0).
    rewrite rd_write_tabulate_inside by lia.
    rewrite nth_tabulate by lia. now rewrite Nat.sub_0_r.
Qed.

(** X19: [SolveLinearSystemChol] starts from scratch.  With [d_L] and
    [d_alpha] of exactly the capacity of the active set, the factor it
    leaves is [culaDeviceSpotrf] of a copy of the kernel matrix and the
    solution is [culaDeviceSpotrs] of that factor and a copy of the
    targets, whatever [d_L] and [d_alpha] held before; the kernel matrix
    and the targets themselves, the pool and the predictions are not
    written. *)
Theorem SolveLinearSystemChol_from_scratch {dk : DeviceKernels}
    (st : CholDevice) :
  let asb := activeSetBuffers st in
  let ma := max_active asb in
  let st' := SolveLinearSystemChol st in
  (0 <= ma)%Z -> (ma * ma < 2 ^ 31)%Z ->
  length (d_L st) = Z.to_nat (ma * ma) ->
  length (d_alpha st) = Z.to_nat ma ->
  d_L st'
  = culaDeviceSpotrf (num_active asb)
      (tabulate (rd (active_kernel_matrix asb)) (Z.to_nat (ma * ma))) ma
  /\ d_alpha st'
     = culaDeviceSpotrs (num_active asb) 1 (d_L st') ma
         (tabulate (rd (active_targets asb)) (Z.to_nat ma)) ma
  /\ activeSetBuffers st' = asb
  /\ maxSubBuffers st' = maxSubBuffers st
  /\ classificationBuffers st' = classificationBuffers st
  /\ d_mu st' = d_mu st
  /\ d_sigma st' = d_sigma st
  /\ d_gamma st' = d_gamma st
  /\ d_kernelVector st' = d_kernelVector st.
Proof.
  cbn zeta. intros Hma Hsq HL Ha. unfold SolveLinearSystemChol.
  cbn [activeSetBuffers maxSubBuffers classificationBuffers d_L d_alpha
       d_scalar1 d_scalar2 d_mu d_sigma d_gamma d_kernelVector
       set_d_alpha set_d_L].
  rewrite int_wrap_small by nia. unfold cudaMemcpy.
  rewrite !write_seq_tabulate_full by assumption.
  repeat split; reflexivity.
Qed.

Lemma SolveLinearSystemChol_from_scratch_witness :
  let asb := activeSetBuffers full_solve_state in
  let st' := SolveLinearSystemChol (dk := sample_kernels) full_solve_state in
  d_L st'
  = culaDeviceSpotrf (DeviceKernels := sample_kernels) (num_active asb)
      (tabulate (rd (active_kernel_matrix asb)) (Z.to_nat (2 * 2))) 2
  /\ d_alpha st'
     = culaDeviceSpotrs (DeviceKernels := sample_kernels) (num_active asb) 1
         (d_L st') 2 (tabulate (rd (active_targets asb)) (Z.to_nat 2)) 2
  /\ activeSetBuffers st' = asb
  /\ maxSubBuffers st' = maxSubBuffers full_solve_state
  /\ classificationBuffers st' = classificationBuffers full_solve_state
  /\ d_mu st' = d_mu full_solve_state
  /\ d_sigma st' = d_sigma full_solve_state
  /\ d_gamma st' = d_gamma full_solve_state
  /\ d_kernelVector st' = d_kernelVector full_solve_state.
Proof.
  apply (SolveLinearSystemChol_from_scratch (dk := sample_kernels)
           full_solve_state); cbn; lia.
Defined.

(** ** Prediction with the conjugate-gradient solver *)

(** X20: the variance term that [GpPredictCG] stores for the point
    [index] is the dot product [gamma . k] of the kernel vector [k] of the
    point with the vector [gamma] that [SolveLinearSystemCG] returned for
    the right-hand side [k]; when no iteration of the solver divides by
    zero, [K gamma = k - r] on the active entries, with the residual [r]
    that the solver left. *)
Theorem GpPredictCG_variance_term {dk : DeviceKernels} (index : Z)
    (hypers : GaussianProcessHyperparams) (tolerance : R) (st : CGDevice) :
  let asb := cg_activeSetBuffers st in
  let n := Z.to_nat (num_active asb) in
  let lda := Z.to_nat (max_active asb) in
  let st' := GpPredictCG index hypers tolerance st in
  CG_divisors_nonzero asb tolerance
    (CG_init asb
       (compute_kernel_vector asb (cg_maxSubBuffers st) index
          (cg_kernelVector st) hypers)
       (cg_p st) (cg_q st) (cg_r st) (cg_gamma st) (cg_scalar2 st)) ->
  (n <= lda)%nat -> (n <= length (cg_gamma st))%nat ->
  (n <= length (cg_r st))%nat -> (n <= length (cg_q st))%nat ->
  (Z.to_nat index < length (cg_sigma st))%nat ->
  rd (cg_sigma st') (Z.to_nat index)
  = big_sum (fun i => rd (cg_gamma st') i * rd (cg_kernelVector st') i) n
  /\ forall i, (i < n)%nat ->
       big_sum (fun j => mat (active_kernel_matrix asb) lda i j
                         * rd (cg_gamma st') j) n
       = rd (cg_kernelVector st') i - rd (cg_r st') i.
Proof.
  cbn zeta. intros _ Hn Hg Hr Hq Hidx. unfold GpPredictCG.
  cbn [cg_sigma cg_gamma cg_kernelVector cg_r cg_activeSetBuffers].
  split.
  - rewrite rd_wr_same by assumption. reflexivity.
  - intros i Hi.
    set (k := compute_kernel_vector _ _ _ _ _).
    destruct (SolveLinearSystemCG_is_iterate (cg_activeSetBuffers st) k
                (cg_p st) (cg_q st) (cg_r st) (cg_gamma st) (cg_scalar2 st)
                tolerance) as [m ->].
    rewrite (CG_iter_residual (cg_activeSetBuffers st) k (cg_p st) (cg_q st)
               (cg_r st) (cg_gamma st) (cg_scalar2 st) m i)
      by assumption.
    ring.
Qed.

Lemma GpPredictCG_variance_term_witness :
  let st' := GpPredictCG (dk := sample_kernels) 0 sample_hypers (1 / 8)
               single_point_cg_state in
  rd (cg_sigma st') (Z.to_nat 0)
  = big_sum (fun i => rd (cg_gamma st') i * rd (cg_kernelVector st') i) 1
  /\ forall i, (i < 1)%nat ->
       big_sum (fun j => mat (active_kernel_matrix single_point) 1 i j
                         * rd (cg_gamma st') j) 1
       = rd (cg_kernelVector st') i - rd (cg_r st') i.
Proof.
  apply (GpPredictCG_variance_term (dk := sample_kernels) 0 sample_hypers
           (1 / 8) single_point_cg_state); try (cbn; lia).
  apply (CG_divisors_nonzero_within _ _ _ 1).
  - cbn. lia.
  - intros [|j] Hj; [|lia]. split; eval_model; lra.
Defined.

(** X21: the closing pass of [SelectCG] predicts every pool point,
    whatever its flags: each point of the range receives the dot product of
    [d_alpha] with its kernel vector, the predictions outside the range
    stay, and the active set, the pool and [d_alpha] are not changed. *)
Theorem predict_every_pass {dk : DeviceKernels}
    (hypers : GaussianProcessHyperparams) (tolerance : R) (n i0 : nat)
    (st : CGDevice) :
  let st' := predict_every hypers tolerance i0 n st in
  cg_activeSetBuffers st' = cg_activeSetBuffers st
  /\ cg_maxSubBuffers st' = cg_maxSubBuffers st
  /\ cg_classificationBuffers st' = cg_classificationBuffers st
  /\ cg_alpha st' = cg_alpha st
  /\ length (cg_mu st') = length (cg_mu st)
  /\ (forall j, (j < i0 \/ i0 + n <= j)%nat ->
        rd (cg_mu st') j = rd (cg_mu st) j
        /\ rd (cg_sigma st') j = rd (cg_sigma st) j)
  /\ (forall j, (i0 <= j < i0 + n)%nat -> (j < length (cg_mu st))%nat ->
        exists scratch,
          rd (cg_mu st') j
          = cublasSdot (num_active (cg_activeSetBuffers st)) (cg_alpha st)
              (compute_kernel_vector (cg_activeSetBuffers st)
                 (cg_maxSubBuffers st) (Z.of_nat j) scratch hypers)).
Proof.
  revert i0 st. induction n as [|n IH]; intros i0 st; cbn zeta.
  - cbn [predict_every]. repeat split; auto. intros j Hj. lia.
  - cbn [predict_every].
    set (st1 := GpPredictCG (Z.of_nat i0) hypers tolerance st).
    destruct (GpPredictCG_frame (Z.of_nat i0) hypers tolerance st)
      as (Ha & Hs & Hc & Hal & Hlm & _ & Hother & Hhere).
    cbn zeta in Ha, Hs, Hc, Hal, Hlm, Hother, Hhere.
    fold st1 in Ha, Hs, Hc, Hal, Hlm, Hother, Hhere.
    rewrite Nat2Z.id in Hother, Hhere.
    destruct (IH (S i0) st1) as (Ha' & Hs' & Hc' & Hal' & Hlm' & Hout & Hin).
    cbn zeta in Ha', Hs', Hc', Hal', Hlm', Hout, Hin.
    do 5 (split; [congruence|]). split.
    + intros j Hj. destruct (Hout j ltac:(lia)) as [Hm Hsg].
      rewrite Hm, Hsg. apply Hother. lia.
    + intros j Hj Hlen. destruct (Nat.eq_dec j i0) as [->|Hne].
      * exists (cg_kernelVector st).
        destruct (Hout i0 ltac:(lia)) as [Hm _]. rewrite Hm.
        now apply Hhere.
      * destruct (Hin j ltac:(lia) ltac:(lia)) as [scratch Hmu].
        exists scratch. rewrite Hmu, Ha, Hs, Hal. reflexivity.
Qed.

(** ** Edges of the selection loops *)

Lemma SelectChol_seed_run {dk : DeviceKernels} (junk : nat -> nat -> R)
    (maxSize : Z) (inputPoints targetPoints : buffer)
    (hypers : GaussianProcessHyperparams) (inputDim targetDim numPoints : Z)
    (tolerance : R) (batchSize startIndex : Z) :
  let seed := SelectChol_seed junk maxSize inputPoints targetPoints hypers
                inputDim targetDim numPoints tolerance batchSize startIndex in
  fst seed = clamped maxSize numPoints
  /\ sel_k (snd seed) = 1%Z
  /\ sel_nextIndex (snd seed) = 0%Z
  /\ sel_indices (snd seed)
     = [if (startIndex =? -1)%Z then Z.rem rand numPoints else startIndex]
  /\ sel_betas (snd seed) = []
  /\ sel_updates (snd seed) = 1%nat.
Proof.
  cbn zeta. unfold SelectChol_seed. fold (clamped maxSize numPoints).
  destruct (update_active_set_buffers _ _ _) as [asb sub].
  cbn [fst snd sel_k sel_nextIndex sel_indices sel_betas sel_updates].
  repeat split; reflexivity.
Qed.



(** X23: on a pool of at least one point, [SelectCG] runs no iteration of
    its loop when [maxSize] is 0 or 1 or when the pool holds one point only
    (then no point is left after the seed): it returns the state in which
    the loop is entered, with [k = 1] and no assignment to [beta], and goes
    straight to the closing prediction pass. *)
Theorem SelectCG_without_iteration {dk : DeviceKernels}
    {acc : Accumulators} (junk : nat -> nat -> R) (maxSize : Z)
    (inputPoints targetPoints : buffer) (mode : SubsetSelectionMode)
    (hypers : GaussianProcessHyperparams) (inputDim targetDim numPoints : Z)
    (tolerance : R) :
  (1 <= numPoints)%Z -> (0 <= maxSize)%Z ->
  (maxSize <= 1 \/ numPoints = 1)%Z ->
  exists res,
    SelectCG junk maxSize inputPoints targetPoints mode hypers inputDim
      targetDim numPoints tolerance = Some res
    /\ cres_run res
       = snd (SelectCG_seed junk maxSize inputPoints targetPoints hypers
                inputDim targetDim numPoints tolerance)
    /\ cres_final res
       = predict_every hypers tolerance 0 (Z.to_nat (uint_wrap numPoints))
           (cgr_dev (cres_run res))
    /\ cgr_k (cres_run res) = 1%Z
    /\ cgr_betas (cres_run res) = []
    /\ cgr_updates (cres_run res) = 1%nat.
Proof.
  intros HN HM Hcap. unfold SelectCG.
  assert (Hseed :
    let seed := SelectCG_seed junk maxSize inputPoints targetPoints hypers
                  inputDim targetDim numPoints tolerance in
    fst seed = clamped maxSize numPoints
    /\ cgr_k (snd seed) = 1%Z
    /\ cgr_numLeft (snd seed) = (numPoints - 1)%Z
    /\ cgr_betas (snd seed) = []
    /\ cgr_updates (snd seed) = 1%nat).
  { cbn zeta. unfold SelectCG_seed. fold (clamped maxSize numPoints).
    destruct (update_active_set_buffers _ _ _) as [asb sub].
    cbn [fst snd cgr_k cgr_numLeft cgr_betas cgr_updates].
    repeat split; reflexivity. }
  cbn zeta in Hseed. destruct Hseed as (Hfst & Hk & Hleft & Hbetas & Hupd).
  destruct (SelectCG_seed _ _ _ _ _ _ _ _ _) as [M r0].
  cbn [fst snd] in *. subst M. rewrite clamped_min.
  assert (Hcond : SelectCG_cond (Z.min maxSize numPoints) r0 = false).
  { unfold SelectCG_cond. rewrite Hk, Hleft. apply andb_false_iff.
    destruct (Z.le_gt_cases numPoints 1) as [Hfew|Hmany].
    - right. rewrite Z.gtb_ltb. apply Z.ltb_ge. lia.
    - left. rewrite uint_wrap_small by lia. apply Z.ltb_ge. lia. }
  assert (Hloop : forall fuel level,
            SelectCG_loop fuel hypers (Z.min maxSize numPoints) numPoints
              tolerance level r0 = Some r0).
  { intros [|fuel] level; cbn [SelectCG_loop]; now rewrite Hcond. }
  rewrite Hloop. eexists. split; [reflexivity|].
  cbn [cres_run cres_final]. repeat split; assumption.
Qed.

Lemma SelectCG_without_iteration_witness :
  exists res,
    SelectCG (dk := sample_kernels) (acc := sample_accumulators)
      (fun _ _ => 0) 4 [] [] LEVEL_SET sample_hypers 1 1 1 (1 / 2) = Some res
    /\ cres_run res
       = snd (SelectCG_seed (dk := sample_kernels) (fun _ _ => 0) 4 [] []
                sample_hypers 1 1 1 (1 / 2))
    /\ cres_final res
       = predict_every (dk := sample_kernels) sample_hypers (1 / 2) 0
           (Z.to_nat (uint_wrap 1)) (cgr_dev (cres_run res))
    /\ cgr_k (cres_run res) = 1%Z
    /\ cgr_betas (cres_run res) = []
    /\ cgr_updates (cres_run res) = 1%nat.
Proof.
  apply (SelectCG_without_iteration (dk := sample_kernels)
           (acc := sample_accumulators) (fun _ _ => 0) 4 [] [] LEVEL_SET
           sample_hypers 1 1 1 (1 / 2)); lia.
Defined.

(** X24: on a pool of at least one point, the first index that
    [SelectChol] records is the seed point: [startIndex], or
    [rand() % numPoints] when [startIndex] is [-1], which lies in the pool
    as [rand()] is not negative; the indices that the iterations choose
    follow it. *)
Theorem SelectChol_first_index {dk : DeviceKernels}
    {acc : Accumulators} (junk : nat -> nat -> R) (maxSize : Z)
    (inputPoints targetPoints : buffer) (mode : SubsetSelectionMode)
    (hypers : GaussianProcessHyperparams) (inputDim targetDim numPoints : Z)
    (tolerance accuracy : R) (batchSize startIndex : Z) (incremental : bool) :
  (1 <= numPoints)%Z ->
  (1 <= batchSize)%Z -> (numPoints + batchSize < 2 ^ 31)%Z ->
  exists res results,
    SelectChol junk maxSize inputPoints targetPoints mode hypers inputDim
      targetDim numPoints tolerance accuracy batchSize startIndex incremental
    = Some res
    /\ sel_indices (res_run res)
       = (if (startIndex =? -1)%Z then Z.rem rand numPoints else startIndex)
         :: results
    /\ sel_k (res_run res) = (1 + Z.of_nat (length results))%Z
    /\ (startIndex = (-1)%Z -> (0 <= rand)%Z ->
        (0 <= hd 0%Z (sel_indices (res_run res)) < numPoints)%Z).
Proof.
  intros HN Hbatch Hsum. unfold SelectChol.
  destruct (SelectChol_seed_run junk maxSize inputPoints targetPoints hypers
              inputDim targetDim numPoints tolerance batchSize startIndex)
    as (Hfst & _ & _ & Hidx & _).
  destruct (SelectChol_seed_spec junk inputPoints targetPoints hypers maxSize
              inputDim targetDim numPoints batchSize startIndex tolerance)
    as (_ & _ & _ & first & Hinv).
  destruct (SelectChol_seed _ _ _ _ _ _ _ _ _ _ _) as [M r0].
  cbn [fst snd] in *. subst M.
  assert (Hfirst : first = if (startIndex =? -1)%Z
                           then Z.rem rand numPoints else startIndex).
  { destruct Hinv as (results & Hi & _). rewrite Hidx in Hi. congruence. }
  destruct (SelectChol_loop_inv hypers numPoints batchSize
              (clamped maxSize numPoints) first tolerance accuracy 0
              incremental Hbatch Hsum
              (Z.to_nat (uint_wrap (clamped maxSize numPoints))) r0 Hinv)
    as (r & Hloop & (results & Hi & _ & _ & Hk & _) & _).
  { pose proof (uint_wrap_range (clamped maxSize numPoints)).
    destruct Hinv as (res & _ & _ & _ & Hk & _). lia. }
  rewrite Hloop.
  destruct (predict_pool_total hypers numPoints batchSize Hbatch Hsum
              (Z.to_nat numPoints) 0 (sel_dev r)) as [st Hst]; [lia|lia|].
  rewrite Hst. eexists. exists results. split; [reflexivity|].
  cbn [res_run]. rewrite Hi, Hfirst. split; [reflexivity|].
  split; [exact Hk|].
  intros Hstart Hrand. subst startIndex. cbn [hd Z.eqb].
  apply Z.rem_bound_pos; lia.
Qed.

Lemma SelectChol_first_index_witness :
  exists res results,
    SelectChol (dk := sample_kernels) (acc := sample_accumulators)
      (fun _ _ => 0) 4 [] [] LEVEL_SET sample_hypers 1 1 4 (1 / 2) 0 1 (-1)
      true = Some res
    /\ sel_indices (res_run res)
       = (if (-1 =? -1)%Z
          then Z.rem (rand (DeviceKernels := sample_kernels)) 4
          else (-1)%Z) :: results
    /\ sel_k (res_run res) = (1 + Z.of_nat (length results))%Z
    /\ ((-1 = -1)%Z -> (0 <= rand (DeviceKernels := sample_kernels))%Z ->
        (0 <= hd 0%Z (sel_indices (res_run res)) < 4)%Z).
Proof.
  apply (SelectChol_first_index (dk := sample_kernels)
           (acc := sample_accumulators) (fun _ _ => 0) 4 [] [] LEVEL_SET
           sample_hypers 1 1 4 (1 / 2) 0 1 (-1) true); lia.
Defined.

(** ** Prediction at a single point *)

(** X25: [GpPredictChol] writes the cell [index] of [d_mu] and of [d_sigma]
    and no other cell of them: the mean is the dot product of [d_alpha]
    with the kernel vector [k] of the point, and the variance term is the
    squared norm of the vector [gamma] that the back substitution leaves,
    which solves the untransposed system [L gamma = k]; the factor,
    [d_alpha] and the active set stay as they were. *)
Theorem GpPredictChol_point {dk : DeviceKernels} (index : Z)
    (hypers : GaussianProcessHyperparams) (st : CholDevice) :
  let n := Z.to_nat (num_active (activeSetBuffers st)) in
  let lda := Z.to_nat (max_active (activeSetBuffers st)) in
  let st' := GpPredictChol index hypers st in
  (n <= lda)%nat -> (lda <= length (d_gamma st))%nat ->
  (Z.to_nat index < length (d_mu st))%nat ->
  (Z.to_nat index < length (d_sigma st))%nat ->
  (forall i, (i < n)%nat -> mat (d_L st) lda i i <> 0) ->
  rd (d_mu st') (Z.to_nat index)
  = big_sum (fun i => rd (d_alpha st) i * rd (d_kernelVector st') i) n
  /\ triangular_solution CUBLAS_OP_N (d_L st) lda n (rd (d_gamma st'))
       (rd (d_kernelVector st'))
  /\ rd (d_sigma st') (Z.to_nat index)
     = big_sum (fun i => rd (d_gamma st') i * rd (d_gamma st') i) n
  /\ (forall j, j <> Z.to_nat index ->
        rd (d_mu st') j = rd (d_mu st) j
        /\ rd (d_sigma st') j = rd (d_sigma st) j)
  /\ d_L st' = d_L st
  /\ d_alpha st' = d_alpha st
  /\ activeSetBuffers st' = activeSetBuffers st.
Proof.
  cbn zeta. intros Hn Hg Hmu Hsigma Hdiag. unfold GpPredictChol.
  cbn [activeSetBuffers maxSubBuffers classificationBuffers d_L d_alpha
       d_scalar1 d_scalar2 d_mu d_sigma d_gamma d_kernelVector
       set_d_kernelVector set_d_gamma set_d_mu set_d_sigma].
  set (n := Z.to_nat (num_active (activeSetBuffers st))) in *.
  set (lda := Z.to_nat (max_active (activeSetBuffers st))) in *.
  set (k := compute_kernel_vector _ _ _ _ _).
  set (G0 := cudaMemcpy (d_gamma st) 0 k 0 (max_active (activeSetBuffers st))).
  assert (HG0len : length G0 = length (d_gamma st)).
  { apply write_seq_length. }
  assert (HG0 : forall i, (i < lda)%nat -> rd G0 i = rd k i).
  { intros i Hi. unfold G0, cudaMemcpy. fold lda.
    rewrite rd_write_tabulate_inside by lia. f_equal. lia. }
  unfold cublasStrsv, trsm_upper_col. fold n lda.
  destruct (trsm_upper_N_col_spec (d_L st) lda 1 0 n n G0)
    as (_ & _ & Hrows); [lia|rewrite HG0len; lia|].
  cbn zeta in Hrows.
  set (G := trsm_upper_N_col (d_L st) lda 1 G0 0 n n) in *.
  split; [|split; [|split; [|split]]].
  - rewrite rd_wr_same by assumption. reflexivity.
  - apply (triangular_solution_ext _ (d_L st) _ _ _ (rd G) _
             (fun i => 1 * rd G0 i)).
    + reflexivity.
    + reflexivity.
    + intros i Hi. rewrite HG0 by lia. ring.
    + apply back_substitution_solves; [exact Hdiag|].
      intros r Hr. apply (Hrows r). lia.
  - rewrite rd_wr_same by assumption. reflexivity.
  - intros j Hj. rewrite !rd_wr_other by auto. auto.
  - auto.
Qed.

Lemma GpPredictChol_point_witness :
  let st' := GpPredictChol (dk := sample_kernels) 0 sample_hypers
               two_point_state in
  rd (d_mu st') (Z.to_nat 0)
  = big_sum (fun i => rd (d_alpha two_point_state) i
                      * rd (d_kernelVector st') i) 2
  /\ triangular_solution CUBLAS_OP_N (d_L two_point_state) 2 2
       (rd (d_gamma st')) (rd (d_kernelVector st'))
  /\ rd (d_sigma st') (Z.to_nat 0)
     = big_sum (fun i => rd (d_gamma st') i * rd (d_gamma st') i) 2
  /\ (forall j, j <> Z.to_nat 0 ->
        rd (d_mu st') j = rd (d_mu two_point_state) j
        /\ rd (d_sigma st') j = rd (d_sigma two_point_state) j)
  /\ d_L st' = d_L two_point_state
  /\ d_alpha st' = d_alpha two_point_state
  /\ activeSetBuffers st' = activeSetBuffers two_point_state.
Proof.
  apply (GpPredictChol_point (dk := sample_kernels) 0 sample_hypers
           two_point_state).
  - cbn. lia.
  - cbn. lia.
  - cbn. lia.
  - cbn. lia.
  - intros [|[|i]] Hi; [| |cbn in Hi; lia]; eval_model; lra.
Defined.

(** ** The confidence multiplier in the loops *)

Lemma SelectChol_body_spec {dk : DeviceKernels}
    (hypers : GaussianProcessHyperparams) (numPoints : Z)
    (tolerance accuracy level : R) (batchSize : Z) (incremental : bool)
    (r : CholRun) (st : CholDevice) :
  predict_pool (Z.to_nat numPoints) 0 numPoints batchSize hypers (sel_dev r)
  = Some st ->
  exists r',
    SelectChol_body hypers numPoints tolerance accuracy level batchSize
      incremental r = Some r'
    /\ sel_beta r' = beta_update numPoints tolerance (sel_k r)
    /\ sel_nextIndex r'
       = d_next_index
           (fst (find_best_active_set_candidate (maxSubBuffers st)
                   (classificationBuffers st) (d_mu st) (d_sigma st) level
                   (beta_update numPoints tolerance (sel_k r)) accuracy
                   hypers))
    /\ forall b,
         SelectChol_body hypers numPoints tolerance accuracy level batchSize
           incremental (set_sel_beta b r) = Some r'.
Proof.
  intros Hst. unfold SelectChol_body.
  cbn [set_sel_beta sel_dev sel_k sel_indices sel_scores sel_betas
       sel_updates].
  rewrite Hst.
  destruct (find_best_active_set_candidate _ _ _ _ _ _ _ _) as [sub cls].
  cbn [fst maxSubBuffers set_classificationBuffers set_maxSubBuffers].
  destruct (d_next_index sub >=? 0)%Z; eexists; repeat split; reflexivity.
Qed.

Lemma SelectCG_body_spec {dk : DeviceKernels}
    (hypers : GaussianProcessHyperparams) (numPoints : Z)
    (tolerance level : R) (r : CGRun) :
  let st := cgr_dev r in
  let h_active := active (cg_maxSubBuffers st) in
  let h_upper := upper (cg_classificationBuffers st) in
  let h_lower := lower (cg_classificationBuffers st) in
  let pass := predict_unclassified h_active h_upper h_lower hypers tolerance
                0 (Z.to_nat (uint_wrap numPoints)) 0 st in
  let fb := find_best_active_set_candidate (cg_maxSubBuffers st)
              (cg_classificationBuffers st) (cg_mu (snd pass))
              (cg_sigma (snd pass)) level (cgr_beta r) 0 hypers in
  let r' := SelectCG_body hypers numPoints tolerance level r in
  fst pass
  = Z.of_nat (length (filter (unclassified h_active h_upper h_lower)
                        (seq 0 (Z.to_nat (uint_wrap numPoints)))))
  /\ cgr_k r' = uint_wrap (cgr_k r + 1)
  /\ cgr_numLeft r' = fst pass
  /\ (fst pass = 0%Z ->
      cgr_beta r' = cgr_beta r
      /\ cgr_betas r' = cgr_betas r
      /\ cg_maxSubBuffers (cgr_dev r') = cg_maxSubBuffers st
      /\ cg_classificationBuffers (cgr_dev r') = cg_classificationBuffers st)
  /\ (fst pass <> 0%Z ->
      cgr_beta r' = beta_update numPoints tolerance (cgr_k r)
      /\ cgr_betas r'
         = cgr_betas r
           ++ [(cgr_k r, beta_update numPoints tolerance (cgr_k r))]
      /\ cg_classificationBuffers (cgr_dev r') = snd fb
      /\ cg_maxSubBuffers (cgr_dev r')
         = snd (update_active_set_buffers (cg_activeSetBuffers st) (fst fb)
                  hypers)).
Proof.
  cbn zeta.
  destruct (predict_unclassified_spec
              (active (cg_maxSubBuffers (cgr_dev r)))
              (upper (cg_classificationBuffers (cgr_dev r)))
              (lower (cg_classificationBuffers (cgr_dev r))) hypers tolerance
              (Z.to_nat (uint_wrap numPoints)) 0 0 (cgr_dev r))
    as (Hcount & Ha & Hs & Hc & _).
  cbn zeta in Hcount, Ha, Hs, Hc. rewrite Z.add_0_l in Hcount.
  unfold SelectCG_body.
  destruct (predict_unclassified _ _ _ _ _ _ _ _ _) as [numLeft st1].
  cbn [fst snd] in *. split; [exact Hcount|].
  destruct (numLeft =? 0)%Z eqn:Hz.
  - apply Z.eqb_eq in Hz. cbn [cgr_k cgr_numLeft cgr_beta cgr_betas cgr_dev].
    split; [reflexivity|]. split; [reflexivity|]. split.
    + intros _. repeat split; auto.
    + intros Hne. contradiction.
  - apply Z.eqb_neq in Hz. rewrite Hs, Hc, Ha.
    destruct (find_best_active_set_candidate _ _ _ _ _ _ _ _) as [sub cls].
    destruct (update_active_set_buffers _ _ _) as [asb sub'].
    cbn [cgr_k cgr_numLeft cgr_beta cgr_betas cgr_dev solve_alpha_CG
         cg_classificationBuffers cg_maxSubBuffers fst snd].
    split; [reflexivity|]. split; [reflexivity|]. split.
    + intros Heq. contradiction.
    + intros _. repeat split; reflexivity.
Qed.

Section BetaRuns.
Context {dk : DeviceKernels} {acc : Accumulators}.
Variable junk : nat -> nat -> R.
Variables inputPoints targetPoints : buffer.
Variable mode : SubsetSelectionMode.
Variable hypers : GaussianProcessHyperparams.
Variables maxSize inputDim targetDim numPoints batchSize startIndex : Z.
Variables tolerance accuracy : R.
Variable incremental : bool.

Lemma SelectChol_run_beta :
  (1 <= batchSize)%Z -> (numPoints + batchSize < 2 ^ 31)%Z ->
  exists res,
    SelectChol junk maxSize inputPoints targetPoints mode hypers inputDim
      targetDim numPoints tolerance accuracy batchSize startIndex incremental
    = Some res
    /\ (1 <= sel_k (res_run res))%Z
    /\ sel_betas (res_run res)
       = map (fun j => (Z.of_nat j,
                        beta_schedule numPoints tolerance (Z.of_nat j)))
           (seq 1 (Z.to_nat (sel_k (res_run res) - 1)))
    /\ sel_beta (res_run res)
       = beta_schedule numPoints tolerance (sel_k (res_run res) - 1).
Proof.
  intros Hbatch Hsum. unfold SelectChol.
  destruct (SelectChol_seed_run junk maxSize inputPoints targetPoints hypers
              inputDim targetDim numPoints tolerance batchSize startIndex)
    as (_ & Hk0 & _).
  destruct (SelectChol_seed_spec junk inputPoints targetPoints hypers maxSize
              inputDim targetDim numPoints batchSize startIndex tolerance)
    as (Hfst & Hb0 & _ & first & Hinv).
  destruct (SelectChol_seed _ _ _ _ _ _ _ _ _ _ _) as [M r0].
  cbn [fst snd] in *. subst M.
  destruct (SelectChol_loop_inv hypers numPoints batchSize
              (clamped maxSize numPoints) first tolerance accuracy 0
              incremental Hbatch Hsum
              (Z.to_nat (uint_wrap (clamped maxSize numPoints))) r0 Hinv)
    as (r & Hloop & Hinv' & _).
  { pose proof (uint_wrap_range (clamped maxSize numPoints)).
    destruct Hinv as (res & _ & _ & _ & Hk & _). lia. }
  assert (Hbeta : sel_beta r
                  = beta_schedule numPoints tolerance (sel_k r - 1)).
  { apply (SelectChol_loop_beta hypers numPoints batchSize
             (clamped maxSize numPoints) first tolerance accuracy 0
             incremental Hbatch Hsum
             (Z.to_nat (uint_wrap (clamped maxSize numPoints))) r0 r Hinv);
      [|exact Hloop].
    rewrite Hb0, Hk0. apply beta_initial_schedule. }
  rewrite Hloop.
  destruct (predict_pool_total hypers numPoints batchSize Hbatch Hsum
              (Z.to_nat numPoints) 0 (sel_dev r)) as [st Hst]; [lia|lia|].
  rewrite Hst. eexists. split; [reflexivity|]. cbn [res_run].
  destruct Hinv' as (results & _ & _ & _ & Hk & _ & _ & Hbetas).
  split; [lia|]. split; [|exact Hbeta].
  rewrite Hbetas, Hk. do 2 f_equal. lia.
Qed.

Lemma SelectCG_run_beta :
  exists res,
    SelectCG junk maxSize inputPoints targetPoints mode hypers inputDim
      targetDim numPoints tolerance = Some res
    /\ exists m,
         cgr_betas (cres_run res)
         = map (fun j => (Z.of_nat j,
                          beta_schedule numPoints tolerance (Z.of_nat j)))
             (seq 1 m)
         /\ cgr_beta (cres_run res)
            = beta_schedule numPoints tolerance (Z.of_nat m)
         /\ cgr_updates (cres_run res) = S m
         /\ (Z.of_nat m = cgr_k (cres_run res) - 1
             \/ Z.of_nat m = cgr_k (cres_run res) - 2
                /\ cgr_numLeft (cres_run res) <= 0)%Z.
Proof.
  unfold SelectCG.
  assert (Hb0 : cgr_betas (snd (SelectCG_seed junk maxSize inputPoints
                                  targetPoints hypers inputDim targetDim
                                  numPoints tolerance)) = []).
  { unfold SelectCG_seed.
    destruct (update_active_set_buffers _ _ _) as [asb sub]. reflexivity. }
  destruct (SelectCG_seed_spec junk inputPoints targetPoints hypers maxSize
              inputDim targetDim numPoints tolerance)
    as (Hfst & Hbeta0 & _ & Hinv).
  destruct (SelectCG_seed _ _ _ _ _ _ _ _ _) as [M r0].
  cbn [fst snd] in *. subst M.
  destruct (SelectCG_loop_inv hypers numPoints (clamped maxSize numPoints)
              tolerance 0
              (Z.to_nat (uint_wrap (clamped maxSize numPoints))) r0 Hinv)
    as (r & Hloop & Hinv' & _).
  { pose proof (uint_wrap_range (clamped maxSize numPoints)).
    destruct Hinv as (_ & _ & Hk & _). lia. }
  assert (Hbeta : cgr_beta r
                  = beta_schedule numPoints tolerance
                      (Z.of_nat (length (cgr_betas r)))).
  { apply (SelectCG_loop_beta hypers numPoints (clamped maxSize numPoints)
             tolerance 0
             (Z.to_nat (uint_wrap (clamped maxSize numPoints))) r0 r Hinv);
      [|exact Hloop].
    rewrite Hbeta0, Hb0. apply beta_initial_schedule. }
  rewrite Hloop. eexists. split; [reflexivity|]. cbn [cres_run].
  destruct Hinv' as (Hbetas & Hadm & _ & Hm & Hleft).
  exists (length (cgr_betas r)).
  split; [exact Hbetas|]. split; [exact Hbeta|]. split; [exact Hadm|].
  destruct (Z_le_gt_dec (cgr_numLeft r) 0) as [Hle|Hgt].
  - lia.
  - left. specialize (Hleft Hgt). lia.
Qed.

End BetaRuns.

(** C3 (as amended): in [SelectChol] every iteration [k >= 1] computes
    [beta] anew, before its classification uses it, as the closed form
    [2 ln (N pi^2 (k+1)^2 / (6 tolerance))] of the iteration count, whatever
    the variable held before.  In [SelectCG] an iteration computes it by the
    same closed form only when it has found a point that is neither active
    nor classified, and after its classification call, which still uses
    the value of the previous assignment; an iteration that finds no such
    point leaves [beta] as it was.  The value set before either loop is
    the closed form at [k = 0], where [(k+1)^2 = 1]. *)
Theorem beta_recomputed_each_iteration {dk : DeviceKernels}
    {acc : Accumulators} (junk : nat -> nat -> R) (maxSize : Z)
    (inputPoints targetPoints : buffer) (mode : SubsetSelectionMode)
    (hypers : GaussianProcessHyperparams) (inputDim targetDim numPoints : Z)
    (tolerance accuracy : R) (batchSize startIndex : Z) (incremental : bool) :
  (1 <= batchSize)%Z -> (numPoints + batchSize < 2 ^ 31)%Z ->
  (forall (level : R) (r : CholRun),
     (0 <= sel_k r < 2 ^ 32 - 1)%Z ->
     exists st r',
       predict_pool (Z.to_nat numPoints) 0 numPoints batchSize hypers
         (sel_dev r) = Some st
       /\ SelectChol_body hypers numPoints tolerance accuracy level batchSize
            incremental r = Some r'
       /\ sel_beta r' = beta_schedule numPoints tolerance (sel_k r)
       /\ sel_nextIndex r'
          = d_next_index
              (fst (find_best_active_set_candidate (maxSubBuffers st)
                      (classificationBuffers st) (d_mu st) (d_sigma st) level
                      (beta_schedule numPoints tolerance (sel_k r)) accuracy
                      hypers))
       /\ forall b,
            SelectChol_body hypers numPoints tolerance accuracy level
              batchSize incremental (set_sel_beta b r) = Some r')
  /\ (exists res,
        SelectChol junk maxSize inputPoints targetPoints mode hypers inputDim
          targetDim numPoints tolerance accuracy batchSize startIndex
          incremental = Some res
        /\ sel_betas (res_run res)
           = map (fun j => (Z.of_nat j,
                            2 * ln (IZR numPoints * PI ^ 2 * (INR j + 1) ^ 2
                                    / (6 * tolerance))))
               (seq 1 (Z.to_nat (sel_k (res_run res) - 1)))
        /\ sel_beta (res_run res)
           = 2 * ln (IZR numPoints * PI ^ 2
                     * (IZR (sel_k (res_run res) - 1) + 1) ^ 2
                     / (6 * tolerance)))
  /\ sel_beta (snd (SelectChol_seed junk maxSize inputPoints targetPoints
                      hypers inputDim targetDim numPoints tolerance batchSize
                      startIndex))
     = 2 * ln (IZR numPoints * PI ^ 2 * 1 / (6 * tolerance))
  /\ (forall (level : R) (r : CGRun),
        (0 <= cgr_k r < 2 ^ 32 - 1)%Z ->
        let st := cgr_dev r in
        let pass :=
          predict_unclassified (active (cg_maxSubBuffers st))
            (upper (cg_classificationBuffers st))
            (lower (cg_classificationBuffers st)) hypers tolerance 0
            (Z.to_nat (uint_wrap numPoints)) 0 st in
        let r' := SelectCG_body hypers numPoints tolerance level r in
        (fst pass = 0%Z ->
         cgr_beta r' = cgr_beta r /\ cgr_betas r' = cgr_betas r)
        /\ (fst pass <> 0%Z ->
            cgr_beta r' = beta_schedule numPoints tolerance (cgr_k r)
            /\ cg_classificationBuffers (cgr_dev r')
               = snd (find_best_active_set_candidate (cg_maxSubBuffers st)
                        (cg_classificationBuffers st) (cg_mu (snd pass))
                        (cg_sigma (snd pass)) level (cgr_beta r) 0 hypers)))
  /\ (exists res,
        SelectCG junk maxSize inputPoints targetPoints mode hypers inputDim
          targetDim numPoints tolerance = Some res
        /\ exists m,
             cgr_betas (cres_run res)
             = map (fun j => (Z.of_nat j,
                              2 * ln (IZR numPoints * PI ^ 2 * (INR j + 1) ^ 2
                                      / (6 * tolerance))))
                 (seq 1 m)
             /\ cgr_beta (cres_run res)
                = 2 * ln (IZR numPoints * PI ^ 2 * (INR m + 1) ^ 2
                          / (6 * tolerance))
             /\ cgr_updates (cres_run res) = S m
             /\ (Z.of_nat m = cgr_k (cres_run res) - 1
                 \/ Z.of_nat m = cgr_k (cres_run res) - 2
                    /\ cgr_numLeft (cres_run res) <= 0)%Z)
  /\ cgr_beta (snd (SelectCG_seed junk maxSize inputPoints targetPoints
                      hypers inputDim targetDim numPoints tolerance))
     = 2 * ln (IZR numPoints * PI ^ 2 * 1 / (6 * tolerance)).
Proof.
  intros Hbatch Hsum.
  assert (Hform : forall n,
    map (fun j => (Z.of_nat j,
                   beta_schedule numPoints tolerance (Z.of_nat j))) (seq 1 n)
    = map (fun j => (Z.of_nat j,
                     2 * ln (IZR numPoints * PI ^ 2 * (INR j + 1) ^ 2
                             / (6 * tolerance)))) (seq 1 n)).
  { intros n. apply map_ext. intros j. unfold beta_schedule.
    now rewrite <- INR_IZR_INZ. }
  assert (Hinit : beta_initial numPoints tolerance
                  = 2 * ln (IZR numPoints * PI ^ 2 * 1 / (6 * tolerance))).
  { unfold beta_initial. now rewrite Rmult_1_r. }
  split; [|split; [|split; [|split; [|split]]]].
  - intros level r Hk.
    destruct (predict_pool_total hypers numPoints batchSize Hbatch Hsum
                (Z.to_nat numPoints) 0 (sel_dev r)) as [st Hst]; [lia|lia|].
    destruct (SelectChol_body_spec hypers numPoints tolerance accuracy level
                batchSize incremental r st Hst)
      as (r' & Hbody & Hbeta & Hnext & Hany).
    rewrite beta_update_schedule in Hbeta, Hnext by assumption.
    exists st, r'. repeat split; assumption.
  - destruct (SelectChol_run_beta junk inputPoints targetPoints mode hypers
                maxSize inputDim targetDim numPoints batchSize startIndex
                tolerance accuracy incremental Hbatch Hsum)
      as (res & Hres & _ & Hbetas & Hbeta).
    exists res. split; [exact Hres|]. rewrite <- Hform.
    split; [exact Hbetas|exact Hbeta].
  - destruct (SelectChol_seed_spec junk inputPoints targetPoints hypers
                maxSize inputDim targetDim numPoints batchSize startIndex
                tolerance) as (_ & Hbeta & _).
    now rewrite Hbeta.
  - intros level r Hk.
    destruct (SelectCG_body_spec hypers numPoints tolerance level r)
      as (_ & _ & _ & Hzero & Hsome).
    cbn zeta in Hzero, Hsome. cbn zeta. split.
    + intros Hz. destruct (Hzero Hz) as (Hb & Hbs & _). now split.
    + intros Hnz. destruct (Hsome Hnz) as (Hb & _ & Hc & _).
      rewrite beta_update_schedule in Hb by assumption. now split.
  - destruct (SelectCG_run_beta junk inputPoints targetPoints mode hypers
                maxSize inputDim targetDim numPoints tolerance)
      as (res & Hres & m & Hbetas & Hbeta & Hadm & Hm).
    exists res. split; [exact Hres|]. exists m. rewrite <- Hform.
    split; [exact Hbetas|]. split; [|split; assumption].
    rewrite Hbeta. unfold beta_schedule. now rewrite <- INR_IZR_INZ.
  - destruct (SelectCG_seed_spec junk inputPoints targetPoints hypers maxSize
                inputDim targetDim numPoints tolerance) as (_ & Hbeta & _).
    now rewrite Hbeta.
Qed.

Lemma beta_recomputed_each_iteration_witness :
  (forall (level : R) (r : CholRun),
     (0 <= sel_k r < 2 ^ 32 - 1)%Z ->
     exists st r',
       predict_pool (dk := sample_kernels) (Z.to_nat 4) 0 4 1 sample_hypers
         (sel_dev r) = Some st
       /\ SelectChol_body (dk := sample_kernels) sample_hypers 4 (1 / 2) 0
            level 1 true r = Some r'
       /\ sel_beta r' = beta_schedule 4 (1 / 2) (sel_k r)
       /\ sel_nextIndex r'
          = d_next_index
              (fst (find_best_active_set_candidate
                      (DeviceKernels := sample_kernels) (maxSubBuffers st)
                      (classificationBuffers st) (d_mu st) (d_sigma st) level
                      (beta_schedule 4 (1 / 2) (sel_k r)) 0 sample_hypers))
       /\ forall b,
            SelectChol_body (dk := sample_kernels) sample_hypers 4 (1 / 2) 0
              level 1 true (set_sel_beta b r) = Some r')
  /\ (exists res,
        sample_SelectChol = Some res
        /\ sel_betas (res_run res)
           = map (fun j => (Z.of_nat j,
                            2 * ln (IZR 4 * PI ^ 2 * (INR j + 1) ^ 2
                                    / (6 * (1 / 2)))))
               (seq 1 (Z.to_nat (sel_k (res_run res) - 1)))
        /\ sel_beta (res_run res)
           = 2 * ln (IZR 4 * PI ^ 2
                     * (IZR (sel_k (res_run res) - 1) + 1) ^ 2
                     / (6 * (1 / 2))))
  /\ sel_beta (snd (SelectChol_seed (dk := sample_kernels) (fun _ _ => 0) 4
                      [] [] sample_hypers 1 1 4 (1 / 2) 1 0))
     = 2 * ln (IZR 4 * PI ^ 2 * 1 / (6 * (1 / 2)))
  /\ (forall (level : R) (r : CGRun),
        (0 <= cgr_k r < 2 ^ 32 - 1)%Z ->
        let st := cgr_dev r in
        let pass :=
          predict_unclassified (dk := sample_kernels)
            (active (cg_maxSubBuffers st))
            (upper (cg_classificationBuffers st))
            (lower (cg_classificationBuffers st)) sample_hypers (1 / 2) 0
            (Z.to_nat (uint_wrap 4)) 0 st in
        let r' := SelectCG_body (dk := sample_kernels) sample_hypers 4
                    (1 / 2) level r in
        (fst pass = 0%Z ->
         cgr_beta r' = cgr_beta r /\ cgr_betas r' = cgr_betas r)
        /\ (fst pass <> 0%Z ->
            cgr_beta r' = beta_schedule 4 (1 / 2) (cgr_k r)
            /\ cg_classificationBuffers (cgr_dev r')
               = snd (find_best_active_set_candidate
                        (DeviceKernels := sample_kernels)
                        (cg_maxSubBuffers st) (cg_classificationBuffers st)
                        (cg_mu (snd pass)) (cg_sigma (snd pass)) level
                        (cgr_beta r) 0 sample_hypers)))
  /\ (exists res,
        sample_SelectCG = Some res
        /\ exists m,
             cgr_betas (cres_run res)
             = map (fun j => (Z.of_nat j,
                              2 * ln (IZR 4 * PI ^ 2 * (INR j + 1) ^ 2
                                      / (6 * (1 / 2)))))
                 (seq 1 m)
             /\ cgr_beta (cres_run res)
                = 2 * ln (IZR 4 * PI ^ 2 * (INR m + 1) ^ 2 / (6 * (1 / 2)))
             /\ cgr_updates (cres_run res) = S m
             /\ (Z.of_nat m = cgr_k (cres_run res) - 1
                 \/ Z.of_nat m = cgr_k (cres_run res) - 2
                    /\ cgr_numLeft (cres_run res) <= 0)%Z)
  /\ cgr_beta (snd (SelectCG_seed (dk := sample_kernels) (fun _ _ => 0) 4
                      [] [] sample_hypers 1 1 4 (1 / 2)))
     = 2 * ln (IZR 4 * PI ^ 2 * 1 / (6 * (1 / 2))).
Proof.
  apply (beta_recomputed_each_iteration (dk := sample_kernels)
           (acc := sample_accumulators) (fun _ _ => 0) 4 [] [] LEVEL_SET
           sample_hypers 1 1 4 (1 / 2) 0 1 0 true); lia.
Defined.

Lemma SelectCG_loop_step {dk : DeviceKernels} (fuel : nat)
    (hypers : GaussianProcessHyperparams) (maxSize numPoints : Z)
    (tolerance level : R) (r : CGRun) :
  SelectCG_cond maxSize r = true ->
  SelectCG_loop (S fuel) hypers maxSize numPoints tolerance level r
  = SelectCG_loop fuel hypers maxSize numPoints tolerance level
      (SelectCG_body hypers numPoints tolerance level r).
Proof. intros H. cbn [SelectCG_loop]. now rewrite H. Qed.

Lemma SelectCG_loop_stop {dk : DeviceKernels} (fuel : nat)
    (hypers : GaussianProcessHyperparams) (maxSize numPoints : Z)
    (tolerance level : R) (r : CGRun) :
  SelectCG_cond maxSize r = false ->
  SelectCG_loop fuel hypers maxSize numPoints tolerance level r = Some r.
Proof. intros H. destruct fuel; cbn [SelectCG_loop]; now rewrite H. Qed.

Lemma SelectCG_seed_fields {dk : DeviceKernels} (junk : nat -> nat -> R)
    (maxSize : Z) (inputPoints targetPoints : buffer)
    (hypers : GaussianProcessHyperparams) (inputDim targetDim numPoints : Z)
    (tolerance : R) :
  let seed := SelectCG_seed junk maxSize inputPoints targetPoints hypers
                inputDim targetDim numPoints tolerance in
  let up := update_active_set_buffers
              (construct_active_set_buffers inputDim targetDim
                 (clamped maxSize numPoints))
              (activate_max_subset_buffers
                 (construct_max_subset_buffers inputPoints targetPoints
                    inputDim targetDim numPoints) (Z.rem rand numPoints))
              hypers in
  fst seed = clamped maxSize numPoints
  /\ cgr_k (snd seed) = 1%Z
  /\ cgr_numLeft (snd seed) = (numPoints - 1)%Z
  /\ cgr_beta (snd seed) = beta_initial numPoints tolerance
  /\ cgr_betas (snd seed) = []
  /\ cg_maxSubBuffers (cgr_dev (snd seed)) = snd up
  /\ cg_classificationBuffers (cgr_dev (snd seed))
     = construct_classification_buffers numPoints.
Proof.
  cbn zeta. unfold SelectCG_seed. fold (clamped maxSize numPoints).
  destruct (update_active_set_buffers _ _ _) as [asb sub].
  cbn [fst snd cgr_k cgr_numLeft cgr_beta cgr_betas cgr_dev solve_alpha_CG
       cg_maxSubBuffers cg_classificationBuffers].
  repeat split; reflexivity.
Qed.

(** C3, counterexample: on a pool of three points whose classification
    marks every point in iteration 1, [SelectCG] runs the iterations
    [k = 1] and [k = 2]; the second finds no unclassified point and leaves
    [beta] at the value of iteration 1, which is not the closed form at
    [k = 2]. *)
Lemma SelectCG_iteration_keeps_beta :
  exists res,
    SelectCG (dk := classifying_kernels) (acc := sample_accumulators)
      (fun _ _ => 0) 3 [] [] LEVEL_SET sample_hypers 1 1 3 (1 / 2) = Some res
    /\ cgr_k (cres_run res) = 3%Z
    /\ cgr_betas (cres_run res) = [(1%Z, beta_schedule 3 (1 / 2) 1)]
    /\ cgr_beta (cres_run res) = beta_schedule 3 (1 / 2) 1
    /\ cgr_beta (cres_run res) <> beta_schedule 3 (1 / 2) 2.
Proof.
  unfold SelectCG.
  destruct (SelectCG_seed_fields (dk := classifying_kernels) (fun _ _ => 0) 3
              [] [] sample_hypers 1 1 3 (1 / 2))
    as (Hfst & Hk0 & Hleft0 & Hbeta0 & Hbetas0 & Hsub0 & Hcls0).
  cbn zeta in Hfst, Hk0, Hleft0, Hbeta0, Hbetas0, Hsub0, Hcls0.
  destruct (SelectCG_seed _ _ _ _ _ _ _ _ _) as [M r0].
  cbn [fst snd] in *. subst M.
  change (clamped 3 3) with 3%Z.
  change (Z.to_nat (uint_wrap 3)) with 3%nat.
  (* iteration k = 1 *)
  destruct (SelectCG_body_spec (dk := classifying_kernels) sample_hypers 3
              (1 / 2) 0 r0) as (Hc1 & Hk1 & Hl1 & _ & Hsome1).
  cbn zeta in Hc1, Hk1, Hl1, Hsome1.
  set (r1 := SelectCG_body sample_hypers 3 (1 / 2) 0 r0) in *.
  rewrite Hsub0, Hcls0 in Hc1, Hsome1.
  set (pass1 := predict_unclassified _ _ _ _ _ _ _ _ _) in *.
  assert (H3 : fst pass1 = 3%Z) by (rewrite Hc1; reflexivity).
  destruct Hsome1 as (Hb1 & Hbs1 & Hcls1 & Hsub1); [lia|].
  cbv beta iota delta [find_best_active_set_candidate classifying_kernels
                       snd fst] in Hcls1, Hsub1.
  assert (Hact1 : active (cg_maxSubBuffers (cgr_dev r1)) = [0; 0; 0]%Z)
    by (rewrite Hsub1; reflexivity).
  assert (Hup1 : upper (cg_classificationBuffers (cgr_dev r1))
                 = [1; 1; 1]%Z) by (rewrite Hcls1; reflexivity).
  assert (Hlow1 : lower (cg_classificationBuffers (cgr_dev r1))
                  = [0; 0; 0]%Z) by (rewrite Hcls1; reflexivity).
  rewrite Hsub0, Hcls0 in Hl1. fold pass1 in Hl1. rewrite H3 in Hl1.
  rewrite Hk0 in Hk1, Hb1, Hbs1. change (uint_wrap (1 + 1)) with 2%Z in Hk1.
  rewrite Hbetas0 in Hbs1. cbn [app] in Hbs1.
  rewrite beta_update_schedule in Hb1, Hbs1 by lia.
  rewrite SelectCG_loop_step
    by (unfold SelectCG_cond; rewrite Hk0, Hleft0; reflexivity).
  fold r1.
  (* iteration k = 2 *)
  destruct (SelectCG_body_spec (dk := classifying_kernels) sample_hypers 3
              (1 / 2) 0 r1) as (Hc2 & Hk2 & Hl2 & Hzero2 & _).
  cbn zeta in Hc2, Hk2, Hl2, Hzero2.
  set (r2 := SelectCG_body sample_hypers 3 (1 / 2) 0 r1) in *.
  rewrite Hact1, Hup1, Hlow1 in Hc2, Hl2, Hzero2.
  destruct Hzero2 as (Hb2 & Hbs2 & _); [rewrite Hc2; reflexivity|].
  rewrite Hk1 in Hk2. change (uint_wrap (2 + 1)) with 3%Z in Hk2.
  rewrite SelectCG_loop_step
    by (unfold SelectCG_cond; rewrite Hk1, Hl1; reflexivity).
  fold r2.
  rewrite SelectCG_loop_stop
    by (unfold SelectCG_cond; rewrite Hk2; reflexivity).
  eexists. split; [reflexivity|]. cbn [cres_run].
  split; [exact Hk2|]. split; [congruence|]. split; [congruence|].
  rewrite Hb2, Hb1. unfold beta_schedule. intros Heq.
  pose proof PI_RGT_0 as Hpi.
  assert (Hpi2 : 0 < PI ^ 2) by (apply pow_lt; exact Hpi).
  apply Rmult_eq_reg_l in Heq; [|lra].
  apply ln_inv in Heq.
  - unfold Rdiv in Heq. nra.
  - unfold Rdiv. nra.
  - unfold Rdiv. nra.
Qed.

(** ** The incremental and the full factorisation *)

Lemma forward_unique (L : buffer) (lda n : nat) (y y' : nat -> R) :
  (forall i, (i < n)%nat -> mat L lda i i <> 0) ->
  (forall i, (i < n)%nat ->
     big_sum (fun k => mat L lda k i * y k) (S i)
     = big_sum (fun k => mat L lda k i * y' k) (S i)) ->
  forall i, (i < n)%nat -> y i = y' i.
Proof.
  intros Hdiag Heq.
  assert (Hall : forall m i, (i < m)%nat -> (i < n)%nat -> y i = y' i).
  { induction m as [|m IH]; intros i Him Hi; [lia|].
    destruct (Nat.eq_dec i m) as [->|Hne]; [|apply IH; lia].
    specialize (Heq m Hi). cbn [big_sum] in Heq.
    rewrite (big_sum_ext (fun k => mat L lda k m * y k)
               (fun k => mat L lda k m * y' k)) in Heq
      by (intros k Hk; rewrite (IH k) by lia; reflexivity).
    apply (Rmult_eq_reg_l (mat L lda m m)); [lra|now apply Hdiag]. }
  intros i Hi. apply (Hall (S i)); lia.
Qed.

Lemma backward_unique (L : buffer) (lda n : nat) (x x' : nat -> R) :
  (forall i, (i < n)%nat -> mat L lda i i <> 0) ->
  (forall i, (i < n)%nat ->
     big_sum (fun d => mat L lda i (i + d) * x (i + d)%nat) (n - i)
     = big_sum (fun d => mat L lda i (i + d) * x' (i + d)%nat) (n - i)) ->
  forall i, (i < n)%nat -> x i = x' i.
Proof.
  intros Hdiag Heq.
  assert (Hall : forall m i, (n - i <= m)%nat -> (i < n)%nat -> x i = x' i).
  { induction m as [|m IH]; intros i Him Hi; [lia|].
    specialize (Heq i Hi).
    replace (n - i)%nat with (S (n - S i)) in Heq by lia.
    rewrite !big_sum_shift, !Nat.add_0_r in Heq.
    rewrite (big_sum_ext (fun j => mat L lda i (i + S j) * x (i + S j)%nat)
               (fun j => mat L lda i (i + S j) * x' (i + S j)%nat)) in Heq
      by (intros j Hj; rewrite (IH (i + S j)%nat) by lia; reflexivity).
    apply (Rmult_eq_reg_l (mat L lda i i)); [lra|now apply Hdiag]. }
  intros i Hi. apply (Hall (n - i)%nat); lia.
Qed.

(** A system whose matrix has an upper factor with a diagonal free of 0
    has at most one solution. *)
Lemma factor_system_unique (L K : buffer) (lda n : nat) (x x' : nat -> R) :
  upper_factor_of L K lda n -> symmetric_block K lda n ->
  (forall i, (i < n)%nat -> mat L lda i i <> 0) ->
  (forall i, (i < n)%nat ->
     big_sum (fun j => mat K lda i j * x j) n
     = big_sum (fun j => mat K lda i j * x' j) n) ->
  forall i, (i < n)%nat -> x i = x' i.
Proof.
  intros Hfac Hsym Hdiag Heq.
  set (y := fun k => big_sum (fun j => upper_entry L lda k j * x j) n).
  set (y' := fun k => big_sum (fun j => upper_entry L lda k j * x' j) n).
  assert (Hy : forall k, (k < n)%nat -> y k = y' k).
  { apply (forward_unique L lda n); [exact Hdiag|].
    intros i Hi. rewrite !(upper_cols_sum L lda n i) by assumption.
    unfold y, y'.
    rewrite (factor_product L K lda n x Hfac Hsym i Hi).
    rewrite (factor_product L K lda n x' Hfac Hsym i Hi). now apply Heq. }
  apply (backward_unique L lda n); [exact Hdiag|].
  intros i Hi. rewrite !upper_rows_sum by lia. now apply Hy.
Qed.

Lemma back_substitution_exists (L : buffer) (lda n : nat) (g : nat -> R) :
  (forall i, (i < n)%nat -> mat L lda i i <> 0) ->
  exists b : nat -> R, triangular_solution CUBLAS_OP_N L lda n b g.
Proof.
  intros Hdiag.
  destruct (trsm_upper_N_col_spec L lda 1 0 n n (tabulate g n))
    as (_ & _ & Hrows); [lia|rewrite tabulate_length; lia|].
  cbn zeta in Hrows.
  exists (rd (trsm_upper_N_col L lda 1 (tabulate g n) 0 n n)).
  apply (triangular_solution_ext _ L _ _ _
           (rd (trsm_upper_N_col L lda 1 (tabulate g n) 0 n n)) _
           (fun i => 1 * rd (tabulate g n) i)).
  - reflexivity.
  - reflexivity.
  - intros i Hi. unfold rd. rewrite nth_tabulate by assumption. ring.
  - apply back_substitution_solves; [exact Hdiag|].
    intros r Hr. apply (Hrows r). lia.
Qed.

(** The squared norm of the solution [g] of [L^T g = k] is [k . b] for the
    solution [b] of [K b = k]: it does not depend on the factor. *)
Lemma variance_term_of_factor (L K : buffer) (lda n : nat) (k g : nat -> R) :
  upper_factor_of L K lda n -> symmetric_block K lda n ->
  (forall i, (i < n)%nat -> mat L lda i i <> 0) ->
  triangular_solution CUBLAS_OP_T L lda n g k ->
  exists b : nat -> R,
    (forall i, (i < n)%nat ->
       big_sum (fun j => mat K lda i j * b j) n = k i)
    /\ big_sum (fun i => g i * g i) n = big_sum (fun j => k j * b j) n.
Proof.
  intros Hfac Hsym Hdiag HT.
  destruct (back_substitution_exists L lda n g Hdiag) as [b HN].
  exists b. split.
  - now apply (factor_solves_system L K lda n g b k).
  - transitivity
      (big_sum (fun i => big_sum (fun j => g i * upper_entry L lda i j * b j)
                           n) n).
    + apply big_sum_ext. intros i Hi.
      rewrite <- (HN i Hi) at 2. cbn match.
      rewrite upper_rows_sum by lia. rewrite <- big_sum_scale.
      apply big_sum_ext. intros j _. ring.
    + rewrite big_sum_swap. apply big_sum_ext. intros j Hj.
      rewrite <- (HT j Hj). cbn match.
      rewrite (upper_cols_sum L lda n j g Hj).
      rewrite Rmult_comm, <- big_sum_scale.
      apply big_sum_ext. intros i _. ring.
Qed.

Lemma variance_term_factor_independent (L1 L2 K : buffer) (lda n : nat)
    (k g1 g2 : nat -> R) :
  upper_factor_of L1 K lda n -> upper_factor_of L2 K lda n ->
  symmetric_block K lda n ->
  (forall i, (i < n)%nat -> mat L1 lda i i <> 0) ->
  (forall i, (i < n)%nat -> mat L2 lda i i <> 0) ->
  triangular_solution CUBLAS_OP_T L1 lda n g1 k ->
  triangular_solution CUBLAS_OP_T L2 lda n g2 k ->
  big_sum (fun i => g1 i * g1 i) n = big_sum (fun i => g2 i * g2 i) n.
Proof.
  intros Hf1 Hf2 Hsym Hd1 Hd2 HT1 HT2.
  destruct (variance_term_of_factor L1 K lda n k g1 Hf1 Hsym Hd1 HT1)
    as (b1 & Hb1 & ->).
  destruct (variance_term_of_factor L2 K lda n k g2 Hf2 Hsym Hd2 HT2)
    as (b2 & Hb2 & ->).
  apply big_sum_ext. intros j Hj. f_equal.
  apply (factor_system_unique L1 K lda n b1 b2 Hf1 Hsym Hd1); [|exact Hj].
  intros i Hi. now rewrite Hb1, Hb2.
Qed.

(** C1: in exact arithmetic the two ways of admitting a point agree.  Let
    [d_L] hold an upper Cholesky factor of the kernel matrix of the older
    active points, let [compute_sqrt_var] return a square root of the pivot
    of the new column, let [culaDeviceSpotrf] return an upper Cholesky
    factor of the matrix it is handed and [culaDeviceSpotrs] the solution
    by the two triangular solves with that factor.  Then [UpdateChol] and
    [SolveLinearSystemChol] leave the same [alpha] in the active entries,
    hence the same mean [k . alpha] for every kernel vector [k], and their
    factors give the same variance term [|g|^2], [L^T g = k], for every
    kernel vector; the factor that [UpdateChol] leaves is again an upper
    Cholesky factor, so the agreement carries over to the next point. *)
Theorem UpdateChol_agrees_with_SolveLinearSystemChol {dk : DeviceKernels}
    (hypers : GaussianProcessHyperparams) (st : CholDevice) :
  let asb := activeSetBuffers st in
  let K := active_kernel_matrix asb in
  let n := Z.to_nat (num_active asb) in
  let lda := Z.to_nat (max_active asb) in
  let inc := UpdateChol hypers st in
  let full := SolveLinearSystemChol st in
  let A0 := cudaMemcpy (d_L st) 0 K 0
              (int_wrap (max_active asb * max_active asb)) in
  let B0 := cudaMemcpy (d_alpha st) 0 (active_targets asb) 0
              (max_active asb) in
  let F := culaDeviceSpotrf (num_active asb) A0 (max_active asb) in
  (1 <= num_active asb <= max_active asb)%Z ->
  (max_active asb * max_active asb < 2 ^ 31)%Z ->
  (lda * lda <= length (d_L st))%nat ->
  (lda <= length (d_alpha st))%nat ->
  (lda <= length (d_gamma st))%nat ->
  d_scalar1 st = 1 ->
  symmetric_block K lda n ->
  upper_factor_of (d_L st) K lda (n - 1) ->
  (forall i, (i < n - 1)%nat -> mat (d_L st) lda i i <> 0) ->
  rd (d_kernelVector inc) 0 <> 0 ->
  rd (d_kernelVector inc) 0 * rd (d_kernelVector inc) 0
  = mat K lda (n - 1) (n - 1)
    - big_sum (fun r => mat (d_L inc) lda r (n - 1)
                        * mat (d_L inc) lda r (n - 1)) (n - 1) ->
  upper_factor_of F A0 lda n ->
  (forall i, (i < n)%nat -> mat F lda i i <> 0) ->
  (exists y,
     triangular_solution CUBLAS_OP_T F lda n y (rd B0)
     /\ triangular_solution CUBLAS_OP_N F lda n
          (rd (culaDeviceSpotrs (num_active asb) 1 F (max_active asb) B0
                 (max_active asb))) y) ->
  (forall i, (i < n)%nat -> rd (d_alpha inc) i = rd (d_alpha full) i)
  /\ (forall k : nat -> R,
        big_sum (fun i => k i * rd (d_alpha inc) i) n
        = big_sum (fun i => k i * rd (d_alpha full) i) n)
  /\ (forall k g g' : nat -> R,
        triangular_solution CUBLAS_OP_T (d_L inc) lda n g k ->
        triangular_solution CUBLAS_OP_T (d_L full) lda n g' k ->
        big_sum (fun i => g i * g i) n = big_sum (fun i => g' i * g' i) n)
  /\ upper_factor_of (d_L inc) K lda n.
Proof.
  cbn zeta.
  intros Hn Hsq HL Ha Hg Hone Hsym Hold Holddiag Hnew Hpivot Hpotrf Hfdiag
    (y & HyT & HyN).
  set (asb := activeSetBuffers st) in *.
  set (K := active_kernel_matrix asb) in *.
  set (n := Z.to_nat (num_active asb)) in *.
  set (lda := Z.to_nat (max_active asb)) in *.
  set (A0 := cudaMemcpy (d_L st) 0 K 0
               (int_wrap (max_active asb * max_active asb))) in *.
  set (B0 := cudaMemcpy (d_alpha st) 0 (active_targets asb) 0
               (max_active asb)) in *.
  set (F := culaDeviceSpotrf (num_active asb) A0 (max_active asb)) in *.
  assert (Hnl : (1 <= n <= lda)%nat) by (unfold n, lda; lia).
  (* the incremental path *)
  destruct (UpdateChol_factor_spec hypers st Hn Hsq HL Ha Hg Hone Holddiag
              Hnew Hold Hpivot) as [Hfac_inc Hsolve_inc].
  specialize (Hsolve_inc Hsym).
  destruct (UpdateChol_spec hypers st Hn Hsq HL Ha Hg Hone Holddiag Hnew)
    as (_ & Hd & Hkeep & _).
  fold asb n lda in Hd, Hkeep.
  assert (Hidiag : forall i, (i < n)%nat ->
            mat (d_L (UpdateChol hypers st)) lda i i <> 0).
  { intros i Hi. destruct (Nat.eq_dec i (n - 1)) as [->|Hne].
    - now rewrite Hd.
    - rewrite Hkeep by lia. apply Holddiag. lia. }
  (* the full path *)
  assert (HLfull : d_L (SolveLinearSystemChol st) = F) by reflexivity.
  assert (Hafull : d_alpha (SolveLinearSystemChol st)
                   = culaDeviceSpotrs (num_active asb) 1 F (max_active asb)
                       B0 (max_active asb)) by reflexivity.
  assert (HA0 : forall i j, (i < lda)%nat -> (j < lda)%nat ->
            mat A0 lda i j = mat K lda i j).
  { intros i j Hi Hj. unfold A0, cudaMemcpy, mat.
    rewrite int_wrap_small by nia.
    rewrite rd_write_tabulate_inside; [f_equal; lia| |nia].
    unfold lda in *. rewrite Z2Nat.inj_mul by lia. nia. }
  assert (HB0 : forall i, (i < lda)%nat ->
            rd B0 i = rd (active_targets asb) i).
  { intros i Hi. unfold B0, cudaMemcpy. fold lda.
    rewrite rd_write_tabulate_inside by lia. f_equal. lia. }
  assert (Hfac_full : upper_factor_of F K lda n).
  { intros i j Hij. rewrite (Hpotrf i j Hij). apply HA0; lia. }
  assert (Hsolve_full : forall i, (i < n)%nat ->
            big_sum (fun j => mat K lda i j
                              * rd (d_alpha (SolveLinearSystemChol st)) j) n
            = rd (active_targets asb) i).
  { rewrite Hafull.
    apply (factor_solves_system F K lda n y _ _ Hfac_full Hsym); [|exact HyN].
    apply (triangular_solution_ext _ F _ _ _ y _ (rd B0)); auto.
    intros i Hi. symmetry. apply HB0. lia. }
  assert (Halpha : forall i, (i < n)%nat ->
            rd (d_alpha (UpdateChol hypers st)) i
            = rd (d_alpha (SolveLinearSystemChol st)) i).
  { apply (factor_system_unique _ K lda n _ _ Hfac_inc Hsym Hidiag).
    intros i Hi. now rewrite Hsolve_inc, Hsolve_full. }
  split; [exact Halpha|]. split; [|split; [|exact Hfac_inc]].
  - intros k. apply big_sum_ext. intros i Hi. now rewrite Halpha.
  - intros k g g' HT HT'. rewrite HLfull in HT'.
    apply (variance_term_factor_independent _ F K lda n k g g' Hfac_inc
             Hfac_full Hsym Hidiag Hfdiag HT HT').
Qed.

Lemma UpdateChol_agrees_with_SolveLinearSystemChol_witness :
  let K := active_kernel_matrix (activeSetBuffers growing_state) in
  let inc := UpdateChol (dk := cholesky_kernels) sample_hypers
               growing_state in
  let full := SolveLinearSystemChol (dk := cholesky_kernels)
                growing_state in
  (forall i, (i < 2)%nat -> rd (d_alpha inc) i = rd (d_alpha full) i)
  /\ (forall k : nat -> R,
        big_sum (fun i => k i * rd (d_alpha inc) i) 2
        = big_sum (fun i => k i * rd (d_alpha full) i) 2)
  /\ (forall k g g' : nat -> R,
        triangular_solution CUBLAS_OP_T (d_L inc) 2 2 g k ->
        triangular_solution CUBLAS_OP_T (d_L full) 2 2 g' k ->
        big_sum (fun i => g i * g i) 2 = big_sum (fun i => g' i * g' i) 2)
  /\ upper_factor_of (d_L inc) K 2 2.
Proof.
  apply (UpdateChol_agrees_with_SolveLinearSystemChol
           (dk := cholesky_kernels) sample_hypers growing_state).
  - cbn. lia.
  - cbn. lia.
  - cbn. lia.
  - cbn. lia.
  - cbn. lia.
  - reflexivity.
  - intros [|[|i]] [|[|j]] Hi Hj; try (cbn in Hi, Hj; lia); eval_model; lra.
  - intros [|i] [|j] Hij; try (cbn in Hij; lia). eval_model. lra.
  - intros [|i] Hi; [|cbn in Hi; lia]. eval_model. lra.
  - eval_model. lra.
  - eval_model. lra.
  - intros [|[|i]] [|[|j]] Hij; try (cbn in Hij; lia); eval_model; lra.
  - intros [|[|i]] Hi; [| |cbn in Hi; lia]; eval_model; lra.
  - exists (rd [1; 7 / 4]). split.
    + intros [|[|i]] Hi; [| |cbn in Hi; lia]; eval_model; lra.
    + intros [|[|i]] Hi; [| |cbn in Hi; lia]; eval_model; lra.
Defined.
